(** * CloudSyncApplication: the reconciliation engine

    A shallow embedding of [sync/change_detector.py], [sync/cloud_ops.py],
    [sync/core.py], [sync/local_scanner.py] and of the part of
    [cloud_storage/yandex_disk.py] that they drive, together with the
    properties of the change signal, the rename heuristics, the ordered
    reconciliation, the tick, the two scans and the initial synchronisation.

    Conventions of the embedding.
    - A Python [dict] keyed by path is a [gmap string _]; [set(d.keys())] is
      [dom d]; iterating a [set] goes through an enumeration function [iter]
      about which only "every element once" is assumed.
    - A modification time is a float in the source.  Only [>], [!=] and the
      injective [repr] of such values are used, so times are embedded in [Z]
      (any order embedding of the finite floats will do); [0.0] is [0].
    - Calls on the cloud client are recorded in an event trace; whether a call
      succeeds is decided by the client, a function of the trace so far.
    - [time.sleep] and most info/debug log lines have no counterpart. *)

From stdpp Require Import gmap strings list fin_maps sorting.
From Stdlib Require Import Ascii ZArith Lia.

Local Open Scope Z_scope.

(** ** Data model *)

(** A local snapshot maps a relative path to [(mtime, size)]. *)
Abbreviation local_state := (gmap string (Z * Z)).

(** The value stored under the key ['modified'] of a remote item: JSON gives
    a string or [null]. *)
Inductive pyval :=
  | PyNone
  | PyStr (s : string).

#[global] Instance pyval_eq_dec : EqDecision pyval.
Proof. solve_decision. Defined.

(** One item of a remote listing.  ['path'] and ['type'] are always there; ['size']
    and ['modified'] come with files only, so a key may be absent ([None]). *)
Record item := Item {
  item_path : string;
  item_type : string;
  item_size : option Z;
  item_modified : option pyval
}.

#[global] Instance item_eq_dec : EqDecision item.
Proof. solve_decision. Defined.

Abbreviation cloud_state := (gmap string item).

(** ** ChangeDetector.check_local_changes *)

Definition check_local_changes (current_local last_local : local_state) : bool :=
  if bool_decide (last_local = ∅) then true
  else
    let added_files := dom current_local ∖ dom last_local in
    let removed_files := dom last_local ∖ dom current_local in
    if bool_decide (added_files ≠ ∅) then true
    else if bool_decide (removed_files ≠ ∅) then true
    else
      existsb (λ '(path, (mtime, size)),
                 match last_local !! path with
                 | Some (last_mtime, last_size) =>
                     (mtime >? last_mtime) || negb (size =? last_size)
                 | None => false
                 end)
              (map_to_list current_local).

(** ** ChangeDetector.check_cloud_changes *)

(** [item.get('modified')]: [None] for an absent key as for a null value. *)
Definition get_modified (it : item) : pyval := default PyNone (item_modified it).

Definition check_cloud_changes (current_cloud last_cloud : cloud_state) : bool :=
  if bool_decide (last_cloud = ∅) then true
  else
    let added := dom current_cloud ∖ dom last_cloud in
    let removed := dom last_cloud ∖ dom current_cloud in
    if bool_decide (added ≠ ∅) || bool_decide (removed ≠ ∅) then true
    else
      existsb (λ '(path, it),
                 match last_cloud !! path with
                 | Some last_it => negb (bool_decide (get_modified it = get_modified last_it))
                 | None => false
                 end)
              (map_to_list current_cloud).

(** ** Strings as Python uses them here *)

(** [s.count(c)] for a one-character [c]. *)
Fixpoint count_char (c : ascii) (s : string) : nat :=
  match s with
  | EmptyString => 0%nat
  | String a s' => if decide (a = c) then S (count_char c s') else count_char c s'
  end.

(** [s.split(c)] for a one-character separator: never the empty list. *)
Fixpoint split_on (c : ascii) (s : string) : list string :=
  match s with
  | EmptyString => [EmptyString]
  | String a s' =>
      if decide (a = c) then EmptyString :: split_on c s'
      else match split_on c s' with
           | h :: t => String a h :: t
           | [] => [String a EmptyString]
           end
  end.

(** [s[:n]] and [s[n:]]. *)
Fixpoint str_take (n : nat) (s : string) : string :=
  match n, s with
  | S n', String a s' => String a (str_take n' s')
  | _, _ => EmptyString
  end.

Fixpoint str_drop (n : nat) (s : string) : string :=
  match n, s with
  | S n', String _ s' => str_drop n' s'
  | _, _ => s
  end.

(** [s.startswith(p)]. *)
Definition startswith (p s : string) : bool := String.prefix p s.

(** [s.replace(old, "")] for a non-empty [old]: every occurrence goes, scanning
    from the left and resuming after each match.  [skip] counts the characters
    of the current match still to be dropped. *)
Fixpoint remove_from (skip : nat) (old s : string) : string :=
  match s with
  | EmptyString => EmptyString
  | String a s' =>
      match skip with
      | S k => remove_from k old s'
      | O => if startswith old s then remove_from (String.length old - 1) old s'
             else String a (remove_from 0 old s')
      end
  end.

Definition remove_all (old s : string) : string :=
  match old with
  | EmptyString => s
  | _ => remove_from 0 old s
  end.

Definition slash : ascii := "/"%char.

(** The folders implied by one path:
    ['/'.join(f.split('/')[:i + 1]) for i in range(len(f.split('/')) - 1)]. *)
Definition parent_folders (f : string) : list string :=
  let parts := split_on slash f in
  (λ i, String.concat "/" (take (S i) parts)) <$> seq 0 (length parts - 1).

Definition folders_of {V} (files : gmap string V) : gset string :=
  list_to_set (flat_map (λ '(f, _), parent_folders f) (map_to_list files)).

(** ** The cloud client and the effects of the detector *)

(** The mutating calls the detector makes on the client.  The file argument
    of [load] is always [local_path / rel_path], so only [rel_path] is kept. *)
Inductive call :=
  | Load (rel_path : string)
  | Delete (file_path : string)
  | Rename (old_path new_path : string).

#[global] Instance call_eq_dec : EqDecision call.
Proof. solve_decision. Defined.

(** The log lines kept: the [logger.error] of the item-level handlers, and
    the two [logger.info] lines by which a tick says which way it went. *)
Inductive log_line :=
  | FolderRenameError (old_folder new_folder : string)
  | FileRenameError (old_name new_name : string)
  | NoChangesDetected
  | ChangesDetected.

Inductive event :=
  | Called (c : call)
  | Logged (l : log_line).

Inductive exn :=
  | CloudStorageError (c : call)
  | KeyError (key : string)
  | RenameUnsupported
  | ScanError
  | AttributeError
  | SyncError (cause : exn).

(** A client: its target folder, whether it has a [rename] attribute, and
    its answer to a call given everything that happened before. *)
Record client := Client {
  cloud_folder : string;
  has_rename : bool;
  responds : list event → call → bool
}.

(** A computation reads the trace so far and gives the events it adds, with
    an exception or a value. *)
Definition M (A : Type) : Type := list event → list event * (exn + A).

#[global] Instance M_ret : MRet M := λ A a _, ([], inr a).

#[global] Instance M_bind : MBind M := λ A B f m h,
  match m h with
  | (t1, inl e) => (t1, inl e)
  | (t1, inr a) => match f a (h ++ t1) with (t2, r) => (t1 ++ t2, r) end
  end.

Definition raise {A} (e : exn) : M A := λ _, ([], inl e).

Definition try_except {A} (body : M A) (handler : exn → M A) : M A := λ h,
  match body h with
  | (t1, inl e) => match handler e (h ++ t1) with (t2, r) => (t1 ++ t2, r) end
  | (t1, inr a) => (t1, inr a)
  end.

Definition log (l : log_line) : M unit := λ _, ([Logged l], inr ()).

Definition invoke (cl : client) (c : call) : M unit := λ h,
  ([Called c], if responds cl h c then inr () else inl (CloudStorageError c)).

Fixpoint for_each {A} (l : list A) (body : A → M unit) : M unit :=
  match l with
  | [] => mret ()
  | x :: l' => body x;; for_each l' body
  end.

(** The calls of a trace, log lines dropped. *)
Definition calls_of (t : list event) : list call :=
  omap (λ e, match e with Called c => Some c | Logged _ => None end) t.

(** ** YandexDiskClient.delete: the request it sends *)



(** ** The local file system, as the detector reads it *)

(** [exists] and [stat] of [local_path / rel_path]; [stat] gives
    [(st_mtime, st_size)], or [None] for an [OSError].  The detector probes
    only paths of the local snapshot of the same tick, which the scan has
    just stat-ed; [exists] is taken to answer for them. *)
Record local_fs := LocalFs {
  fs_exists : string → bool;
  fs_stat : string → option (Z * Z)
}.

(** ** File identifiers *)

(** The string [f"{size}-{mtime}"], or the empty string.  The decimal form of
    a size and the [repr] of a float are injective, so two such strings are
    equal exactly when both components are. *)
Inductive identifier :=
  | IdEmpty
  | IdOf (size mtime : Z).

#[global] Instance identifier_eq_dec : EqDecision identifier.
Proof. solve_decision. Defined.

Definition _get_file_identifier (rel_path : string) (last_local : local_state) : identifier :=
  match last_local !! rel_path with
  | Some (mtime, size) => IdOf size mtime
  | None => IdEmpty
  end.

Definition _calculate_file_identifier (fs : local_fs) (file_path : string) : identifier :=
  match fs_stat fs file_path with
  | Some (st_mtime, st_size) => IdOf st_size st_mtime
  | None => IdEmpty
  end.

(** ** Stable sort by an integer key, as [list.sort(key=...)] *)

Fixpoint insert_by_key {A} (key : A → Z) (x : A) (l : list A) : list A :=
  match l with
  | [] => [x]
  | y :: l' => if key x <=? key y then x :: y :: l' else y :: insert_by_key key x l'
  end.

Definition sort_by_key {A} (key : A → Z) (l : list A) : list A :=
  foldr (insert_by_key key) [] l.

(** Depth of a folder path: [x.count('/')]. *)
Definition depth (folder : string) : Z := Z.of_nat (count_char slash folder).

(** The [(key, value)] pairs of a dict in the order of a walk of its keys. *)
Definition dict_items {V} (iter : gset string → list string) (d : gmap string V)
    : list (string * V) :=
  omap (λ k, (k,.) <$> d !! k) (iter (dom d)).

Section Detector.

(** The order in which Python walks a set. *)
Variable iter : gset string → list string.

Variable fs : local_fs.

(** [datetime.strptime(s, "%Y-%m-%dT%H:%M:%S").timestamp()], [None] when
    either call raises. *)
Variable strptime_timestamp : string → option Z.

(** *** ChangeDetector._find_renamed_files *)

Definition is_rename_of (last_local : local_state) (old_name new_name : string) : bool :=
  fs_exists fs new_name
  && bool_decide (_get_file_identifier old_name last_local
                  = _calculate_file_identifier fs new_name).

(** The outer loop over [disappeared_locally]; [appeared_locally] is the
    set the matches are removed from. *)
Fixpoint match_files (current_cloud : cloud_state) (last_local : local_state)
    (disappeared_locally : list string) (appeared_locally : gset string)
    : list (string * string) :=
  match disappeared_locally with
  | [] => []
  | old_name :: rest =>
      if bool_decide (old_name ∈ dom current_cloud) then
        match List.find (is_rename_of last_local old_name) (iter appeared_locally) with
        | Some new_name =>
            (old_name, new_name)
              :: match_files current_cloud last_local rest (appeared_locally ∖ {[new_name]})
        | None => match_files current_cloud last_local rest appeared_locally
        end
      else match_files current_cloud last_local rest appeared_locally
  end.

Definition _find_renamed_files (current_local : local_state) (current_cloud : cloud_state)
    (last_local : local_state) : list (string * string) :=
  let current_local_set := dom current_local in
  let last_local_set := dom last_local in
  let disappeared_locally := last_local_set ∖ current_local_set in
  let appeared_locally := current_local_set ∖ last_local_set in
  match_files current_cloud last_local (iter disappeared_locally) appeared_locally.

(** *** ChangeDetector._compare_folder_structures *)

Definition files_under {V} (folder : string) (files : gmap string V) : gmap string V :=
  list_to_map
    (omap (λ '(f, d),
             if startswith (folder +:+ "/") f
             then Some (str_drop (String.length folder + 1) f, d) else None)
          (map_to_list files)).

(** The loop over [new_files.items()], in the order of the list given. *)
Fixpoint same_sizes (old_files : gmap string item) (new_files : list (string * (Z * Z)))
    : M bool :=
  match new_files with
  | [] => mret true
  | (rel_path, (local_mtime, local_size)) :: rest =>
      match old_files !! rel_path with
      | None => mret false
      | Some it =>
          match item_size it with
          | None => raise (KeyError "size")
          | Some sz =>
              if negb (local_size =? sz) then mret false
              else same_sizes old_files rest
          end
      end
  end.

(** [new_files] is walked as a dict is: in an order of its keys that the
    comparison does not choose. *)
Definition _compare_folder_structures (old_folder new_folder : string)
    (current_local : local_state) (current_cloud : cloud_state) : M bool :=
  let old_files := files_under old_folder current_cloud in
  let new_files := files_under new_folder current_local in
  if negb (bool_decide (size old_files = size new_files)) then mret false
  else same_sizes old_files (dict_items iter new_files).

(** *** ChangeDetector._find_renamed_folders *)

Fixpoint first_same_folder (current_local : local_state) (current_cloud : cloud_state)
    (old_folder : string) (candidates : list string) : M (option string) :=
  match candidates with
  | [] => mret None
  | new_folder :: rest =>
      same ← _compare_folder_structures old_folder new_folder current_local current_cloud;
      if same : bool then mret (Some new_folder)
      else first_same_folder current_local current_cloud old_folder rest
  end.

Fixpoint match_folders (current_local : local_state) (current_cloud : cloud_state)
    (disappeared_folders : list string) (appeared_folders : gset string)
    : M (list (string * string)) :=
  match disappeared_folders with
  | [] => mret []
  | old_folder :: rest =>
      found ← first_same_folder current_local current_cloud old_folder (iter appeared_folders);
      match found with
      | Some new_folder =>
          more ← match_folders current_local current_cloud rest (appeared_folders ∖ {[new_folder]});
          mret ((old_folder, new_folder) :: more)
      | None => match_folders current_local current_cloud rest appeared_folders
      end
  end.

Definition _find_renamed_folders (current_local : local_state) (current_cloud : cloud_state)
    (last_local : local_state) : M (list (string * string)) :=
  let last_folders := folders_of last_local in
  let current_folders := folders_of current_local in
  let disappeared_folders := last_folders ∖ current_folders in
  let appeared_folders := current_folders ∖ last_folders in
  match_folders current_local current_cloud (iter disappeared_folders) appeared_folders.

(** *** ChangeDetector._parse_cloud_time *)

Definition _parse_cloud_time (timestr : pyval) : Z :=
  match timestr with
  | PyStr s => match strptime_timestamp (str_take 19 s) with
               | Some t => t
               | None => 0
               end
  | PyNone => 0
  end.

(** *** ChangeDetector._process_folder_rename *)

Definition cloud_path (cl : client) (name : string) : string :=
  "/" +:+ cloud_folder cl +:+ "/" +:+ name.

Definition _process_folder_rename (old_folder new_folder : string) (cl : client) : M unit :=
  let old_path := cloud_path cl old_folder in
  let new_path := cloud_path cl new_folder in
  try_except
    (if has_rename cl then invoke cl (Rename old_path new_path)
     else raise RenameUnsupported)
    (λ e, log (FolderRenameError old_folder new_folder);; raise e).

(** *** ChangeDetector._try_rename_cloud_file *)

Definition _try_rename_cloud_file (old_name new_name : string) (cl : client) : M bool :=
  try_except
    (if has_rename cl then
       invoke cl (Rename (cloud_path cl old_name) (cloud_path cl new_name));;
       mret true
     else mret false)
    (λ e, mret false).

(** *** ChangeDetector.process_local_changes, step by step *)

(** Step 1: folder renames, deepest first. *)
Definition rename_folders (folder_renames : list (string * string)) (cl : client) : M unit :=
  for_each (sort_by_key (λ x, - depth x.1) folder_renames)
    (λ '(old_folder, new_folder),
       try_except (_process_folder_rename old_folder new_folder cl)
                  (λ e, log (FolderRenameError old_folder new_folder))).

(** Step 2: file renames, with the upload-and-delete fallback. *)
Definition rename_files (renamed_pairs : list (string * string))
    (current_cloud : cloud_state) (cl : client) : M unit :=
  for_each renamed_pairs
    (λ '(old_name, new_name),
       try_except
         (renamed ← _try_rename_cloud_file old_name new_name cl;
          if renamed : bool then mret ()
          else
            invoke cl (Load new_name);;
            match current_cloud !! old_name with
            | Some it => invoke cl (Delete (item_path it))
            | None => mret ()
            end)
         (λ e, log (FileRenameError old_name new_name))).

Definition processed_of (renamed_pairs : list (string * string)) : gset string :=
  list_to_set renamed_pairs.*2 ∪ list_to_set renamed_pairs.*1.

(** Whether the local entry differs from the previous local state. *)
Definition changed_since (last_local : local_state) (rel_path : string)
    (local_mtime local_size : Z) : bool :=
  match last_local !! rel_path with
  | Some (last_mtime, last_size) =>
      (local_mtime >? last_mtime) || negb (local_size =? last_size)
  | None => false
  end.

(** Step 3, one path. *)
Definition upload_item (current_local : local_state) (current_cloud : cloud_state)
    (last_local : local_state) (cl : client) (rel_path : string) : M unit :=
  match current_cloud !! rel_path with
  | None => invoke cl (Load rel_path)
  | Some cloud_item =>
      match current_local !! rel_path with
      | None => raise (KeyError rel_path)
      | Some (local_mtime, local_size) =>
          match item_modified cloud_item with
          | None => raise (KeyError "modified")
          | Some timestr =>
              let cloud_mtime := _parse_cloud_time timestr in
              if changed_since last_local rel_path local_mtime local_size
              then invoke cl (Load rel_path)
              else if local_mtime >? cloud_mtime then invoke cl (Load rel_path)
              else mret ()
          end
      end
  end.

(** Step 4, one path. *)
Definition delete_item (current_cloud : cloud_state) (cl : client) (rel_path : string)
    : M unit :=
  match current_cloud !! rel_path with
  | Some it => invoke cl (Delete (item_path it))
  | None => raise (KeyError rel_path)
  end.

(** Step 3: new and changed files. *)
Definition upload_changed (current_local : local_state) (current_cloud : cloud_state)
    (last_local : local_state) (cl : client) (processed_files : gset string) : M unit :=
  for_each (iter (dom current_local ∖ processed_files))
           (upload_item current_local current_cloud last_local cl).

(** Step 4: files gone locally. *)
Definition delete_removed (current_local : local_state) (current_cloud : cloud_state)
    (cl : client) (processed_files : gset string) : M unit :=
  for_each (iter (dom current_cloud ∖ dom current_local ∖ processed_files))
           (delete_item current_cloud cl).

Definition process_local_changes (current_local : local_state) (current_cloud : cloud_state)
    (last_local : local_state) (cl : client) : M unit :=
  let renamed_pairs := _find_renamed_files current_local current_cloud last_local in
  folder_renames ← _find_renamed_folders current_local current_cloud last_local;
  rename_folders folder_renames cl;;
  rename_files renamed_pairs current_cloud cl;;
  let processed_files := processed_of renamed_pairs in
  upload_changed current_local current_cloud last_local cl processed_files;;
  delete_removed current_local current_cloud cl processed_files.

End Detector.

(** ** CloudOperations.scan_cloud_files_with_retry *)

(** The key of a remote file: [item['path'].replace(f"disk:/{cloud_folder}/", "")]. *)
Definition cloud_key (cloud_folder : string) (p : string) : string :=
  remove_all ("disk:/" +:+ cloud_folder +:+ "/") p.

(** The body of one attempt, given the listing. *)
Definition collect_files (cloud_folder : string) (items : list item) : cloud_state :=
  foldl (λ cloud_files it,
           if bool_decide (item_type it = "file")
           then <[cloud_key cloud_folder (item_path it) := it]> cloud_files
           else cloud_files)
        ∅ items.

(** [get_recursive_info attempt] is what the client answers at the given
    attempt: a listing, or an exception.  With no attempt allowed the source
    falls off the loop and returns [None]. *)
Fixpoint scan_attempts (cloud_folder : string) (get_recursive_info : nat → exn + list item)
    (attempt remaining : nat) : exn + option cloud_state :=
  match remaining with
  | O => inr None
  | S remaining' =>
      match get_recursive_info attempt with
      | inr items => inr (Some (collect_files cloud_folder items))
      | inl e =>
          match remaining' with
          | O => inl e
          | S _ => scan_attempts cloud_folder get_recursive_info (S attempt) remaining'
          end
      end
  end.

Definition scan_cloud_files_with_retry (cloud_folder : string)
    (get_recursive_info : nat → exn + list item) (max_retries : nat)
    : exn + option cloud_state :=
  scan_attempts cloud_folder get_recursive_info 0 max_retries.

(** ** FileSynchronizer *)

Record FileSynchronizer := Synchronizer {
  cloud_client : client;
  _last_local_state : local_state;
  _last_cloud_state : cloud_state
}.

Section Tick.

Variable iter : gset string → list string.
Variable strptime_timestamp : string → option Z.

(** What one tick commits when it gets that far. *)
Definition commit (self : FileSynchronizer) (current_local : local_state)
    (current_cloud : cloud_state) : FileSynchronizer :=
  {| cloud_client := cloud_client self;
     _last_local_state := current_local;
     _last_cloud_state := current_cloud |}.

(** [FileSynchronizer.sync].  The tick's inputs are what the collaborators
    show it: the local scan, the local file system and the remote
    listings. *)
Definition sync (self : FileSynchronizer) (scan_local_files : local_state)
    (fs : local_fs) (get_recursive_info : nat → exn + list item) : M FileSynchronizer :=
  try_except
    (let current_local := scan_local_files in
     match scan_cloud_files_with_retry
             (cloud_folder (cloud_client self)) get_recursive_info 3 with
     | inl e => raise e
     | inr None => raise AttributeError
     | inr (Some current_cloud) =>
         let local_changes := check_local_changes current_local (_last_local_state self) in
         let cloud_changes := check_cloud_changes current_cloud (_last_cloud_state self) in
         if negb local_changes && negb cloud_changes then
           log NoChangesDetected;; mret self
         else
           log ChangesDetected;;
           (if local_changes then
              process_local_changes iter fs strptime_timestamp
                current_local current_cloud (_last_local_state self) (cloud_client self)
            else mret ());;
           mret (commit self current_local current_cloud)
     end)
    (λ e, raise (SyncError e)).

End Tick.

(** ** LocalScanner.scan_local_files *)

(** The [OSError] that a probe of [path] raises: a [PermissionError] and the
    like, not the "no such file" that pathlib answers with [False]. *)
Inductive os_error := OSError (path : string).

(** One entry met by [rglob('*')]: its path relative to the root as the
    platform writes it; what [is_file()] answers, [None] when it raises (it
    swallows only "not found" and its kin); and what [stat()] gives, [None]
    for an [OSError]. *)
Record fs_entry := FsEntry {
  entry_path : string;
  entry_is_file : option bool;
  entry_stat : option (Z * Z)
}.

Definition backslash : ascii := "\"%char.

(** [s.replace('\\', '/')]. *)
Fixpoint to_posix (s : string) : string :=
  match s with
  | EmptyString => EmptyString
  | String a s' => String (if decide (a = backslash) then slash else a) (to_posix s')
  end.

(** The loop over the entries, [files] being the dict built so far.
    [is_file()] is called outside the [try]: what it raises ends the scan. *)
Fixpoint scan_entries (files : local_state) (walk : list fs_entry)
    : os_error + local_state :=
  match walk with
  | [] => inr files
  | e :: rest =>
      match entry_is_file e with
      | None => inl (OSError (entry_path e))
      | Some true =>
          match entry_stat e with
          | Some st => scan_entries (<[to_posix (entry_path e) := st]> files) rest
          | None => scan_entries files rest
          end
      | Some false => scan_entries files rest
      end
  end.

Definition scan_local_files (walk : list fs_entry) : os_error + local_state :=
  scan_entries ∅ walk.

(** ** CloudOperations *)

(** The calls CloudOperations makes on the client. *)
Inductive ops_call :=
  | GetRecursiveInfo
  | DeleteFile (file_path : string)
  | CreateFolder (folder_path : string)
  | LoadFile (rel_path : string)
  | ReloadFile (rel_path : string).

#[global] Instance ops_call_eq_dec : EqDecision ops_call.
Proof. solve_decision. Defined.

(** The exceptions of this layer; a [SyncError] is told apart by the
    message it is built with. *)
Inductive ops_exn :=
  | OpsCloudStorageError (c : ops_call)
  | OpsAttributeError
  | OpsOSError (e : os_error)
  | OpsSyncError (why : sync_failure)
with sync_failure :=
  | CleanFailed (rel_path : string)
  | FolderFailed (folder : string)
  | ReadFailed (rel_path : string)
  | UploadFailed (rel_path : string) (cause : ops_exn)
  | FilesMissing (count : nat)
  | InitialSyncFailed (cause : ops_exn).

(** The client as CloudOperations sees it: whether a call succeeds, and the
    listing [get_recursive_info] returns, both given the calls made so far. *)
(** [exists()] and [stat()] of [local_path / rel_path] as CloudOperations
    calls them.  [exists()] is [None] when it raises: pathlib answers
    [False] for "not found" and its kin only, and lets any other [OSError]
    through.  [stat()] gives [(st_mtime, st_size)], or [None] for an
    [OSError]. *)
Record disk := Disk {
  disk_exists : string → option bool;
  disk_stat : string → option (Z * Z)
}.

Record ops_client := OpsClient {
  ops_cloud_folder : string;
  ops_accepts : list ops_call → ops_call → bool;
  ops_listing : list ops_call → list item
}.

(** Computations over any kind of recorded call and exception. *)
Definition Eff (C X A : Type) : Type := list C → list C * (X + A).

#[global] Instance Eff_ret {C X} : MRet (Eff C X) := λ A a _, ([], inr a).

#[global] Instance Eff_bind {C X} : MBind (Eff C X) := λ A B f m h,
  match m h with
  | (t1, inl e) => (t1, inl e)
  | (t1, inr a) => match f a (h ++ t1) with (t2, r) => (t1 ++ t2, r) end
  end.

Definition eff_raise {C X A} (e : X) : Eff C X A := λ _, ([], inl e).

Definition eff_try {C X A} (body : Eff C X A) (handler : X → Eff C X A) : Eff C X A := λ h,
  match body h with
  | (t1, inl e) => match handler e (h ++ t1) with (t2, r) => (t1 ++ t2, r) end
  | (t1, inr a) => (t1, inr a)
  end.

Fixpoint eff_for_each {C X A} (l : list A) (body : A → Eff C X unit) : Eff C X unit :=
  match l with
  | [] => mret ()
  | x :: l' => body x;; eff_for_each l' body
  end.

Abbreviation Ops := (Eff ops_call ops_exn).

Definition ops_invoke (cl : ops_client) (c : ops_call) : Ops unit := λ h,
  ([c], if ops_accepts cl h c then inr () else inl (OpsCloudStorageError c)).

Definition get_recursive_info (cl : ops_client) : Ops (list item) := λ h,
  ([GetRecursiveInfo],
   if ops_accepts cl h GetRecursiveInfo then inr (ops_listing cl h)
   else inl (OpsCloudStorageError GetRecursiveInfo)).

(** [scan_cloud_files_with_retry] as CloudOperations runs it, every attempt a
    call on the client. *)
Fixpoint scan_cloud (cl : ops_client) (max_retries : nat) : Ops (option cloud_state) :=
  match max_retries with
  | O => mret None
  | S remaining =>
      eff_try
        (items ← get_recursive_info cl;
         mret (Some (collect_files (ops_cloud_folder cl) items)))
        (λ e, match remaining with
              | O => eff_raise e
              | S _ => scan_cloud cl remaining
              end)
  end.

Section CloudOperations.

Variable iter : gset string → list string.
Variable fs : disk.
Variable cl : ops_client.

(** *** clean_cloud_storage *)

Definition clean_cloud_storage (cloud_files : cloud_state) : Ops unit :=
  eff_for_each (dict_items iter cloud_files)
    (λ '(rel_path, it),
       eff_try (ops_invoke cl (DeleteFile (item_path it)))
               (λ e, eff_raise (OpsSyncError (CleanFailed rel_path)))).

(** *** create_folder_structure *)

(** The inner loop over [parts]: [current_path] grows by one part a turn. *)
Fixpoint folder_chain (current_path : string) (parts : list string) : list string :=
  match parts with
  | [] => []
  | part :: rest =>
      let current_path' :=
        match current_path with
        | EmptyString => part
        | _ => current_path +:+ "/" +:+ part
        end in
      current_path' :: folder_chain current_path' rest
  end.

Definition folders_to_create (file_paths : list string) : gset string :=
  list_to_set
    (flat_map (λ path,
                 if decide (count_char slash path = 0%nat) then []
                 else folder_chain "" (removelast (split_on slash path)))
              file_paths).

Definition sorted_folders (file_paths : list string) : list string :=
  sort_by_key depth (iter (folders_to_create file_paths)).

Definition create_folder_structure (file_paths : list string) : Ops unit :=
  eff_for_each (sorted_folders file_paths)
    (λ folder,
       eff_try (ops_invoke cl (CreateFolder folder))
               (λ e, eff_raise (OpsSyncError (FolderFailed folder)))).

(** *** upload_file *)

Definition upload_call (rel_path : string) (is_update : bool) : ops_call :=
  if is_update then ReloadFile rel_path else LoadFile rel_path.

(** The retry loop; [remaining] attempts are left. *)
Fixpoint upload_attempts (rel_path : string) (is_update : bool) (remaining : nat)
    : Ops unit :=
  match remaining with
  | O => mret ()
  | S remaining' =>
      eff_try (ops_invoke cl (upload_call rel_path is_update))
        (λ e, match remaining' with
              | O => eff_raise (OpsSyncError (UploadFailed rel_path e))
              | S _ => upload_attempts rel_path is_update remaining'
              end)
  end.

(** [file_path.exists()] is called outside any [try]: what it raises leaves
    [upload_file] as it is. *)
Definition upload_file (rel_path : string) (is_update : bool) (max_retries : nat)
    : Ops unit :=
  match disk_exists fs rel_path with
  | None => eff_raise (OpsOSError (OSError rel_path))
  | Some false => mret ()
  | Some true =>
      match disk_stat fs rel_path with
      | None => eff_raise (OpsSyncError (ReadFailed rel_path))
      | Some _ => upload_attempts rel_path is_update max_retries
      end
  end.

(** *** upload_all_files *)

Definition upload_all_files (local_files : local_state) : Ops unit :=
  eff_for_each (iter (dom local_files)) (λ rel_path, upload_file rel_path false 3).

(** *** validate_sync *)

Definition validate_sync (local_files : local_state) : Ops unit :=
  scanned ← scan_cloud cl 5;
  match scanned with
  | None => eff_raise OpsAttributeError
  | Some cloud_files =>
      let missing_files := dom local_files ∖ dom cloud_files in
      if bool_decide (missing_files ≠ ∅)
      then eff_raise (OpsSyncError (FilesMissing (size missing_files)))
      else mret ()
  end.

(** *** FileSynchronizer.initial_sync *)

(** Stages 2 to 6, everything before the baselines are written. *)
Definition initial_sync_stages (local_files : local_state) : Ops unit :=
  scanned ← scan_cloud cl 5;
  match scanned with
  | Some cloud_files =>
      if bool_decide (cloud_files ≠ ∅) then clean_cloud_storage cloud_files else mret ()
  | None => mret ()
  end;;
  create_folder_structure (iter (dom local_files));;
  upload_all_files local_files;;
  validate_sync local_files.

(** The synchronizer is returned in every case: the local baseline is
    written before the last scan, which may still raise. *)
Definition initial_sync (self : FileSynchronizer) (local_files : local_state)
    (h : list ops_call) : list ops_call * (ops_exn + unit) * FileSynchronizer :=
  if bool_decide (local_files = ∅) then ([], inr (), self)
  else
    match initial_sync_stages local_files h with
    | (t, inl e) => (t, inl (OpsSyncError (InitialSyncFailed e)), self)
    | (t, inr _) =>
        let self' := commit self local_files (_last_cloud_state self) in
        match scan_cloud cl 3 (h ++ t) with
        | (t', inl e) => (t ++ t', inl (OpsSyncError (InitialSyncFailed e)), self')
        | (t', inr (Some cloud_files)) =>
            (t ++ t', inr (), commit self local_files cloud_files)
        | (t', inr None) => (t ++ t', inr (), self')
        end
    end.

End CloudOperations.

(** ** YandexDiskClient.get_recursive_info *)

Module YandexDiskClient.

(** The paths [get_recursive_info] pushes for the items of one folder. *)
Definition dir_paths (items : list item) : list string :=
  item_path <$> filter (λ it, item_type it = "dir") items.

(** The [while stack] loop, the top of the stack at the head of the list;
    [fetch] is one [GET /resources], [None] when the request or
    [raise_for_status] fails. *)
Fixpoint walk (fetch : string → option (list item)) (fuel : nat)
    (stack : list string) (all_items : list item) : option (ops_exn + list item) :=
  match stack with
  | [] => Some (inr all_items)
  | current_path :: stack' =>
      match fuel with
      | O => None
      | S fuel' =>
          match fetch current_path with
          | None => Some (inl (OpsCloudStorageError GetRecursiveInfo))
          | Some items =>
              walk fetch fuel' (reverse (dir_paths items) ++ stack') (all_items ++ items)
          end
      end
  end.

Definition get_recursive_info (fetch : string → option (list item)) (cloud_folder : string)
    (fuel : nat) : option (ops_exn + list item) :=
  walk fetch fuel ["/" +:+ cloud_folder] [].

End YandexDiskClient.

(** * Vocabulary of the properties *)

(** An item that the snapshot keeps. *)
Definition is_file (it : item) : Prop := item_type it = "file".

#[global] Instance is_file_dec it : Decision (is_file it).
Proof. unfold is_file. apply _. Defined.

(** The upload rule of step 3, in the words of the specification. *)
Definition needs_upload (strptime_timestamp : string → option Z)
    (current_local : local_state) (current_cloud : cloud_state) (last_local : local_state)
    (p : string) : Prop :=
  current_cloud !! p = None
  ∨ ∃ it mtime sz,
      current_cloud !! p = Some it ∧ current_local !! p = Some (mtime, sz)
      ∧ ((∃ last_mtime last_sz,
            last_local !! p = Some (last_mtime, last_sz)
            ∧ (last_mtime < mtime ∨ sz ≠ last_sz))
         ∨ (∃ timestr,
              item_modified it = Some timestr
              ∧ _parse_cloud_time strptime_timestamp timestr < mtime)).

(** The order a sort by [key] establishes. *)
Definition key_le {A} (key : A → Z) (a b : A) : Prop := key a ≤ key b.

(** The [rename] call of step 1 for one detected pair. *)
Definition rename_call (cl : client) (pair : string * string) : call :=
  Rename (cloud_path cl pair.1) (cloud_path cl pair.2).

(** Two folders with the same files below them: the same relative paths, and
    path by path the local size equal to the remote ['size']. *)
Definition same_structure (current_local : local_state) (current_cloud : cloud_state)
    (old_folder new_folder : string) : Prop :=
  (∀ rel, is_Some (current_local !! (new_folder +:+ "/" +:+ rel))
          ↔ is_Some (current_cloud !! (old_folder +:+ "/" +:+ rel)))
  ∧ (∀ rel mtime sz,
       current_local !! (new_folder +:+ "/" +:+ rel) = Some (mtime, sz) →
       ∃ it, current_cloud !! (old_folder +:+ "/" +:+ rel) = Some it
             ∧ item_size it = Some sz).

(** [folder] is a folder on the way to some path of the snapshot. *)
Definition holds_folder {V} (files : gmap string V) (folder : string) : Prop :=
  ∃ p rest, is_Some (files !! p) ∧ p = folder +:+ "/" +:+ rest.

(** What a call of a reconciliation run may touch: an upload, a path that
    exists locally; a delete, the remote entry of a path that does not; a
    move, from a remote file or a folder that is gone locally to a path or a
    folder that exists locally. *)
Definition safe_call (cl : client) (current_local : local_state)
    (current_cloud : cloud_state) (c : call) : Prop :=
  match c with
  | Load p => p ∈ dom current_local
  | Delete fp =>
      ∃ k it, current_cloud !! k = Some it ∧ fp = item_path it ∧ k ∉ dom current_local
  | Rename a b =>
      ∃ o n, a = cloud_path cl o ∧ b = cloud_path cl n
             ∧ ((o ∈ dom current_cloud ∧ (o ∉ dom current_local) ∧ n ∈ dom current_local)
                ∨ (¬ holds_folder current_local o ∧ holds_folder current_local n))
  end.

(** One step of a map built by inserting what [entry] makes of each element. *)
Definition put {A V} (entry : A → option (string * V)) (m : gmap string V) (x : A)
    : gmap string V :=
  match entry x with
  | Some (k, v) => <[k := v]> m
  | None => m
  end.

(** What the local scan keeps of an entry. *)
Definition readable_file (e : fs_entry) : option (string * (Z * Z)) :=
  match entry_is_file e with
  | Some true => (λ st, (to_posix (entry_path e), st)) <$> entry_stat e
  | _ => None
  end.

(** What the client answers to the listing asked after [attempt] earlier
    listings, starting from the calls [h]. *)
Definition listing_attempt (cl : ops_client) (h : list ops_call) (attempt : nat)
    : exn + list item :=
  let h' := h ++ replicate attempt GetRecursiveInfo in
  if ops_accepts cl h' GetRecursiveInfo then inr (ops_listing cl h') else inl ScanError.

(** A path that does not start at the root. *)
Definition relative (p : string) : Prop := startswith "/" p = false.

(** An item that the listing walk descends into. *)
Definition is_dir (it : item) : Prop := item_type it = "dir".

(** The folders a listing walk has to visit weigh less and less. *)
Definition weights_decrease (fetch : string → option (list item)) (weight : string → nat)
    : Prop :=
  ∀ folder items, fetch folder = Some items →
    (sum_list_with weight (YandexDiskClient.dir_paths items) < weight folder)%nat.

(** The calls of a trace that the client accepted, the trace following the
    history [h]. *)
Fixpoint accepted_calls (cl : client) (h t : list event) : list call :=
  match t with
  | [] => []
  | Called c :: t' =>
      (if responds cl h c then [c] else []) ++ accepted_calls cl (h ++ [Called c]) t'
  | Logged l :: t' => accepted_calls cl (h ++ [Logged l]) t'
  end.

(** A remote snapshot observed after the trace [t] reflects the deletes of
    [t]: it shows no entry whose delete the client accepted. *)
Definition reflects_deletes (cl : client) (h t : list event) (later : cloud_state) : Prop :=
  map_Forall (λ _ it, Delete (item_path it) ∉ accepted_calls cl h t) later.


(** * Scenario data *)

(** A client that accepts every call, and one that refuses every call. *)
Definition reliable_client : client :=
  {| cloud_folder := "backup"; has_rename := true; responds := λ _ _, true |}.

Definition offline_client : client :=
  {| cloud_folder := "backup"; has_rename := true; responds := λ _ _, false |}.

Definition empty_fs : local_fs := {| fs_exists := λ _, false; fs_stat := λ _, None |}.

(** A clock reading for the one timestamp the scenarios use. *)
Definition iso_table (s : string) : option Z :=
  if decide (s = "2023-04-27T19:41:25") then Some 1682624485 else None.

Definition remote_file (name : string) (sz : Z) (modified : option pyval) : item :=
  {| item_path := "disk:/backup/" +:+ name; item_type := "file";
     item_size := Some sz; item_modified := modified |}.

Definition remote_dir (name : string) : item :=
  {| item_path := "disk:/backup/" +:+ name; item_type := "dir";
     item_size := None; item_modified := None |}.

Definition stamp : option pyval := Some (PyStr "2023-04-27T19:41:25+00:00").

(** Two local files not yet in the cloud; two remote files. *)
Definition two_new_files : local_state :=
  <["a.txt" := (5, 10)]> (<["b.txt" := (7, 3)]> ∅).

Definition two_remote_files : cloud_state :=
  <["a.txt" := remote_file "a.txt" 10 stamp]> (<["b.txt" := remote_file "b.txt" 3 stamp]> ∅).

(** A remote file that grows while its ['modified'] stays. *)
Definition cloud_before : cloud_state := {["a.txt" := remote_file "a.txt" 10 stamp]}.
Definition cloud_now : cloud_state := {["a.txt" := remote_file "a.txt" 20 stamp]}.

(** A synchronizer before any baseline. *)
Definition first_tick_state : FileSynchronizer :=
  {| cloud_client := reliable_client; _last_local_state := ∅; _last_cloud_state := ∅ |}.

(** [old.txt] becomes [new.txt] on disk, size and mtime kept. *)
Definition renamed_local_before : local_state := {["old.txt" := (5, 100)]}.
Definition renamed_local_now : local_state := {["new.txt" := (5, 100)]}.

Definition renamed_fs : local_fs :=
  {| fs_exists := λ p, bool_decide (p = "new.txt");
     fs_stat := λ p, if decide (p = "new.txt") then Some (5, 100) else None |}.

Definition renamed_listing : nat → exn + list item :=
  λ _, inr [remote_file "old.txt" 100 stamp].

Definition renamed_cloud : cloud_state :=
  collect_files "backup" [remote_file "old.txt" 100 stamp].

Definition offline_after_initial : FileSynchronizer :=
  {| cloud_client := offline_client;
     _last_local_state := renamed_local_before;
     _last_cloud_state := renamed_cloud |}.

(** [old.txt] is deleted and an unrelated [b.txt] of the same size appears. *)
Definition unrelated_local_now : local_state := {["b.txt" := (9, 100)]}.

Definition unrelated_fs : local_fs :=
  {| fs_exists := λ p, bool_decide (p = "b.txt");
     fs_stat := λ p, if decide (p = "b.txt") then Some (9, 100) else None |}.

(** One new file, one changed file, one unchanged file, one file gone. *)
Definition mixed_local : local_state :=
  <["a.txt" := (5, 10)]> (<["b.txt" := (7, 3)]> (<["c.txt" := (1, 1)]> ∅)).

Definition mixed_cloud : cloud_state :=
  <["b.txt" := remote_file "b.txt" 3 stamp]>
    (<["c.txt" := remote_file "c.txt" 1 stamp]>
       (<["gone.txt" := remote_file "gone.txt" 4 stamp]> ∅)).

Definition mixed_last : local_state :=
  <["b.txt" := (6, 3)]> (<["c.txt" := (1, 1)]> ∅).

(** An empty local folder in front of a remote that keeps showing one file. *)
Definition lonely_listing : nat → exn + list item :=
  λ _, inr [remote_file "a.txt" 10 stamp].

Definition after_first_tick : FileSynchronizer :=
  {| cloud_client := reliable_client;
     _last_local_state := ∅;
     _last_cloud_state := collect_files "backup" [remote_file "a.txt" 10 stamp] |}.

Definition settled : FileSynchronizer :=
  {| cloud_client := reliable_client;
     _last_local_state := mixed_last;
     _last_cloud_state := collect_files "backup" [remote_file "a.txt" 10 stamp] |}.

(** The same files with fewer and with more directories around them. *)
Definition listing_with_dirs : list item :=
  [remote_dir "docs"; remote_file "docs/a.txt" 10 stamp].

Definition listing_with_more_dirs : list item :=
  [remote_dir "docs"; remote_dir "empty"; remote_file "docs/a.txt" 10 stamp;
   remote_dir "docs/drafts"].

(** A listing that fails twice and then answers, and one that never answers. *)
Definition flaky_listing : nat → exn + list item :=
  λ attempt, if (attempt <? 2)%nat then inl ScanError else inr listing_with_dirs.

Definition dead_listing : nat → exn + list item := λ _, inl ScanError.

Definition undated_cloud : cloud_state := {["a.txt" := remote_file "a.txt" 10 None]}.

Definition garbled_cloud : cloud_state :=
  {["a.txt" := remote_file "a.txt" 10 (Some (PyStr "yesterday"))]}.

(** A folder [docs] that becomes [papers] on disk. *)
Definition folder_local_before : local_state := {["docs/a.txt" := (5, 10)]}.
Definition folder_local_now : local_state := {["papers/a.txt" := (5, 10)]}.
Definition folder_cloud : cloud_state := {["docs/a.txt" := remote_file "docs/a.txt" 10 stamp]}.

(** One detected file rename. *)
Definition renaming_pairs : list (string * string) := [("old.txt", "new.txt")].

(** What [rglob] meets: a directory, a file written the Windows way, and a
    file whose [stat] fails. *)
Definition scanned_walk : list fs_entry :=
  [ {| entry_path := "docs"; entry_is_file := Some false; entry_stat := Some (1, 0) |};
    {| entry_path := "docs\a.txt"; entry_is_file := Some true; entry_stat := Some (5, 3) |};
    {| entry_path := "locked.txt"; entry_is_file := Some true; entry_stat := None |} ].

(** One local file in a folder, on disk and in the snapshot. *)
Definition nested_local : local_state := {["docs/a.txt" := (5, 3)]}.

Definition nested_disk : disk :=
  {| disk_exists := λ p, Some (bool_decide (p = "docs/a.txt"));
     disk_stat := λ p, if decide (p = "docs/a.txt") then Some (5, 3) else None |}.

(** A client that accepts every call and shows an old remote file until the
    local file has been uploaded; one that refuses the first two calls. *)
Definition accepting_ops : ops_client :=
  {| ops_cloud_folder := "backup";
     ops_accepts := λ _ _, true;
     ops_listing := λ h,
       if bool_decide (LoadFile "docs/a.txt" ∈ h)
       then [remote_dir "docs"; remote_file "docs/a.txt" 3 stamp]
       else [remote_file "old.txt" 7 stamp] |}.

Definition slow_ops : ops_client :=
  {| ops_cloud_folder := "backup";
     ops_accepts := λ h _, bool_decide (2 ≤ length h)%nat;
     ops_listing := λ _, listing_with_dirs |}.

(** A remote root with one file and one folder holding one file. *)
Definition small_tree (folder : string) : option (list item) :=
  if decide (folder = "/backup")
  then Some [remote_dir "docs"; remote_file "b.txt" 3 stamp]
  else if decide (folder = "disk:/backup/docs")
       then Some [remote_file "docs/a.txt" 10 stamp]
       else None.

Definition small_tree_weight (folder : string) : nat :=
  if decide (folder = "/backup") then 2%nat
  else if decide (folder = "disk:/backup/docs") then 1%nat else 0%nat.


(** The initial synchronisation of that local file, and what it leaves. *)
Definition synced_state : FileSynchronizer :=
  commit first_tick_state nested_local
    (collect_files "backup" [remote_dir "docs"; remote_file "docs/a.txt" 3 stamp]).

Definition initial_sync_calls : list ops_call :=
  [GetRecursiveInfo; DeleteFile "disk:/backup/old.txt"; CreateFolder "docs";
   LoadFile "docs/a.txt"; GetRecursiveInfo; GetRecursiveInfo].

(** A local file changed since the baseline, in front of a remote entry
    without ['modified'], with one more remote file that is gone locally. *)
Definition stale_local : local_state := {["a.txt" := (9, 10)]}.
Definition stale_last : local_state := {["a.txt" := (5, 10)]}.
Definition stale_cloud : cloud_state :=
  <["a.txt" := remote_file "a.txt" 10 None]>
    (<["gone.txt" := remote_file "gone.txt" 4 stamp]> ∅).



(** * Properties *)

(** ** The change signals *)

Lemma dom_differs `{Countable K} (X Y : gset K) :
  X ≠ Y ↔ X ∖ Y ≠ ∅ ∨ Y ∖ X ≠ ∅.
Proof.
  split.
  - intros Hne.
    destruct (decide (X ∖ Y = ∅)) as [HXY|]; [|by left].
    destruct (decide (Y ∖ X = ∅)) as [HYX|]; [|by right].
    exfalso. apply Hne. apply set_eq. intros x.
    split; intros Hx.
    + destruct (decide (x ∈ Y)) as [|Hn]; [done|].
      exfalso. eapply (not_elem_of_empty (C:=gset K) x).
      rewrite <- HXY. by apply elem_of_difference.
    + destruct (decide (x ∈ X)) as [|Hn]; [done|].
      exfalso. eapply (not_elem_of_empty (C:=gset K) x).
      rewrite <- HYX. by apply elem_of_difference.
  - intros [Hd|Hd] ->; apply Hd; apply difference_diag_L.
Qed.

Lemma check_local_changes_spec (current_local last_local : local_state) :
  check_local_changes current_local last_local = true ↔
    last_local = ∅
    ∨ dom current_local ≠ dom last_local
    ∨ ∃ p mtime sz last_mtime last_sz,
        current_local !! p = Some (mtime, sz)
        ∧ last_local !! p = Some (last_mtime, last_sz)
        ∧ (sz ≠ last_sz ∨ last_mtime < mtime).
Proof.
  unfold check_local_changes.
  case_bool_decide as Hl; [tauto|].
  case_bool_decide as Ha; [rewrite dom_differs; tauto|].
  case_bool_decide as Hr; [rewrite dom_differs; tauto|].
  assert (Hdom : ¬ dom current_local ≠ dom last_local).
  { rewrite dom_differs. tauto. }
  rewrite existsb_exists. split.
  - intros [[p [mtime sz]] [Hin Hb]]. right; right.
    apply list_elem_of_In, elem_of_map_to_list in Hin.
    destruct (last_local !! p) as [[last_mtime last_sz]|] eqn:Hp; [|done].
    exists p, mtime, sz, last_mtime, last_sz. split_and!; [done..|].
    apply orb_true_iff in Hb as [Hb|Hb].
    + right. lia.
    + left. apply negb_true_iff in Hb. lia.
  - intros [?|[?|(p & mtime & sz & last_mtime & last_sz & Hc & Hp & Hd)]]; [done..|].
    exists (p, (mtime, sz)). split.
    + by apply list_elem_of_In, elem_of_map_to_list.
    + rewrite Hp. apply orb_true_iff. destruct Hd as [Hd|Hd].
      * right. apply negb_true_iff. lia.
      * left. lia.
Qed.

Lemma check_cloud_changes_spec (current_cloud last_cloud : cloud_state) :
  check_cloud_changes current_cloud last_cloud = true ↔
    last_cloud = ∅
    ∨ dom current_cloud ≠ dom last_cloud
    ∨ ∃ p it last_it,
        current_cloud !! p = Some it
        ∧ last_cloud !! p = Some last_it
        ∧ get_modified it ≠ get_modified last_it.
Proof.
  unfold check_cloud_changes.
  case_bool_decide as Hl; [tauto|].
  destruct (bool_decide (_ ∖ _ ≠ ∅) || _) eqn:Hd.
  { apply orb_true_iff in Hd. rewrite !bool_decide_eq_true in Hd.
    rewrite dom_differs. tauto. }
  apply orb_false_iff in Hd. rewrite !bool_decide_eq_false in Hd.
  assert (Hdom : ¬ dom current_cloud ≠ dom last_cloud).
  { rewrite dom_differs. tauto. }
  rewrite existsb_exists. split.
  - intros [[p it] [Hin Hb]]. right; right.
    apply list_elem_of_In, elem_of_map_to_list in Hin.
    destruct (last_cloud !! p) as [last_it|] eqn:Hp; [|done].
    exists p, it, last_it. split_and!; [done..|].
    apply negb_true_iff, bool_decide_eq_false in Hb. done.
  - intros [?|[?|(p & it & last_it & Hc & Hp & Hne)]]; [done..|].
    exists (p, it). split.
    + by apply list_elem_of_In, elem_of_map_to_list.
    + rewrite Hp. by apply negb_true_iff, bool_decide_eq_false.
Qed.

(** ** File rename detection *)

Section RenamedFiles.

Variable iter : gset string → list string.
Variable fs : local_fs.

(** Walking a set meets each of its elements once. *)
Hypothesis iter_elements : ∀ X : gset string, iter X ≡ₚ elements X.

Lemma elem_of_iter (X : gset string) (x : string) : x ∈ iter X ↔ x ∈ X.
Proof. by rewrite iter_elements, elem_of_elements. Qed.

Lemma NoDup_iter (X : gset string) : NoDup (iter X).
Proof. rewrite iter_elements. apply NoDup_elements. Qed.


Lemma is_rename_of_signature (last_local : local_state) (old_name new_name : string) :
  old_name ∈ dom last_local →
  is_rename_of fs last_local old_name new_name = true ↔
    fs_exists fs new_name = true
    ∧ ∃ mtime sz, last_local !! old_name = Some (mtime, sz)
                  ∧ fs_stat fs new_name = Some (mtime, sz).
Proof.
  intros [[mtime sz] Hold]%elem_of_dom.
  unfold is_rename_of, _get_file_identifier, _calculate_file_identifier.
  rewrite andb_true_iff, bool_decide_eq_true, Hold.
  split.
  - intros [Hex Hid]. split; [done|]. exists mtime, sz. split; [done|].
    destruct (fs_stat fs new_name) as [[m s]|]; [|done]. by inversion Hid.
  - intros [Hex (m & s & Hl & Hs)]. split; [done|].
    rewrite Hs. by inversion Hl.
Qed.

Section Loop.

Variable current_cloud : cloud_state.
Variable last_local : local_state.

Abbreviation pairs_from := (match_files iter fs current_cloud last_local).
Abbreviation matches := (is_rename_of fs last_local).

Lemma match_files_sound olds (A : gset string) old_name new_name :
  (old_name, new_name) ∈ pairs_from olds A →
  old_name ∈ olds ∧ new_name ∈ A ∧ old_name ∈ dom current_cloud
  ∧ matches old_name new_name = true.
Proof.
  revert A. induction olds as [|o rest IH]; intros A; simpl.
  { by intros ?%elem_of_nil. }
  case_bool_decide as Hc.
  - destruct (List.find _ _) as [n|] eqn:Hfind.
    + intros [Heq|Hin]%elem_of_cons.
      * inversion Heq; subst. apply find_some in Hfind as [Hin Hm].
        apply list_elem_of_In, elem_of_iter in Hin.
        split_and!; [left|done..].
      * destruct (IH _ Hin) as (? & [HA _]%elem_of_difference & ? & ?).
        split_and!; [by right|done..].
    + intros Hin. destruct (IH _ Hin) as (? & ? & ? & ?).
      split_and!; [by right|done..].
  - intros Hin. destruct (IH _ Hin) as (? & ? & ? & ?).
    split_and!; [by right|done..].
Qed.

Lemma match_files_NoDup olds (A : gset string) :
  NoDup olds → NoDup (pairs_from olds A).*1 ∧ NoDup (pairs_from olds A).*2.
Proof.
  revert A. induction olds as [|o rest IH]; intros A Hnd; simpl.
  { split; constructor. }
  apply NoDup_cons in Hnd as [Ho Hnd].
  case_bool_decide as Hc; [|by apply IH].
  destruct (List.find _ _) as [n|] eqn:Hfind; [|by apply IH].
  destruct (IH (A ∖ {[n]}) Hnd) as [IH1 IH2].
  simpl. split; apply NoDup_cons; split; try done.
  - intros [[o' n'] [Heq Hin]]%list_elem_of_fmap. simpl in Heq; subst o'.
    apply match_files_sound in Hin as (? & _). done.
  - intros [[o' n'] [Heq Hin]]%list_elem_of_fmap. simpl in Heq; subst n'.
    apply match_files_sound in Hin as (_ & [_ HA]%elem_of_difference & _).
    by apply HA, elem_of_singleton.
Qed.

Lemma match_files_maximal olds (A : gset string) old_name new_name :
  old_name ∈ olds → new_name ∈ A → old_name ∈ dom current_cloud →
  matches old_name new_name = true →
  old_name ∈ (pairs_from olds A).*1 ∨ new_name ∈ (pairs_from olds A).*2.
Proof.
  intros Hold HA Hc Hm. revert A HA Hold.
  induction olds as [|o rest IH]; intros A HA Hold; simpl.
  { by apply elem_of_nil in Hold. }
  apply elem_of_cons in Hold as [->|Hold].
  - rewrite bool_decide_eq_true_2 by done.
    destruct (List.find _ _) as [n|] eqn:Hfind.
    + left. simpl. by left.
    + exfalso. eapply find_none in Hfind; [|apply list_elem_of_In, elem_of_iter, HA].
      congruence.
  - case_bool_decide; [|by apply IH].
    destruct (List.find _ _) as [n|] eqn:Hfind; [|by apply IH].
    simpl. destruct (decide (n = new_name)) as [->|Hne].
    + right. by left.
    + destruct (IH (A ∖ {[n]})) as [?|?]; [|done|left|right]; [|by right..].
      apply elem_of_difference. split; [done|].
      by intros ?%elem_of_singleton.
Qed.

Lemma match_files_first_found olds (A : gset string) l1 l2 old_name new_name :
  pairs_from olds A = l1 ++ (old_name, new_name) :: l2 →
  List.find (matches old_name) (iter (A ∖ list_to_set l1.*2)) = Some new_name.
Proof.
  revert A l1. induction olds as [|o rest IH]; intros A l1; simpl.
  { by destruct l1. }
  case_bool_decide as Hc; [|by apply IH].
  destruct (List.find _ _) as [n|] eqn:Hfind; [|by apply IH].
  destruct l1 as [|[o' n'] l1]; simpl.
  - intros Heq. inversion Heq; subst.
    by rewrite difference_empty_L.
  - intros Heq. inversion Heq; subst.
    rewrite <- difference_difference_l_L. by apply IH.
Qed.

End Loop.

(** C4. Every pair returned by [_find_renamed_files] joins a path that
    disappeared locally and is still a remote file with a path that appeared
    locally, exists on disk, and whose fresh [(size, mtime)] equals the
    baseline signature of the first; no path is used twice; the matching is
    greedy: a disappeared remote file with an equal-signature candidate is
    left unpaired only when that candidate went to another path, and each
    partner is the first candidate, in the walk of the appeared set less
    the partners taken before, whose signature matches.  A path of size 100
    is never paired with a path of size 100 and another modification time. *)
Theorem find_renamed_files_greedy_signature_match
    (current_local : local_state) (current_cloud : cloud_state) (last_local : local_state) :
  let renamed_pairs := _find_renamed_files iter fs current_local current_cloud last_local in
  (∀ old_name new_name, (old_name, new_name) ∈ renamed_pairs →
     old_name ∈ dom last_local ∧ (old_name ∉ dom current_local)
     ∧ new_name ∈ dom current_local ∧ (new_name ∉ dom last_local)
     ∧ old_name ∈ dom current_cloud
     ∧ fs_exists fs new_name = true
     ∧ ∃ mtime sz, last_local !! old_name = Some (mtime, sz)
                   ∧ fs_stat fs new_name = Some (mtime, sz))
  ∧ NoDup renamed_pairs.*1 ∧ NoDup renamed_pairs.*2
  ∧ (∀ old_name new_name mtime sz,
       old_name ∉ dom current_local → new_name ∈ dom current_local →
       new_name ∉ dom last_local → old_name ∈ dom current_cloud →
       last_local !! old_name = Some (mtime, sz) →
       fs_exists fs new_name = true → fs_stat fs new_name = Some (mtime, sz) →
       old_name ∈ renamed_pairs.*1 ∨ new_name ∈ renamed_pairs.*2)
  ∧ (∀ l1 l2 old_name new_name,
       renamed_pairs = l1 ++ (old_name, new_name) :: l2 →
       List.find (is_rename_of fs last_local old_name)
                 (iter ((dom current_local ∖ dom last_local) ∖ list_to_set l1.*2))
       = Some new_name)
  ∧ (∀ a b mtime_a mtime_b,
       last_local !! a = Some (mtime_a, 100) → fs_stat fs b = Some (mtime_b, 100) →
       mtime_a ≠ mtime_b → (a, b) ∉ renamed_pairs).
Proof.
  intros renamed_pairs. unfold _find_renamed_files in renamed_pairs.
  assert (Hsound : ∀ old_name new_name, (old_name, new_name) ∈ renamed_pairs →
     old_name ∈ dom last_local ∧ (old_name ∉ dom current_local)
     ∧ new_name ∈ dom current_local ∧ (new_name ∉ dom last_local)
     ∧ old_name ∈ dom current_cloud
     ∧ fs_exists fs new_name = true
     ∧ ∃ mtime sz, last_local !! old_name = Some (mtime, sz)
                   ∧ fs_stat fs new_name = Some (mtime, sz)).
  { intros o n Hin. apply match_files_sound in Hin as (Ho & Hn & Hc & Hm).
    apply elem_of_iter, elem_of_difference in Ho as [Ho1 Ho2].
    apply elem_of_difference in Hn as [Hn1 Hn2].
    apply is_rename_of_signature in Hm as [Hex Hsig]; [|done].
    by split_and!. }
  split_and!.
  - exact Hsound.
  - apply match_files_NoDup, NoDup_iter.
  - apply match_files_NoDup, NoDup_iter.
  - intros o n mtime sz Ho Hn1 Hn2 Hc Hl Hex Hst.
    assert (o ∈ dom last_local) by (apply elem_of_dom; eauto).
    apply match_files_maximal; [apply elem_of_iter| | |];
      [by apply elem_of_difference..|done|].
    apply is_rename_of_signature; [done|]. eauto.
  - intros l1 l2 o n Heq. by eapply match_files_first_found.
  - intros a b ma mb Ha Hb Hne Hin.
    apply Hsound in Hin as (_ & _ & _ & _ & _ & _ & m & s & Hl & Hs).
    congruence.
Qed.

End RenamedFiles.

(** ** Reasoning about computations *)

Lemma bind_run {A B} (m : M A) (f : A → M B) (h : list event) :
  (m ≫= f) h =
    match m h with
    | (t1, inl e) => (t1, inl e)
    | (t1, inr a) => match f a (h ++ t1) with (t2, r) => (t1 ++ t2, r) end
    end.
Proof. reflexivity. Qed.


Lemma for_each_cons {A} (x : A) (l : list A) (body : A → M unit) (h : list event) :
  for_each (x :: l) body h =
    match body x h with
    | (t1, inl e) => (t1, inl e)
    | (t1, inr _) => match for_each l body (h ++ t1) with (t2, r) => (t1 ++ t2, r) end
    end.
Proof. reflexivity. Qed.

Lemma calls_of_app (t1 t2 : list event) : calls_of (t1 ++ t2) = calls_of t1 ++ calls_of t2.
Proof. apply omap_app. Qed.

(** ** Step 3: which paths are uploaded *)

Section Uploads.

Variable iter : gset string → list string.
Variable strptime_timestamp : string → option Z.
Hypothesis iter_elements : ∀ X : gset string, iter X ≡ₚ elements X.

Variable current_local : local_state.
Variable current_cloud : cloud_state.
Variable last_local : local_state.
Variable cl : client.

Abbreviation upload_one :=
  (upload_item strptime_timestamp current_local current_cloud last_local cl).
Abbreviation needs_upload_here :=
  (needs_upload strptime_timestamp current_local current_cloud last_local).

Lemma changed_since_true p mtime sz :
  changed_since last_local p mtime sz = true ↔
    ∃ last_mtime last_sz,
      last_local !! p = Some (last_mtime, last_sz) ∧ (last_mtime < mtime ∨ sz ≠ last_sz).
Proof.
  unfold changed_since.
  destruct (last_local !! p) as [[lm ls]|]; [|split; [done|by intros (? & ? & ? & _)]].
  rewrite orb_true_iff, negb_true_iff. split.
  - intros [?|?]; exists lm, ls; split; [done|left; lia|done|right; lia].
  - intros (? & ? & [= <- <-] & [?|?]); [left|right]; lia.
Qed.

(** One path: an upload of that path when the rule says so, silence when
    it does not, and a [KeyError] when the remote entry has no ['modified']. *)
Lemma upload_item_cases p h :
  is_Some (current_local !! p) →
  (needs_upload_here p
   ∧ upload_one p h
     = ([Called (Load p)],
        if responds cl h (Load p) then inr () else inl (CloudStorageError (Load p))))
  ∨ (¬ needs_upload_here p ∧ upload_one p h = ([], inr ()))
  ∨ upload_one p h = ([], inl (KeyError "modified")).
Proof.
  intros [[mtime sz] Hl]. unfold upload_item, needs_upload. rewrite Hl.
  destruct (current_cloud !! p) as [it|] eqn:Hc; [|left; split; [by left|done]].
  destruct (item_modified it) as [timestr|] eqn:Hm; [|by right; right].
  destruct (changed_since last_local p mtime sz) eqn:Hch.
  { left. split; [|done]. right. exists it, mtime, sz. split_and!; [done..|].
    left. by apply changed_since_true. }
  destruct (mtime >? _parse_cloud_time strptime_timestamp timestr) eqn:Hgt.
  { left. split; [|done]. right. exists it, mtime, sz. split_and!; [done..|].
    right. exists timestr. split; [done|lia]. }
  right; left. split; [|done].
  intros [?|(it' & m' & s' & [= <-] & [= <- <-] & [Ha|(ts & Hts & Hlt)])]; [done| |].
  - apply changed_since_true in Ha. congruence.
  - rewrite Hm in Hts. injection Hts as <-. lia.
Qed.

Lemma upload_loop todo h t r :
  (∀ p, p ∈ todo → is_Some (current_local !! p)) →
  for_each todo upload_one h = (t, r) →
  (∀ c, c ∈ calls_of t → ∃ p, c = Load p ∧ p ∈ todo ∧ needs_upload_here p)
  ∧ (r = inr () → ∀ p, p ∈ todo → needs_upload_here p → Load p ∈ calls_of t).
Proof.
  revert h t r. induction todo as [|q rest IH]; intros h t r Hdom.
  { intros [= <- <-]. split; [by intros c ?%elem_of_nil|by intros _ p ?%elem_of_nil]. }
  rewrite for_each_cons.
  assert (Hrest : ∀ p, p ∈ rest → is_Some (current_local !! p)).
  { intros p Hp. apply Hdom. by right. }
  destruct (upload_item_cases q h) as [[Hq ->]|[[Hq ->]| ->]]; [apply Hdom; by left|..].
  - destruct (responds cl h (Load q)).
    + destruct (for_each rest upload_one (h ++ [Called (Load q)])) as [t2 r2] eqn:Hrun.
      intros [= <- <-]. destruct (IH _ _ _ Hrest Hrun) as [IH1 IH2].
      split.
      * intros c [->|Hc]%elem_of_cons.
        { exists q. split_and!; [done|by left|done]. }
        destruct (IH1 c Hc) as (p & -> & ? & ?). exists p. split_and!; [done|by right|done].
      * intros -> p [->|Hp]%elem_of_cons Hn; [by left|].
        right. by apply IH2.
    + intros [= <- <-]. split; [|done].
      intros c ->%list_elem_of_singleton. exists q. split_and!; [done|by left|done].
  - destruct (for_each rest upload_one (h ++ [])) as [t2 r2] eqn:Hrun.
    intros [= <- <-]. destruct (IH _ _ _ Hrest Hrun) as [IH1 IH2].
    split.
    + intros c Hc. destruct (IH1 c Hc) as (p & -> & ? & ?).
      exists p. split_and!; [done|by right|done].
    + intros -> p [->|Hp]%elem_of_cons Hn; [done|]. by apply IH2.
  - intros [= <- <-]. split; [by intros c ?%elem_of_nil|done].
Qed.

(** With a client that accepts every call and remote entries that all carry
    ['modified'], the loop returns. *)
Lemma upload_loop_returns todo h :
  (∀ h' c, responds cl h' c = true) →
  (∀ p it, current_cloud !! p = Some it → is_Some (item_modified it)) →
  (∀ p, p ∈ todo → is_Some (current_local !! p)) →
  ∃ t, for_each todo upload_one h = (t, inr ()).
Proof.
  intros Hok Hmod. revert h. induction todo as [|q rest IH]; intros h Hdom; [by exists []|].
  rewrite for_each_cons.
  assert (Hq : ∃ t, upload_one q h = (t, inr ())).
  { destruct (Hdom q) as [[mtime sz] Hl]; [by left|].
    assert (Hload : invoke cl (Load q) h = ([Called (Load q)], inr ())).
    { unfold invoke. by rewrite Hok. }
    unfold upload_item. rewrite Hl.
    destruct (current_cloud !! q) as [it|] eqn:Hc; [|eauto].
    destruct (Hmod _ _ Hc) as [timestr ->].
    destruct (changed_since _ _ _ _); [eauto|].
    destruct (_ >? _); eauto. }
  destruct Hq as [t1 ->].
  destruct (IH (h ++ t1)) as [t2 ->]; [intros p Hp; apply Hdom; by right|]. eauto.
Qed.

(** A remote entry without ['modified'], for a path of the loop, keeps the
    loop from returning: that path raises [KeyError] unless the loop has
    stopped before it. *)
Lemma upload_loop_undated todo h t r :
  for_each todo upload_one h = (t, r) →
  ∀ p it, p ∈ todo → is_Some (current_local !! p) →
    current_cloud !! p = Some it → item_modified it = None → r ≠ inr ().
Proof.
  revert h t r. induction todo as [|q rest IH]; intros h t r Hrun p it Hp Hl Hit Hmod.
  { by apply elem_of_nil in Hp. }
  rewrite for_each_cons in Hrun.
  destruct (upload_one q h) as [t1 [e|[]]] eqn:Hq.
  { by injection Hrun as _ <-. }
  destruct (for_each rest upload_one (h ++ t1)) as [t2 r2] eqn:Hrest.
  injection Hrun as _ <-.
  apply elem_of_cons in Hp as [->|Hp]; [|by apply (IH _ _ _ Hrest p it)].
  exfalso. unfold upload_item in Hq. rewrite Hit in Hq.
  destruct Hl as [[mtime sz] Hl]. rewrite Hl, Hmod in Hq. done.
Qed.

(** C5 (as amended). In step 3 an upload is issued only for a local path outside the
    processed set that is absent remotely, or present remotely and either
    changed against the previous local state (newer mtime or other size) or
    strictly newer than the parsed remote time; when the step returns,
    every such path has been uploaded and no other; and the step does not
    return when the remote entry of such a local path has no ['modified']. *)
Theorem upload_changed_rule (processed_files : gset string) h t r :
  upload_changed iter strptime_timestamp current_local current_cloud last_local cl
                 processed_files h = (t, r) →
  (∀ c, c ∈ calls_of t →
     ∃ p, c = Load p ∧ p ∈ dom current_local ∧ (p ∉ processed_files) ∧ needs_upload_here p)
  ∧ (r = inr () →
     ∀ p, p ∈ dom current_local → p ∉ processed_files →
          (Load p ∈ calls_of t ↔ needs_upload_here p))
  ∧ (∀ p it, p ∈ dom current_local → p ∉ processed_files →
       current_cloud !! p = Some it → item_modified it = None → r ≠ inr ()).
Proof.
  unfold upload_changed. intros Hrun.
  assert (Hin : ∀ p, p ∈ iter (dom current_local ∖ processed_files)
                     ↔ p ∈ dom current_local ∧ p ∉ processed_files).
  { intros p. by rewrite iter_elements, elem_of_elements, elem_of_difference. }
  pose proof (upload_loop_undated _ _ _ _ Hrun) as Hstops.
  apply upload_loop in Hrun as [H1 H2].
  2:{ intros p [Hp _]%Hin. by apply elem_of_dom. }
  split_and!.
  - intros c Hc. destruct (H1 c Hc) as (p & -> & [? ?]%Hin & ?). by exists p.
  - intros -> p Hp Hnp. split.
    + intros Hc. destruct (H1 _ Hc) as (p' & [= <-] & _ & ?). done.
    + intros Hn. apply H2; [done| |done]. by apply Hin.
  - intros p it Hp Hnp Hit Hmod. apply (Hstops p it); [by apply Hin| |done..].
    by apply elem_of_dom.
Qed.

End Uploads.

(** ** Step 4: which paths are deleted *)

Section Deletions.

Variable iter : gset string → list string.
Hypothesis iter_elements : ∀ X : gset string, iter X ≡ₚ elements X.

Variable current_local : local_state.
Variable current_cloud : cloud_state.
Variable cl : client.


Lemma delete_loop_returns todo h :
  (∀ h' c, responds cl h' c = true) →
  (∀ p, p ∈ todo → is_Some (current_cloud !! p)) →
  ∃ t, for_each todo (delete_item current_cloud cl) h = (t, inr ()).
Proof.
  intros Hok. revert h. induction todo as [|q rest IH]; intros h Hdom; [by exists []|].
  rewrite for_each_cons. unfold delete_item at 1, invoke.
  destruct (Hdom q) as [it ->]; [by left|]. cbv beta. rewrite Hok.
  destruct (IH (h ++ [Called (Delete (item_path it))])) as [t2 ->];
    [intros p Hp; apply Hdom; by right|]. eauto.
Qed.



End Deletions.

(** ** Step 1: the order of folder renames *)

Section SortByKey.

Context {A : Type} (key : A → Z).

Lemma insert_by_key_Permutation x l : insert_by_key key x l ≡ₚ x :: l.
Proof.
  induction l as [|y l IH]; simpl; [done|].
  destruct (key x <=? key y); [done|].
  rewrite IH. apply Permutation_swap.
Qed.

Lemma sort_by_key_Permutation l : sort_by_key key l ≡ₚ l.
Proof.
  induction l as [|x l IH]; simpl; [done|].
  by rewrite insert_by_key_Permutation, IH.
Qed.

Lemma insert_by_key_sorted x l :
  StronglySorted (key_le key) l → StronglySorted (key_le key) (insert_by_key key x l).
Proof.
  induction 1 as [|y l Hl IH Hy]; simpl.
  { repeat constructor. }
  destruct (key x <=? key y) eqn:Hxy.
  - constructor; [by constructor|].
    constructor; [unfold key_le; lia|].
    eapply Forall_impl; [exact Hy|]. unfold key_le. intros; simpl in *; lia.
  - constructor; [done|].
    rewrite insert_by_key_Permutation. constructor; [unfold key_le; lia|done].
Qed.

Lemma sort_by_key_sorted l : StronglySorted (key_le key) (sort_by_key key l).
Proof.
  induction l as [|x l IH]; simpl; [constructor|].
  by apply insert_by_key_sorted.
Qed.

Lemma StronglySorted_lookup (R : A → A → Prop) l (i j : nat) a b :
  StronglySorted R l → (i < j)%nat → l !! i = Some a → l !! j = Some b → R a b.
Proof.
  intros Hs. revert i j. induction Hs as [|x l Hl IH Hx]; intros i j Hij Hi Hj.
  { done. }
  destruct j as [|j]; [lia|]. simpl in Hj.
  destruct i as [|i]; simpl in Hi.
  - injection Hi as <-. rewrite Forall_forall in Hx.
    apply Hx. by eapply list_elem_of_lookup_2.
  - eapply IH; [|done..]. lia.
Qed.

End SortByKey.

Lemma count_char_app c (s1 s2 : string) :
  count_char c (s1 +:+ s2) = (count_char c s1 + count_char c s2)%nat.
Proof. induction s1 as [|a s1 IH]; simpl; [done|]. case_decide; lia. Qed.

Lemma depth_child (parent rest : string) : depth parent < depth (parent +:+ "/" +:+ rest).
Proof. unfold depth. rewrite !count_char_app. simpl. lia. Qed.

Section FolderRenames.

Variable cl : client.

Lemma rename_folder_loop (renames : list (string * string)) h :
  ∃ t,
    for_each renames
      (λ '(old_folder, new_folder),
         try_except (_process_folder_rename old_folder new_folder cl)
                    (λ e, log (FolderRenameError old_folder new_folder))) h
    = (t, inr ())
    ∧ calls_of t = if has_rename cl then rename_call cl <$> renames else [].
Proof.
  set (body := λ '(old_folder, new_folder), try_except _ _).
  assert (Hbody : ∀ o n h', ∃ t,
            body (o, n) h' = (t, inr ())
            ∧ calls_of t = if has_rename cl then [rename_call cl (o, n)] else []).
  { intros o n h'.
    unfold body, _process_folder_rename, try_except, rename_call, invoke, raise.
    destruct (has_rename cl); simpl; [destruct (responds cl h' _)|]; simpl; eauto. }
  revert h. induction renames as [|[o n] rest IH]; intros h.
  { exists []. by destruct (has_rename cl). }
  rewrite for_each_cons.
  destruct (Hbody o n h) as (t1 & -> & Ht1).
  destruct (IH (h ++ t1)) as (t2 & -> & Ht2).
  exists (t1 ++ t2). split; [done|].
  rewrite calls_of_app, Ht1, Ht2. by destruct (has_rename cl).
Qed.

(** C6. Step 1 never raises; on a client that can rename it issues one
    [rename] per detected pair, in an order in which the depth of the old
    folder never increases, so the rename of a folder below another renamed
    folder comes before the rename of that folder. *)
Theorem rename_folders_deepest_first (folder_renames : list (string * string)) h :
  let issued := sort_by_key (λ x, - depth x.1) folder_renames in
  (∃ t, rename_folders folder_renames cl h = (t, inr ())
        ∧ calls_of t = if has_rename cl then rename_call cl <$> issued else [])
  ∧ issued ≡ₚ folder_renames
  ∧ (∀ (i j : nat) a b, (i < j)%nat → issued !! i = Some a → issued !! j = Some b →
       depth b.1 ≤ depth a.1)
  ∧ (∀ parent rest new_parent new_child,
       (parent, new_parent) ∈ folder_renames →
       (parent +:+ "/" +:+ rest, new_child) ∈ folder_renames →
       ∃ i j : nat, (i < j)%nat
         ∧ issued !! i = Some (parent +:+ "/" +:+ rest, new_child)
         ∧ issued !! j = Some (parent, new_parent)).
Proof.
  intros issued.
  assert (Hperm : issued ≡ₚ folder_renames) by apply sort_by_key_Permutation.
  assert (Hsorted : ∀ (i j : nat) a b, (i < j)%nat →
            issued !! i = Some a → issued !! j = Some b → depth b.1 ≤ depth a.1).
  { intros i j a b Hij Hi Hj.
    pose proof (StronglySorted_lookup _ _ _ _ _ _
                  (sort_by_key_sorted (λ x, - depth x.1) folder_renames) Hij Hi Hj) as Hle.
    unfold key_le in Hle. lia. }
  split_and!; [apply rename_folder_loop|done|done|].
  intros parent rest new_parent new_child Hp Hc.
  rewrite <- Hperm in Hp, Hc.
  apply list_elem_of_lookup in Hp as [j Hj], Hc as [i Hi].
  exists i, j. split_and!; [|done..].
  pose proof (depth_child parent rest) as Hlt.
  destruct (decide (i < j)%nat) as [|Hge]; [done|].
  destruct (decide (i = j)) as [->|Hne].
  { rewrite Hi in Hj. injection Hj as Heq _. rewrite Heq in Hlt. lia. }
  assert (Hji : (j < i)%nat) by lia.
  specialize (Hsorted _ _ _ _ Hji Hj Hi). simpl in Hsorted. lia.
Qed.

End FolderRenames.

(** ** The remote snapshot holds files only *)

Section RemoteSnapshot.

Variable cf : string.

Abbreviation keep :=
  (λ (cloud_files : cloud_state) (it : item),
     if bool_decide (item_type it = "file")
     then <[cloud_key cf (item_path it) := it]> cloud_files
     else cloud_files).

Lemma collect_lookup (items : list item) (acc : cloud_state) k it :
  foldl keep acc items !! k = Some it →
  acc !! k = Some it
  ∨ (it ∈ items ∧ is_file it ∧ k = cloud_key cf (item_path it)).
Proof.
  revert acc. induction items as [|x items IH]; intros acc; simpl; [by left|].
  intros [Hacc|(Hin & Hf & Hk)]%IH.
  - case_bool_decide as Hx; [|by left].
    destruct (decide (cloud_key cf (item_path x) = k)) as [<-|Hne].
    + rewrite lookup_insert_eq in Hacc. injection Hacc as <-.
      right. split_and!; [by left|done..].
    + rewrite lookup_insert_ne in Hacc by done. by left.
  - right. split_and!; [by right|done..].
Qed.

Lemma collect_untouched (items : list item) (acc : cloud_state) k :
  (∀ it, it ∈ items → is_file it → cloud_key cf (item_path it) ≠ k) →
  foldl keep acc items !! k = acc !! k.
Proof.
  revert acc. induction items as [|x items IH]; intros acc Hk; simpl; [done|].
  rewrite IH by (intros it Hit; apply Hk; by right).
  case_bool_decide as Hx; [|done].
  apply lookup_insert_ne, Hk; [by left|done].
Qed.

Lemma collect_mono (items : list item) (acc : cloud_state) k :
  is_Some (acc !! k) → is_Some (foldl keep acc items !! k).
Proof.
  revert acc. induction items as [|x items IH]; intros acc Hk; simpl; [done|].
  apply IH. case_bool_decide; [|done].
  apply lookup_insert_is_Some. destruct (decide (cloud_key cf (item_path x) = k)); auto.
Qed.

Lemma collect_has_key (items : list item) (acc : cloud_state) it :
  it ∈ items → is_file it → is_Some (foldl keep acc items !! cloud_key cf (item_path it)).
Proof.
  intros Hin Hf. revert acc.
  induction items as [|x items IH]; intros acc; [by apply elem_of_nil in Hin|].
  simpl. apply elem_of_cons in Hin as [<-|Hin]; [|by apply IH].
  apply collect_mono. rewrite bool_decide_eq_true_2 by done.
  rewrite lookup_insert_eq. eauto.
Qed.

Lemma collect_app (l1 l2 : list item) (acc : cloud_state) :
  foldl keep acc (l1 ++ l2) = foldl keep (foldl keep acc l1) l2.
Proof. apply foldl_app. Qed.

Lemma collect_filter (items : list item) (acc : cloud_state) :
  foldl keep acc items = foldl keep acc (filter is_file items).
Proof.
  revert acc. induction items as [|x items IH]; intros acc; [done|].
  rewrite filter_cons. simpl. unfold is_file at 1.
  case_bool_decide as Hx.
  - rewrite decide_True by done. simpl. rewrite bool_decide_eq_true_2 by done. apply IH.
  - rewrite decide_False by done. apply IH.
Qed.

Lemma startswith_app (p s : string) : startswith p (p +:+ s) = true.
Proof.
  unfold startswith. induction p as [|a p IH]; simpl; [by destruct s|].
  destruct (Ascii.ascii_dec a a); [done|congruence].
Qed.

Lemma remove_from_skip (old p s : string) :
  remove_from (String.length p) old (p +:+ s) = remove_from 0 old s.
Proof. induction p as [|a p IH]; simpl; [by destruct s|done]. Qed.

Lemma remove_all_prefix (a : ascii) (old' s : string) :
  remove_all (String a old') (String a old' +:+ s) = remove_all (String a old') s.
Proof.
  unfold remove_all.
  change (String a old' +:+ s) with (String a (old' +:+ s)).
  cbn [remove_from].
  change (String a (old' +:+ s)) with (String a old' +:+ s).
  rewrite startswith_app. cbn [String.length]. rewrite Nat.sub_1_r. simpl Nat.pred.
  apply remove_from_skip.
Qed.

Lemma remove_all_absent (old s : string) :
  (∀ n, startswith old (str_drop n s) = false) → remove_all old s = s.
Proof.
  intros Habs. unfold remove_all. destruct old as [|a old']; [done|].
  induction s as [|c s IH]; [done|].
  pose proof (Habs 0%nat) as Hhere.
  change (str_drop 0 (String c s)) with (String c s) in Hhere.
  cbn [remove_from]. rewrite Hhere. f_equal.
  apply IH. intros n. apply (Habs (S n)).
Qed.

Lemma check_cloud_changes_same (m : cloud_state) :
  m ≠ ∅ → check_cloud_changes m m = false.
Proof.
  intros Hne. destruct (check_cloud_changes m m) eqn:Hc; [|done].
  apply check_cloud_changes_spec in Hc as [?|[?|(p & it & it' & H1 & H2 & Hd)]]; [done..|].
  congruence.
Qed.

(** C9. The remote snapshot built from a listing has an entry only for
    items of type ['file'], each under the key computed from its own path
    (the path less the [disk:/<cloud_folder>/] prefix); every file item has
    its key in the snapshot and is the entry there unless a later file item
    has the same key.  Two listings with the same file items give the same
    snapshot, so a change in directory entries alone leaves the cloud
    signal as it was, and false against the snapshot of the other listing
    once that holds a file. *)
Theorem collect_files_only_files (items : list item) :
  let snapshot := collect_files cf items in
  (∀ k it, snapshot !! k = Some it →
     it ∈ items ∧ item_type it = "file" ∧ k = cloud_key cf (item_path it))
  ∧ (∀ l1 it l2, items = l1 ++ it :: l2 → item_type it = "file" →
       (∀ it', it' ∈ l2 → item_type it' = "file" →
               cloud_key cf (item_path it') ≠ cloud_key cf (item_path it)) →
       snapshot !! cloud_key cf (item_path it) = Some it)
  ∧ (∀ it, it ∈ items → item_type it = "file" →
       cloud_key cf (item_path it) ∈ dom snapshot)
  ∧ (∀ rest, (∀ n, startswith ("disk:/" +:+ cf +:+ "/") (str_drop n rest) = false) →
       cloud_key cf (("disk:/" +:+ cf +:+ "/") +:+ rest) = rest)
  ∧ (∀ items' last_cloud,
       filter is_file items' = filter is_file items →
       collect_files cf items' = snapshot
       ∧ check_cloud_changes (collect_files cf items') last_cloud
         = check_cloud_changes snapshot last_cloud
       ∧ (snapshot ≠ ∅ → check_cloud_changes (collect_files cf items') snapshot = false)).
Proof.
  intros snapshot. unfold collect_files in snapshot.
  assert (Hlast : ∀ l1 it l2, items = l1 ++ it :: l2 → item_type it = "file" →
       (∀ it', it' ∈ l2 → item_type it' = "file" →
               cloud_key cf (item_path it') ≠ cloud_key cf (item_path it)) →
       snapshot !! cloud_key cf (item_path it) = Some it).
  { intros l1 it l2 -> Hf Hl2. unfold snapshot.
    rewrite collect_app. simpl. rewrite bool_decide_eq_true_2 by done.
    rewrite collect_untouched by done. apply lookup_insert_eq. }
  split_and!.
  - intros k it [Hacc|?]%collect_lookup; [|done]. by rewrite lookup_empty in Hacc.
  - exact Hlast.
  - intros it Hin Hf. apply elem_of_dom. by apply collect_has_key.
  - intros rest Habs. unfold cloud_key.
    change ("disk:/" +:+ cf +:+ "/") with (String "d" ("isk:/" +:+ cf +:+ "/")) in *.
    rewrite remove_all_prefix. by apply remove_all_absent.
  - intros items' last_cloud Hsame.
    assert (Heq : collect_files cf items' = snapshot).
    { unfold collect_files, snapshot.
      by rewrite (collect_filter items'), (collect_filter items), Hsame. }
    rewrite Heq. split_and!; [done..|]. apply check_cloud_changes_same.
Qed.

End RemoteSnapshot.

(** ** The tick *)

Lemma check_local_changes_same (m : local_state) :
  m ≠ ∅ → check_local_changes m m = false.
Proof.
  intros Hne. destruct (check_local_changes m m) eqn:Hc; [|done].
  apply check_local_changes_spec in Hc
    as [?|[?|(p & mt & sz & lmt & lsz & H1 & H2 & Hd)]]; [done..|].
  rewrite H1 in H2. injection H2 as <- <-. lia.
Qed.



Section TickProperties.

Variable iter : gset string → list string.
Variable strptime_timestamp : string → option Z.

Abbreviation reconcile := (process_local_changes iter).
Abbreviation tick := (sync iter strptime_timestamp).

(** What a tick does once the remote listing has been obtained. *)
Lemma sync_after_scan self current_local fs get_recursive_info current_cloud h :
  scan_cloud_files_with_retry (cloud_folder (cloud_client self)) get_recursive_info 3
    = inr (Some current_cloud) →
  tick self current_local fs get_recursive_info h =
    let local_changes := check_local_changes current_local (_last_local_state self) in
    let cloud_changes := check_cloud_changes current_cloud (_last_cloud_state self) in
    if negb local_changes && negb cloud_changes then ([Logged NoChangesDetected], inr self)
    else
      match (if local_changes
             then reconcile fs strptime_timestamp current_local current_cloud
                            (_last_local_state self) (cloud_client self)
             else mret ()) (h ++ [Logged ChangesDetected]) with
      | (t, inl e) => (Logged ChangesDetected :: t, inl (SyncError e))
      | (t, inr _) =>
          (Logged ChangesDetected :: t, inr (commit self current_local current_cloud))
      end.
Proof.
  intros Hscan. unfold sync, try_except. rewrite Hscan. cbv zeta.
  destruct (check_local_changes current_local (_last_local_state self));
    destruct (check_cloud_changes current_cloud (_last_cloud_state self));
    cbn [negb andb]; rewrite ?bind_run; unfold log; rewrite ?bind_run; try done.
  all: destruct (reconcile _ _ _ _ _ _ _) as [t [e|[]]]; simpl; by rewrite ?app_nil_r.
Qed.

(** C2 (as amended). The local signal is true exactly when there is no local
    baseline, or the key sets differ, or a shared path has another size or
    a strictly newer modification time.  The cloud signal is true exactly
    when there is no cloud baseline, or the key sets differ, or a shared
    path has another ['modified'] value.  Once the listing is obtained, the
    tick stops as a no-op when both signals are false, and goes on when
    either is true. *)
Theorem change_signals_and_gate self current_local fs get_recursive_info current_cloud h :
  let last_local := _last_local_state self in
  let last_cloud := _last_cloud_state self in
  (check_local_changes current_local last_local = true ↔
     last_local = ∅
     ∨ dom current_local ≠ dom last_local
     ∨ ∃ p mtime sz last_mtime last_sz,
         current_local !! p = Some (mtime, sz)
         ∧ last_local !! p = Some (last_mtime, last_sz)
         ∧ (sz ≠ last_sz ∨ last_mtime < mtime))
  ∧ (check_cloud_changes current_cloud last_cloud = true ↔
       last_cloud = ∅
       ∨ dom current_cloud ≠ dom last_cloud
       ∨ ∃ p it last_it,
           current_cloud !! p = Some it
           ∧ last_cloud !! p = Some last_it
           ∧ get_modified it ≠ get_modified last_it)
  ∧ (scan_cloud_files_with_retry (cloud_folder (cloud_client self)) get_recursive_info 3
       = inr (Some current_cloud) →
     (check_local_changes current_local last_local = false
      ∧ check_cloud_changes current_cloud last_cloud = false →
      tick self current_local fs get_recursive_info h
        = ([Logged NoChangesDetected], inr self))
     ∧ (check_local_changes current_local last_local = true
        ∨ check_cloud_changes current_cloud last_cloud = true →
        ∃ t r, tick self current_local fs get_recursive_info h
               = (Logged ChangesDetected :: t, r))).
Proof.
  intros last_local last_cloud.
  split_and!; [apply check_local_changes_spec|apply check_cloud_changes_spec|].
  intros Hscan. rewrite (sync_after_scan _ _ _ _ _ _ Hscan). cbv zeta.
  fold last_local last_cloud. split.
  - by intros [-> ->].
  - intros Hfired.
    assert (negb (check_local_changes current_local last_local)
            && negb (check_cloud_changes current_cloud last_cloud) = false) as ->.
    { destruct Hfired as [-> | ->]; [done|]. apply andb_false_r. }
    match goal with
    | |- context [?m (h ++ [Logged ChangesDetected])] =>
        destruct (m (h ++ [Logged ChangesDetected])) as [t [e|[]]]
    end; eauto.
Qed.

(** C3. In a tick in which a signal fired, once the reconciliation has
    returned (or was not needed, the local signal being false), both
    baselines are the snapshots observed by this tick, whatever happened to
    the items inside the reconciliation. *)
Theorem sync_commits_after_reconciliation
    self current_local fs get_recursive_info current_cloud h t :
  scan_cloud_files_with_retry (cloud_folder (cloud_client self)) get_recursive_info 3
    = inr (Some current_cloud) →
  check_local_changes current_local (_last_local_state self) = true
  ∨ check_cloud_changes current_cloud (_last_cloud_state self) = true →
  (if check_local_changes current_local (_last_local_state self)
   then reconcile fs strptime_timestamp current_local current_cloud
                  (_last_local_state self) (cloud_client self)
   else mret ()) (h ++ [Logged ChangesDetected]) = (t, inr ()) →
  ∃ self',
    tick self current_local fs get_recursive_info h = (Logged ChangesDetected :: t, inr self')
    ∧ _last_local_state self' = current_local
    ∧ _last_cloud_state self' = current_cloud.
Proof.
  intros Hscan Hfired Hrec. rewrite (sync_after_scan _ _ _ _ _ _ Hscan). cbv zeta.
  assert (negb (check_local_changes current_local (_last_local_state self))
          && negb (check_cloud_changes current_cloud (_last_cloud_state self)) = false) as ->.
  { destruct Hfired as [-> | ->]; [done|]. apply andb_false_r. }
  rewrite Hrec. eauto.
Qed.

End TickProperties.

(** ** Repeating a tick *)

Lemma elem_of_accepted_calls (cl : client) (h t : list event) (c : call) :
  c ∈ accepted_calls cl h t ↔
    ∃ t1 t2, t = t1 ++ Called c :: t2 ∧ responds cl (h ++ t1) c = true.
Proof.
  revert h. induction t as [|[c'|l] t IH]; intros h; cbn [accepted_calls].
  - split; [by intros ?%elem_of_nil|]. intros (t1 & ? & Heq & _). by destruct t1.
  - rewrite elem_of_app, IH. split.
    + intros [Hhere|(t1 & t2 & -> & Hok)].
      * destruct (responds cl h c') eqn:Hresp; [|by apply elem_of_nil in Hhere].
        apply list_elem_of_singleton in Hhere as ->. exists [], t.
        split; [done|]. by rewrite app_nil_r.
      * exists (Called c' :: t1), t2. split; [done|]. by rewrite cons_middle, app_assoc.
    + intros (t1 & t2 & Heq & Hok). destruct t1 as [|e t1]; simplify_eq/=.
      * left. rewrite app_nil_r in Hok. rewrite Hok. by left.
      * right. exists t1, t2. split; [done|]. by rewrite <- app_assoc.
  - rewrite IH. split.
    + intros (t1 & t2 & -> & Hok). exists (Logged l :: t1), t2.
      split; [done|]. by rewrite cons_middle, app_assoc.
    + intros (t1 & t2 & Heq & Hok). destruct t1 as [|e t1]; simplify_eq/=.
      exists t1, t2. split; [done|]. by rewrite <- app_assoc.
Qed.

Section Idempotence.

Variable iter : gset string → list string.
Variable strptime_timestamp : string → option Z.
Hypothesis iter_elements : ∀ X : gset string, iter X ≡ₚ elements X.










End Idempotence.

(** ** Remote times that do not parse *)

Section CloudTime.

Variable strptime_timestamp : string → option Z.

(** C10 (as amended). [_parse_cloud_time] gives 0 for a string whose first 19
    characters do not parse and for [None]; and a path of step 3 whose remote
    entry carries such a ['modified'] value, and whose local modification
    time is positive, is uploaded. *)
Theorem unparsable_cloud_time_forces_upload :
  (∀ s, strptime_timestamp (str_take 19 s) = None →
        _parse_cloud_time strptime_timestamp (PyStr s) = 0)
  ∧ _parse_cloud_time strptime_timestamp PyNone = 0
  ∧ (∀ (current_local : local_state) (current_cloud : cloud_state)
       (last_local : local_state) cl p it timestr mtime sz h,
       current_cloud !! p = Some it →
       item_modified it = Some timestr →
       _parse_cloud_time strptime_timestamp timestr = 0 →
       current_local !! p = Some (mtime, sz) →
       0 < mtime →
       upload_item strptime_timestamp current_local current_cloud last_local cl p h
       = ([Called (Load p)],
          if responds cl h (Load p) then inr () else inl (CloudStorageError (Load p)))).
Proof.
  split_and!.
  - intros s Hs. unfold _parse_cloud_time. by rewrite Hs.
  - done.
  - intros current_local current_cloud last_local cl p it timestr mtime sz h
      Hc Hm Hparse Hl Hpos.
    unfold upload_item. rewrite Hc, Hl, Hm, Hparse.
    destruct (changed_since _ _ _ _); [done|].
    by rewrite (proj2 (Z.gtb_lt mtime 0) Hpos).
Qed.

End CloudTime.

(** * Further properties of the detector *)

(** ** Strings *)

Lemma str_app_assoc (a b c : string) : (a +:+ b) +:+ c = a +:+ (b +:+ c).
Proof.
  induction a as [|x a IH]; [done|].
  change (String x ((a +:+ b) +:+ c) = String x (a +:+ b +:+ c)). by f_equal.
Qed.

Lemma str_length_app (a b : string) :
  String.length (a +:+ b) = (String.length a + String.length b)%nat.
Proof.
  induction a as [|x a IH]; [done|].
  change (S (String.length (a +:+ b)) = S (String.length a + String.length b)).
  by f_equal.
Qed.

Lemma str_drop_app (p r : string) : str_drop (String.length p) (p +:+ r) = r.
Proof. induction p as [|x p IH]; [by destruct r|exact IH]. Qed.

Lemma startswith_iff (p s : string) : startswith p s = true ↔ ∃ r, s = p +:+ r.
Proof.
  split; [|intros [r ->]; apply startswith_app].
  unfold startswith. revert s. induction p as [|x p IH]; intros s.
  { intros _. by exists s. }
  destruct s as [|y s]; [done|]. simpl.
  destruct (Ascii.ascii_dec x y) as [<-|]; [|done].
  intros [r ->]%IH. by exists r.
Qed.

Lemma NoDup_omap_keys {A B} (g : string * A → option (string * B))
    (key : string → string) (l : list (string * A)) :
  (∀ f d k v, g (f, d) = Some (k, v) → f = key k) →
  NoDup l.*1 → NoDup (omap g l).*1.
Proof.
  intros Hg. induction l as [|[f d] l IH]; intros Hl; [constructor|].
  rewrite fmap_cons in Hl. apply NoDup_cons in Hl as [Hf Hl]. specialize (IH Hl).
  simpl. destruct (g (f, d)) as [[k v]|] eqn:Hfd; [|done].
  rewrite fmap_cons. apply NoDup_cons. split; [|done].
  intros [[k' v'] [Hk Hin]]%list_elem_of_fmap. simpl in Hk; subst k'.
  apply list_elem_of_omap in Hin as ([f' d'] & Hin & Hg').
  apply Hg in Hfd as ->. apply Hg in Hg' as ->.
  apply Hf. apply list_elem_of_fmap. by exists (key k, d').
Qed.

(** ** Walking a dict *)

Section DictItems.

Variable iter : gset string → list string.
Hypothesis iter_elements : ∀ X : gset string, iter X ≡ₚ elements X.

Lemma elem_of_dict_items {V} (d : gmap string V) k v :
  (k, v) ∈ dict_items iter d ↔ d !! k = Some v.
Proof.
  unfold dict_items. rewrite list_elem_of_omap. split.
  - intros (k' & _ & Hk). destruct (d !! k') as [v'|] eqn:Hd; [|done].
    simpl in Hk. by injection Hk as -> ->.
  - intros Hd. exists k. split.
    + apply (elem_of_iter iter iter_elements), elem_of_dom. eauto.
    + by rewrite Hd.
Qed.

Lemma length_dict_items {V} (d : gmap string V) : length (dict_items iter d) = size d.
Proof.
  unfold dict_items.
  assert (Hall : ∀ k, k ∈ iter (dom d) → is_Some (d !! k)).
  { intros k Hk%(elem_of_iter iter iter_elements). by apply elem_of_dom. }
  rewrite <- size_dom. unfold size at 1, set_size. simpl.
  rewrite <- (Permutation_length (iter_elements (dom d))).
  induction (iter (dom d)) as [|k l IH]; [done|]. simpl.
  destruct (Hall k) as [v ->]; [by left|]. simpl. f_equal.
  apply IH. intros k' Hk'. apply Hall. by right.
Qed.

End DictItems.

(** ** Folder comparison *)

Section FolderStructures.

Variable iter : gset string → list string.
Hypothesis iter_elements : ∀ X : gset string, iter X ≡ₚ elements X.

(** The files below a folder, keyed by what follows [folder/]. *)
Lemma lookup_files_under {V} (folder : string) (files : gmap string V) (rel : string) :
  files_under folder files !! rel = files !! (folder +:+ "/" +:+ rel).
Proof.
  unfold files_under.
  set (g := λ '(f, d), if startswith (folder +:+ "/") f
                      then Some (str_drop (String.length folder + 1) f, d) else None).
  assert (Hg : ∀ f d k v, g (f, d) = Some (k, v) ↔ f = folder +:+ "/" +:+ k ∧ v = d).
  { intros f d k v. unfold g. split.
    - destruct (startswith _ f) eqn:Hs; [|done].
      apply startswith_iff in Hs as [r ->]. intros [= <- <-].
      replace (String.length folder + 1)%nat with (String.length (folder +:+ "/"))
        by (rewrite str_length_app; simpl; lia).
      by rewrite str_drop_app, str_app_assoc.
    - intros [-> ->]. rewrite <- str_app_assoc, startswith_app.
      replace (String.length folder + 1)%nat with (String.length (folder +:+ "/"))
        by (rewrite str_length_app; simpl; lia).
      by rewrite str_drop_app. }
  assert (Hnd : NoDup (omap g (map_to_list files)).*1).
  { apply (NoDup_omap_keys g (λ k, folder +:+ "/" +:+ k));
      [|apply NoDup_fst_map_to_list].
    intros f d k v Hfd. by apply Hg in Hfd as [-> _]. }
  apply option_eq. intros v.
  rewrite <- elem_of_list_to_map by done.
  rewrite list_elem_of_omap. split.
  - intros ([f d] & Hin & [-> ->]%Hg). by apply elem_of_map_to_list.
  - intros Hin. exists (folder +:+ "/" +:+ rel, v). split.
    + by apply elem_of_map_to_list.
    + by apply Hg.
Qed.

Lemma same_sizes_spec (old_files : gmap string item) (new_files : list (string * (Z * Z))) h :
  ∃ r, same_sizes old_files new_files h = ([], r)
       ∧ (r = inr true ↔
            ∀ rel mtime sz, (rel, (mtime, sz)) ∈ new_files →
              ∃ it, old_files !! rel = Some it ∧ item_size it = Some sz)
       ∧ (∀ e, r = inl e →
            e = KeyError "size"
            ∧ ∃ rel it, old_files !! rel = Some it ∧ item_size it = None).
Proof.
  induction new_files as [|[rel [mtime sz]] rest IH]; simpl.
  { exists (inr true). split_and!; [done| |done].
    split; [by intros _ ? ? ? ?%elem_of_nil|done]. }
  destruct (old_files !! rel) as [it|] eqn:Hrel.
  2:{ exists (inr false). split_and!; [done| |done].
      split; [done|]. intros Hall.
      destruct (Hall rel mtime sz) as (it & Hit & _); [by left|]. congruence. }
  destruct (item_size it) as [sz'|] eqn:Hsz.
  2:{ exists (inl (KeyError "size")). split_and!; [done| |].
      - split; [done|]. intros Hall.
        destruct (Hall rel mtime sz) as (it' & Hit & Hs); [by left|]. congruence.
      - intros e [= <-]. eauto. }
  destruct (sz =? sz') eqn:Heq; simpl.
  - apply Z.eqb_eq in Heq as <-.
    destruct IH as (r & -> & Htrue & Herr). exists r. split_and!; [done| |done].
    rewrite Htrue. split.
    + intros Hall rel' m' s' [[= -> -> ->]|Hin]%elem_of_cons; eauto.
    + intros Hall rel' m' s' Hin. apply (Hall rel' m' s'). by right.
  - apply Z.eqb_neq in Heq.
    exists (inr false). split_and!; [done| |done].
    split; [done|]. intros Hall.
    destruct (Hall rel mtime sz) as (it' & Hit & Hs); [by left|]. congruence.
Qed.

Lemma compare_folder_structures_spec
    (old_folder new_folder : string) (current_local : local_state)
    (current_cloud : cloud_state) h :
  ∃ r,
    _compare_folder_structures iter old_folder new_folder current_local current_cloud h = ([], r)
    ∧ (r = inr true ↔ same_structure current_local current_cloud old_folder new_folder)
    ∧ (∀ e, r = inl e →
         e = KeyError "size"
         ∧ ∃ rel it, current_cloud !! (old_folder +:+ "/" +:+ rel) = Some it
                     ∧ item_size it = None).
Proof.
  unfold _compare_folder_structures, same_structure.
  set (old_files := files_under old_folder current_cloud).
  set (new_files := files_under new_folder current_local).
  assert (Hsub : (∀ rel mtime sz, new_files !! rel = Some (mtime, sz) →
                    ∃ it, old_files !! rel = Some it ∧ item_size it = Some sz) →
                 dom new_files ⊆ dom old_files).
  { intros Hall rel [[m sz] Hn]%elem_of_dom.
    destruct (Hall _ _ _ Hn) as (it & Hit & _). apply elem_of_dom. eauto. }
  case_bool_decide as Hsize; simpl.
  - destruct (same_sizes_spec old_files (dict_items iter new_files) h)
      as (r & -> & Htrue & Herr).
    exists r. split_and!; [done| |].
    + rewrite Htrue. split.
      * intros Hall.
        assert (Hall' : ∀ rel mtime sz, new_files !! rel = Some (mtime, sz) →
                          ∃ it, old_files !! rel = Some it ∧ item_size it = Some sz).
        { intros rel m sz Hn. apply (Hall rel m sz).
          by apply (elem_of_dict_items iter iter_elements). }
        assert (Hdom : dom new_files = dom old_files).
        { apply set_subseteq_size_eq; [by apply Hsub|]. rewrite !size_dom. lia. }
        split.
        -- intros rel. rewrite <- !lookup_files_under. fold old_files new_files.
           rewrite <- !elem_of_dom. by rewrite Hdom.
        -- intros rel m sz. rewrite <- !lookup_files_under. apply Hall'.
      * intros [_ Hall] rel m sz Hin%(elem_of_dict_items iter iter_elements).
        unfold new_files in Hin. rewrite lookup_files_under in Hin.
        unfold old_files. rewrite lookup_files_under. eauto.
    + intros e He. destruct (Herr e He) as (-> & rel & it & Hit & Hn).
      split; [done|]. exists rel, it. unfold old_files in Hit.
      by rewrite lookup_files_under in Hit.
  - exists (inr false). split_and!; [done| |done].
    split; [done|]. intros [Hdom Hall]. exfalso. apply Hsize.
    rewrite <- !size_dom. f_equal. apply set_eq. intros rel.
    rewrite !elem_of_dom. unfold old_files, new_files.
    rewrite !lookup_files_under. symmetry. apply Hdom.
Qed.

(** X1. A disappeared folder and an appeared folder compare equal exactly when
    the remote files below the first and the local files below the second
    have the same relative paths and, path by path, the same size; times
    play no part.  This holds in whatever order the files of the new folder
    are walked.  The comparison makes no call; the one exception it can
    raise is the [KeyError] of a remote entry without ['size']. *)
Theorem compare_folder_structures_same_paths_and_sizes
    (old_folder new_folder : string) (current_local : local_state)
    (current_cloud : cloud_state) h :
  ∃ r,
    _compare_folder_structures iter old_folder new_folder current_local current_cloud h = ([], r)
    ∧ (r = inr true ↔
         (∀ rel, is_Some (current_local !! (new_folder +:+ "/" +:+ rel))
                 ↔ is_Some (current_cloud !! (old_folder +:+ "/" +:+ rel)))
         ∧ (∀ rel mtime sz,
              current_local !! (new_folder +:+ "/" +:+ rel) = Some (mtime, sz) →
              ∃ it, current_cloud !! (old_folder +:+ "/" +:+ rel) = Some it
                    ∧ item_size it = Some sz))
    ∧ (∀ e, r = inl e →
         e = KeyError "size"
         ∧ ∃ rel it, current_cloud !! (old_folder +:+ "/" +:+ rel) = Some it
                     ∧ item_size it = None).
Proof. apply compare_folder_structures_spec. Qed.

End FolderStructures.

(** ** The folders of a snapshot *)

Lemma split_on_cons (c : ascii) (s : string) : ∃ part parts, split_on c s = part :: parts.
Proof.
  induction s as [|a s (part & parts & IH)]; simpl; [eauto|].
  case_decide; [eauto|]. rewrite IH. eauto.
Qed.

Lemma concat_cons_char (a : ascii) (part : string) (parts : list string) :
  String.concat "/" (String a part :: parts) = String a (String.concat "/" (part :: parts)).
Proof. by destruct parts. Qed.

Lemma parent_folders_slash (s : string) :
  parent_folders (String slash s) = "" :: ((λ f, "/" +:+ f) <$> parent_folders s).
Proof.
  unfold parent_folders.
  change (split_on slash (String slash s)) with ("" :: split_on slash s).
  destruct (split_on_cons slash s) as (part & parts & ->).
  cbn [length]. rewrite !Nat.sub_succ, !Nat.sub_0_r.
  change (seq 0 (S (length parts))) with (0%nat :: seq 1 (length parts)).
  rewrite fmap_cons. f_equal.
  rewrite <- fmap_S_seq, <- !list_fmap_compose.
  apply list_fmap_ext. intros i j _. simpl. by destruct (take j parts).
Qed.

Lemma parent_folders_other (a : ascii) (s : string) :
  a ≠ slash → parent_folders (String a s) = String a <$> parent_folders s.
Proof.
  intros Ha. unfold parent_folders. simpl split_on. rewrite decide_False by done.
  destruct (split_on_cons slash s) as (part & parts & ->).
  cbn [length]. rewrite <- list_fmap_compose.
  apply list_fmap_ext. intros i j _. simpl. apply concat_cons_char.
Qed.

(** The folders of a path are the prefixes of the path that a ['/'] follows. *)
Lemma elem_of_parent_folders (folder p : string) :
  folder ∈ parent_folders p ↔ ∃ rest, p = folder +:+ "/" +:+ rest.
Proof.
  revert folder. induction p as [|a p IH]; intros folder.
  { split; [by intros ?%elem_of_nil|]. intros [rest Hp]. by destruct folder. }
  destruct (decide (a = slash)) as [->|Ha].
  - rewrite parent_folders_slash, elem_of_cons, list_elem_of_fmap. split.
    + intros [->|(f & -> & [rest ->]%IH)]; [by exists p|]. by exists rest.
    + intros [rest Hp]. destruct folder as [|b folder]; [by left|].
      injection Hp as <- ->. right. exists folder. split; [done|].
      apply IH. by exists rest.
  - rewrite parent_folders_other, list_elem_of_fmap by done. split.
    + intros (f & -> & [rest ->]%IH). by exists rest.
    + intros [rest Hp]. destruct folder as [|b folder].
      * injection Hp as -> _. done.
      * injection Hp as <- ->. exists folder. split; [done|]. apply IH. by exists rest.
Qed.

Lemma elem_of_folders_of {V} (files : gmap string V) (folder : string) :
  folder ∈ folders_of files ↔ holds_folder files folder.
Proof.
  unfold folders_of, holds_folder. rewrite elem_of_list_to_set, list_elem_of_In, in_flat_map.
  split.
  - intros ([p v] & Hin%list_elem_of_In%elem_of_map_to_list & Hf%list_elem_of_In).
    apply elem_of_parent_folders in Hf as [rest ->]. eauto.
  - intros (p & rest & [v Hv] & ->).
    exists (folder +:+ "/" +:+ rest, v). split.
    + by apply list_elem_of_In, elem_of_map_to_list.
    + apply list_elem_of_In, elem_of_parent_folders. eauto.
Qed.

(** X2. A snapshot holds a folder exactly when one of its paths goes through it:
    the path is the folder, a ['/'], and something more.  A path without
    ['/'] gives no folder. *)
Theorem folders_of_are_slash_prefixes {V} (files : gmap string V) (folder : string) :
  (folder ∈ folders_of files ↔
     ∃ p rest, is_Some (files !! p) ∧ p = folder +:+ "/" +:+ rest)
  ∧ (∀ p, count_char slash p = 0%nat → parent_folders p = []).
Proof.
  split; [apply elem_of_folders_of|].
  intros p Hp. destruct (parent_folders p) as [|f fs] eqn:Hpf; [done|].
  assert (Hin : f ∈ parent_folders p) by (rewrite Hpf; by left).
  apply elem_of_parent_folders in Hin as [rest ->].
  rewrite !count_char_app in Hp. simpl in Hp. lia.
Qed.

(** ** Folder rename detection *)

Section RenamedFolders.

Variable iter : gset string → list string.
Hypothesis iter_elements : ∀ X : gset string, iter X ≡ₚ elements X.

Variable current_local : local_state.
Variable current_cloud : cloud_state.

Lemma compare_folder_structures_cases old_folder new_folder h :
  (same_structure current_local current_cloud old_folder new_folder
   ∧ _compare_folder_structures iter old_folder new_folder current_local current_cloud h
     = ([], inr true))
  ∨ _compare_folder_structures iter old_folder new_folder current_local current_cloud h
    = ([], inr false)
  ∨ (_compare_folder_structures iter old_folder new_folder current_local current_cloud h
     = ([], inl (KeyError "size"))
     ∧ ∃ p it, current_cloud !! p = Some it ∧ item_size it = None).
Proof.
  destruct (compare_folder_structures_spec iter iter_elements old_folder new_folder
              current_local current_cloud h) as (r & Hrun & Htrue & Herr).
  rewrite Hrun. destruct r as [e|[]].
  - destruct (Herr e eq_refl) as (-> & rel & it & ? & ?). right; right. eauto.
  - left. split; [|done]. by apply Htrue.
  - by right; left.
Qed.

Lemma first_same_folder_spec old_folder candidates h :
  ∃ r, first_same_folder iter current_local current_cloud old_folder candidates h = ([], r)
       ∧ (∀ new_folder, r = inr (Some new_folder) →
            new_folder ∈ candidates
            ∧ same_structure current_local current_cloud old_folder new_folder)
       ∧ (∀ e, r = inl e →
            e = KeyError "size"
            ∧ ∃ p it, current_cloud !! p = Some it ∧ item_size it = None).
Proof.
  induction candidates as [|c rest IH]; simpl.
  { exists (inr None). by split_and!. }
  rewrite bind_run.
  destruct (compare_folder_structures_cases old_folder c h) as [[Hs ->]|[-> |[-> Hmiss]]].
  - exists (inr (Some c)). split_and!; [done| |done].
    intros n [= <-]. split; [by left|done].
  - rewrite app_nil_r. destruct IH as (r & -> & Hsome & Herr).
    exists r. split_and!; [done| |done].
    intros n Hn. destruct (Hsome n Hn). split; [by right|done].
  - exists (inl (KeyError "size")). split_and!; [done|done|]. by intros e [= <-].
Qed.

Lemma match_folders_spec olds (A : gset string) h :
  ∃ r, match_folders iter current_local current_cloud olds A h = ([], r)
       ∧ (∀ pairs, r = inr pairs →
            (NoDup olds → NoDup pairs.*1) ∧ NoDup pairs.*2
            ∧ ∀ old_folder new_folder, (old_folder, new_folder) ∈ pairs →
                old_folder ∈ olds ∧ new_folder ∈ A
                ∧ same_structure current_local current_cloud old_folder new_folder)
       ∧ (∀ e, r = inl e →
            e = KeyError "size"
            ∧ ∃ p it, current_cloud !! p = Some it ∧ item_size it = None).
Proof.
  revert A. induction olds as [|o rest IH]; intros A; simpl.
  { exists (inr []). split_and!; [done| |done].
    intros pairs [= <-]. split_and!; [constructor..|]. by intros ? ? ?%elem_of_nil. }
  rewrite bind_run.
  destruct (first_same_folder_spec o (iter A) h) as (r1 & -> & Hsome & Herr1).
  destruct r1 as [e|[n|]].
  - exists (inl e). split_and!; [done|done|]. intros e' [= <-]. by apply Herr1.
  - destruct (Hsome n eq_refl) as [Hn%(elem_of_iter iter iter_elements) Hs].
    rewrite app_nil_r, bind_run.
    destruct (IH (A ∖ {[n]})) as (r & -> & Hpairs & Herr).
    destruct r as [e|more]; simpl.
    + exists (inl e). split_and!; [done|done|]. intros e' [= <-]. by apply Herr.
    + exists (inr ((o, n) :: more)). split_and!; [done| |done].
      intros pairs [= <-]. destruct (Hpairs more eq_refl) as (Hnd1 & Hnd2 & Hin).
      split_and!.
      * intros [Ho Hrest]%NoDup_cons. rewrite fmap_cons. apply NoDup_cons.
        split; [|by apply Hnd1].
        intros [[o' n'] [Heq Hm]]%list_elem_of_fmap. simpl in Heq; subst o'.
        by destruct (Hin _ _ Hm) as (? & _).
      * rewrite fmap_cons. apply NoDup_cons. split; [|done].
        intros [[o' n'] [Heq Hm]]%list_elem_of_fmap. simpl in Heq; subst n'.
        destruct (Hin _ _ Hm) as (_ & [_ Hne]%elem_of_difference & _).
        by apply Hne, elem_of_singleton.
      * intros o' n' [[= -> ->]|Hm]%elem_of_cons; [by split_and!; [left|..]|].
        destruct (Hin _ _ Hm) as (? & [? _]%elem_of_difference & ?).
        split_and!; [by right|done..].
  - rewrite app_nil_r.
    destruct (IH A) as (r & -> & Hpairs & Herr).
    exists r. split_and!; [done| |done].
    intros pairs Hr. destruct (Hpairs pairs Hr) as (Hnd1 & Hnd2 & Hin).
    split_and!; [|done|].
    + intros [_ ?]%NoDup_cons. by apply Hnd1.
    + intros o' n' Hm. destruct (Hin _ _ Hm) as (? & ? & ?).
      split_and!; [by right|done..].
Qed.

(** X3. Folder rename detection makes no call.  Each pair it returns joins a
    folder that some baseline path goes through and no current path does
    with a folder that some current path goes through and no baseline path
    did, the two having the same structure (same relative paths below the
    old folder in the cloud and below the new one locally, with equal
    sizes); no folder is used twice.  The only exception is the [KeyError]
    of a remote entry without ['size']. *)
Theorem find_renamed_folders_sound (last_local : local_state) h :
  ∃ r,
    _find_renamed_folders iter current_local current_cloud last_local h = ([], r)
    ∧ (∀ pairs, r = inr pairs →
         NoDup pairs.*1 ∧ NoDup pairs.*2
         ∧ ∀ old_folder new_folder, (old_folder, new_folder) ∈ pairs →
             holds_folder last_local old_folder
             ∧ ¬ holds_folder current_local old_folder
             ∧ holds_folder current_local new_folder
             ∧ ¬ holds_folder last_local new_folder
             ∧ same_structure current_local current_cloud old_folder new_folder)
    ∧ (∀ e, r = inl e →
         e = KeyError "size"
         ∧ ∃ p it, current_cloud !! p = Some it ∧ item_size it = None).
Proof.
  unfold _find_renamed_folders.
  destruct (match_folders_spec
              (iter (folders_of last_local ∖ folders_of current_local))
              (folders_of current_local ∖ folders_of last_local) h)
    as (r & -> & Hpairs & Herr).
  exists r. split_and!; [done| |done].
  intros pairs Hr. destruct (Hpairs pairs Hr) as (Hnd1 & Hnd2 & Hin).
  split_and!; [apply Hnd1, (NoDup_iter iter iter_elements)|done|].
  intros o n Hm. destruct (Hin _ _ Hm) as (Ho & Hn & Hs).
  apply (elem_of_iter iter iter_elements), elem_of_difference in Ho as [Ho1 Ho2].
  apply elem_of_difference in Hn as [Hn1 Hn2].
  rewrite !elem_of_folders_of in *. done.
Qed.

End RenamedFolders.

(** ** Step 2: file renames *)

Section RenameFiles.

Variable current_cloud : cloud_state.
Variable cl : client.

(** The trace of one pair: a successful move, or, the move refused or not
    available, the upload under the new name followed, when it succeeded and
    the old name is a remote file, by the delete of that file. *)
Lemma rename_files_single_cases (o n : string) h :
  ∃ tx, rename_files [(o, n)] current_cloud cl h = (tx, inr ())
    ∧ ((has_rename cl = true
        ∧ responds cl h (Rename (cloud_path cl o) (cloud_path cl n)) = true
        ∧ tx = [Called (Rename (cloud_path cl o) (cloud_path cl n))])
       ∨ ∃ pre,
           ((has_rename cl = true
             ∧ responds cl h (Rename (cloud_path cl o) (cloud_path cl n)) = false
             ∧ pre = [Called (Rename (cloud_path cl o) (cloud_path cl n))])
            ∨ (has_rename cl = false ∧ pre = []))
           ∧ ((responds cl (h ++ pre) (Load n) = false
               ∧ tx = pre ++ [Called (Load n); Logged (FileRenameError o n)])
              ∨ (responds cl (h ++ pre) (Load n) = true
                 ∧ current_cloud !! o = None
                 ∧ tx = pre ++ [Called (Load n)])
              ∨ ∃ it tail,
                  responds cl (h ++ pre) (Load n) = true
                  ∧ current_cloud !! o = Some it
                  ∧ tx = pre ++ Called (Load n) :: Called (Delete (item_path it)) :: tail
                  ∧ (tail = [] ∨ tail = [Logged (FileRenameError o n)]))).
Proof.
  cbv [rename_files for_each _try_rename_cloud_file try_except invoke log
         mbind M_bind mret M_ret].
  destruct (has_rename cl) eqn:Hr;
    [destruct (responds cl h (Rename _ _)) eqn:Hmove|]; simpl.
  - eexists. split; [reflexivity|]. left. by split_and!.
  - set (pre := [Called (Rename (cloud_path cl o) (cloud_path cl n))]).
    destruct (responds cl (h ++ pre) (Load n)) eqn:Hload;
      [destruct (current_cloud !! o) as [it|] eqn:Ho;
         [destruct (responds cl ((h ++ pre) ++ [Called (Load n)]) (Delete (item_path it)))|]|];
      (eexists; split; [reflexivity|]; right; exists pre; split; [by left|]).
    + right; right. exists it, []. by split_and!; [..|left].
    + right; right. exists it, [Logged (FileRenameError o n)]. by split_and!; [..|right].
    + right; left. by split_and!.
    + left. by split_and!.
  - destruct (responds cl (h ++ []) (Load n)) eqn:Hload;
      [destruct (current_cloud !! o) as [it|] eqn:Ho;
         [destruct (responds cl ((h ++ []) ++ [Called (Load n)]) (Delete (item_path it)))|]|];
      (eexists; split; [reflexivity|]; right; exists []; split; [by right|]).
    + right; right. exists it, []. by split_and!; [..|left].
    + right; right. exists it, [Logged (FileRenameError o n)]. by split_and!; [..|right].
    + right; left. by split_and!.
    + left. by split_and!.
Qed.

Lemma rename_files_cons (o n : string) rest h :
  rename_files ((o, n) :: rest) current_cloud cl h =
    match rename_files rest current_cloud cl (h ++ (rename_files [(o, n)] current_cloud cl h).1)
    with (tl, r) => ((rename_files [(o, n)] current_cloud cl h).1 ++ tl, r) end.
Proof.
  destruct (rename_files_single_cases o n h) as (tx & Hone & _).
  rewrite Hone. unfold rename_files in *. rewrite for_each_cons.
  rewrite for_each_cons in Hone.
  match type of Hone with
  | context [try_except ?b ?hd h] => destruct (try_except b hd h) as [t1 [e|[]]]
  end; simpl in Hone.
  - done.
  - injection Hone as <-. simpl. by rewrite app_nil_r.
Qed.

(** X4. On a client that has [rename] and accepts every move, step 2 is one move
    per detected pair, in the order of the pairs, and nothing else: no
    upload and no delete. *)
Theorem rename_files_moves_once renamed_pairs h :
  has_rename cl = true →
  (∀ h' old_path new_path, responds cl h' (Rename old_path new_path) = true) →
  rename_files renamed_pairs current_cloud cl h
  = (Called <$> (rename_call cl <$> renamed_pairs), inr ()).
Proof.
  intros Hr Hok. revert h. induction renamed_pairs as [|[o n] rest IH]; intros h; [done|].
  rewrite rename_files_cons.
  destruct (rename_files_single_cases o n h) as (tx & -> & [(_ & _ & ->)|(pre & Hpre & _)]).
  - simpl. by rewrite IH.
  - destruct Hpre as [(_ & Hno & _)|[? _]]; congruence.
Qed.

(** Step 2 on any client: it never raises, and it deletes an old remote
    file only right after the upload under the new name has succeeded. *)
Lemma rename_files_guarded_spec renamed_pairs h :
  ∃ t, rename_files renamed_pairs current_cloud cl h = (t, inr ())
    ∧ (∀ fp t2, t ≠ Called (Delete fp) :: t2)
    ∧ (∀ t1 fp t2, t = t1 ++ Called (Delete fp) :: t2 →
         ∃ t0 o n it,
           t1 = t0 ++ [Called (Load n)]
           ∧ (o, n) ∈ renamed_pairs
           ∧ current_cloud !! o = Some it ∧ fp = item_path it
           ∧ responds cl (h ++ t0) (Load n) = true).
Proof.
  revert h. induction renamed_pairs as [|[o n] rest IH]; intros h.
  { exists []. split_and!; [done|done|]. intros t1 ? ? Heq. by destruct t1. }
  rewrite rename_files_cons.
  destruct (rename_files_single_cases o n h) as (tx & -> & Hshape). simpl.
  destruct (IH (h ++ tx)) as (tl & -> & Hhead & Hin).
  exists (tx ++ tl).
  assert (Htx_head : tx ≠ [] ∧ ∀ fp t2, tx ≠ Called (Delete fp) :: t2).
  { destruct Hshape as [(_ & _ & ->)|(pre & Hpre & Hrest)]; [done|].
    destruct Hpre as [(_ & _ & ->)|[_ ->]];
      destruct Hrest as [[_ ->]|[(_ & _ & ->)|(it & tail & _ & _ & -> & _)]]; done. }
  assert (Htx_in : ∀ t1 fp t2, tx = t1 ++ Called (Delete fp) :: t2 →
            ∃ t0 it, t1 = t0 ++ [Called (Load n)] ∧ current_cloud !! o = Some it
                     ∧ fp = item_path it ∧ responds cl (h ++ t0) (Load n) = true).
  { intros t1 fp t2 Heq.
    destruct Hshape as [(_ & _ & ->)|(pre & Hpre & Hrest)].
    { do 2 (try (destruct t1 as [|? t1]; simplify_eq/=)). }
    destruct Hrest as [[_ ->]|[(_ & _ & ->)|(it & tail & Hload & Ho & -> & Htail)]].
    - destruct Hpre as [(_ & _ & ->)|[_ ->]];
        do 4 (try (destruct t1 as [|? t1]; simplify_eq/=)).
    - destruct Hpre as [(_ & _ & ->)|[_ ->]];
        do 3 (try (destruct t1 as [|? t1]; simplify_eq/=)).
    - exists pre, it.
      destruct Hpre as [(_ & _ & ->)|[_ ->]]; destruct Htail as [-> | ->];
        do 5 (try (destruct t1 as [|? t1]; simplify_eq/=)); done. }
  split_and!; [done| |].
  - intros fp t2 Heq. destruct Htx_head as [Hnil Hne].
    destruct tx as [|e tx']; [done|]. simpl in Heq. injection Heq as -> _.
    by apply (Hne fp tx').
  - intros t1 fp t2 Heq. apply app_eq_inv in Heq as [(k & -> & Hk)|(k & -> & Hk)].
    + destruct k as [|e k].
      * simpl in Hk. symmetry in Hk. by apply Hhead in Hk.
      * simpl in Hk. injection Hk as <- ->.
        destruct (Htx_in t1 fp k eq_refl) as (t0 & it & -> & ? & ? & ?).
        exists t0, o, n, it. split_and!; [done|by left|done..].
    + destruct (Hin k fp t2 Hk) as (t0 & o' & n' & it & -> & ? & ? & ? & Hresp).
      exists (tx ++ t0), o', n', it. rewrite <- !app_assoc in *.
      split_and!; [done|by right|done..].
Qed.

(** X5. Step 2 on any client never raises, and every delete it makes comes right
    after the accepted upload, under the new name, of the pair whose old name
    is the remote file being deleted. *)
Theorem rename_files_deletes_only_after_upload renamed_pairs h :
  ∃ t, rename_files renamed_pairs current_cloud cl h = (t, inr ())
    ∧ (∀ t1 fp t2, t = t1 ++ Called (Delete fp) :: t2 →
         ∃ t0 o n it,
           t1 = t0 ++ [Called (Load n)]
           ∧ (o, n) ∈ renamed_pairs
           ∧ current_cloud !! o = Some it ∧ fp = item_path it
           ∧ responds cl (h ++ t0) (Load n) = true).
Proof.
  destruct (rename_files_guarded_spec renamed_pairs h) as (t & Hrun & _ & Hdel). eauto.
Qed.

End RenameFiles.

(** ** A whole reconciliation run *)

Lemma bind_calls_Forall (P : call → Prop) {A B} (m : M A) (f : A → M B) h :
  Forall P (calls_of (m h).1) →
  (∀ a, (m h).2 = inr a → Forall P (calls_of (f a (h ++ (m h).1)).1)) →
  Forall P (calls_of ((m ≫= f) h).1).
Proof.
  intros Hm Hf. rewrite bind_run. destruct (m h) as [t1 [e|a]]; simpl in *; [done|].
  specialize (Hf a eq_refl). destruct (f a (h ++ t1)) as [t2 r]. simpl in *.
  rewrite calls_of_app. by apply Forall_app.
Qed.

Lemma for_each_calls_Forall (P : call → Prop) {A} (l : list A) (body : A → M unit) h :
  (∀ x h', x ∈ l → Forall P (calls_of (body x h').1)) →
  Forall P (calls_of (for_each l body h).1).
Proof.
  revert h. induction l as [|x l IH]; intros h Hbody; [constructor|].
  change (for_each (x :: l) body) with (body x ≫= λ _, for_each l body).
  apply bind_calls_Forall; [apply Hbody; by left|].
  intros _ _. apply IH. intros y h' Hy. apply Hbody. by right.
Qed.

Section WholeRun.

Variable iter : gset string → list string.
Variable fs : local_fs.
Variable strptime_timestamp : string → option Z.
Hypothesis iter_elements : ∀ X : gset string, iter X ≡ₚ elements X.

Variable current_local : local_state.
Variable current_cloud : cloud_state.
Variable last_local : local_state.
Variable cl : client.

Lemma rename_folders_calls (P : call → Prop) folder_renames h :
  (∀ pair, pair ∈ folder_renames → P (rename_call cl pair)) →
  Forall P (calls_of (rename_folders folder_renames cl h).1).
Proof.
  intros HP.
  destruct (rename_folder_loop cl (sort_by_key (λ x, - depth x.1) folder_renames) h)
    as (t & Hrun & Hcalls).
  unfold rename_folders. rewrite Hrun. simpl. rewrite Hcalls.
  destruct (has_rename cl); [|constructor].
  apply Forall_fmap, Forall_forall. intros pair Hin. apply HP.
  by rewrite <- (sort_by_key_Permutation (λ x, - depth x.1) folder_renames).
Qed.

Lemma rename_files_calls (P : call → Prop) renamed_pairs h :
  (∀ o n, (o, n) ∈ renamed_pairs →
     P (rename_call cl (o, n)) ∧ P (Load n)
     ∧ ∀ it, current_cloud !! o = Some it → P (Delete (item_path it))) →
  Forall P (calls_of (rename_files renamed_pairs current_cloud cl h).1).
Proof.
  revert h. induction renamed_pairs as [|[o n] rest IH]; intros h HP; [constructor|].
  rewrite rename_files_cons.
  destruct (HP o n) as (Hmove & Hload & Hdel); [by left|].
  destruct (rename_files_single_cases current_cloud cl o n h) as (tx & -> & Hshape).
  simpl. specialize (IH (h ++ tx)).
  destruct (rename_files rest current_cloud cl (h ++ tx)) as [tl r]. simpl in *.
  rewrite calls_of_app. apply Forall_app. split.
  - destruct Hshape as [(_ & _ & ->)|(pre & Hpre & Hrest)].
    { repeat constructor. exact Hmove. }
    assert (Forall P (calls_of pre)) as Hp.
    { destruct Hpre as [(_ & _ & ->)|[_ ->]]; repeat constructor. exact Hmove. }
    destruct Hrest as [[_ ->]|[(_ & _ & ->)|(it & tail & _ & Ho & -> & Htail)]];
      rewrite calls_of_app; apply Forall_app; (split; [done|]).
    + repeat constructor. done.
    + repeat constructor. done.
    + destruct Htail as [-> | ->]; repeat constructor; auto.
  - apply IH. intros o' n' Hin. apply HP. by right.
Qed.

(** X6. A reconciliation run, on any client and whether or not it completes,
    uploads only paths that exist locally, deletes only remote entries whose
    path does not exist locally, and moves only from a remote file or a
    folder that is gone locally to a path or a folder that exists locally. *)
Theorem process_local_changes_touches_only_what_changed h :
  Forall (safe_call cl current_local current_cloud)
    (calls_of (process_local_changes iter fs strptime_timestamp
                 current_local current_cloud last_local cl h).1).
Proof.
  unfold process_local_changes.
  apply bind_calls_Forall.
  { unfold _find_renamed_folders.
    destruct (match_folders_spec iter iter_elements current_local current_cloud
                (iter (folders_of last_local ∖ folders_of current_local))
                (folders_of current_local ∖ folders_of last_local) h) as (r & -> & _).
    constructor. }
  intros folder_renames Hfr.
  assert (Hfolders : ∀ o n, (o, n) ∈ folder_renames →
            ¬ holds_folder current_local o ∧ holds_folder current_local n).
  { unfold _find_renamed_folders in Hfr.
    destruct (match_folders_spec iter iter_elements current_local current_cloud
                (iter (folders_of last_local ∖ folders_of current_local))
                (folders_of current_local ∖ folders_of last_local) h)
      as (r & Hrun & Hpairs & _).
    rewrite Hrun in Hfr. simpl in Hfr. subst r.
    destruct (Hpairs _ eq_refl) as (_ & _ & Hin).
    intros o n Hm. destruct (Hin _ _ Hm) as (Ho & Hn & _).
    apply (elem_of_iter iter iter_elements), elem_of_difference in Ho as [_ Ho].
    apply elem_of_difference in Hn as [Hn _].
    rewrite !elem_of_folders_of in *. done. }
  assert (Hfiles : ∀ o n,
            (o, n) ∈ _find_renamed_files iter fs current_local current_cloud last_local →
            o ∈ dom current_cloud ∧ (o ∉ dom current_local) ∧ n ∈ dom current_local).
  { intros o n Hm. unfold _find_renamed_files in Hm.
    apply (match_files_sound iter fs iter_elements) in Hm as (Ho & Hn & Hc & _).
    apply (elem_of_iter iter iter_elements), elem_of_difference in Ho as [_ Ho].
    apply elem_of_difference in Hn as [Hn _]. done. }
  apply bind_calls_Forall.
  { apply rename_folders_calls. intros [o n] Hin. simpl.
    exists o, n. split_and!; [done..|]. right. by apply Hfolders. }
  intros _ _. apply bind_calls_Forall.
  { apply rename_files_calls. intros o n Hin.
    destruct (Hfiles o n Hin) as (Hc & Ho & Hn). split_and!.
    - exists o, n. split_and!; [done..|]. by left.
    - done.
    - intros it Hit. by exists o, it. }
  intros _ _. apply bind_calls_Forall.
  - unfold upload_changed. apply for_each_calls_Forall. intros p h' Hp.
    apply (elem_of_iter iter iter_elements), elem_of_difference in Hp as [Hp _].
    destruct (upload_item_cases strptime_timestamp current_local current_cloud last_local
                cl p h') as [[_ ->]|[[_ ->]| ->]]; [by apply elem_of_dom|..];
      repeat constructor. exact Hp.
  - intros _ _. unfold delete_removed. apply for_each_calls_Forall. intros p h' Hp.
    apply (elem_of_iter iter iter_elements) in Hp.
    apply elem_of_difference in Hp as [Hp _].
    apply elem_of_difference in Hp as [[it Hit]%elem_of_dom Hnl].
    unfold delete_item. rewrite Hit. repeat constructor. by exists p, it.
Qed.

(** X7. On a client that accepts every call, and with remote entries that all
    carry ['size'] and ['modified'], the reconciliation returns normally. *)
Theorem process_local_changes_returns h :
  (∀ h' c, responds cl h' c = true) →
  (∀ p it, current_cloud !! p = Some it →
           is_Some (item_size it) ∧ is_Some (item_modified it)) →
  ∃ t, process_local_changes iter fs strptime_timestamp
         current_local current_cloud last_local cl h = (t, inr ()).
Proof.
  intros Hok Hitems. unfold process_local_changes, _find_renamed_folders.
  rewrite bind_run.
  destruct (match_folders_spec iter iter_elements current_local current_cloud
              (iter (folders_of last_local ∖ folders_of current_local))
              (folders_of current_local ∖ folders_of last_local) h)
    as (r & -> & _ & Herr).
  destruct r as [e|folder_renames].
  { destruct (Herr e eq_refl) as (_ & p & it & Hit & Hnone).
    destruct (Hitems p it Hit) as [[sz Hsz] _]. congruence. }
  rewrite app_nil_r, bind_run.
  destruct (rename_folder_loop cl (sort_by_key (λ x, - depth x.1) folder_renames) h)
    as (t1 & Hrun1 & _).
  unfold rename_folders at 1. rewrite Hrun1, bind_run.
  destruct (rename_files_guarded_spec current_cloud cl
              (_find_renamed_files iter fs current_local current_cloud last_local)
              (h ++ t1)) as (t2 & -> & _).
  rewrite bind_run. unfold upload_changed, delete_removed.
  destruct (upload_loop_returns strptime_timestamp current_local current_cloud last_local cl
              (iter (dom current_local
                       ∖ processed_of (_find_renamed_files iter fs current_local
                                         current_cloud last_local)))
              ((h ++ t1) ++ t2) Hok) as (t3 & ->).
  { intros p it Hit. by apply (Hitems p it). }
  { intros p [Hp _]%(elem_of_iter iter iter_elements)%elem_of_difference.
    by apply elem_of_dom. }
  destruct (delete_loop_returns current_cloud cl
              (iter (dom current_cloud ∖ dom current_local
                       ∖ processed_of (_find_renamed_files iter fs current_local
                                         current_cloud last_local)))
              (((h ++ t1) ++ t2) ++ t3) Hok) as (t4 & ->).
  { intros p Hp%(elem_of_iter iter iter_elements).
    apply elem_of_difference in Hp as [Hp _].
    apply elem_of_difference in Hp as [Hp _]. by apply elem_of_dom. }
  eauto.
Qed.

End WholeRun.

(** ** Retrying the remote listing *)

Lemma scan_attempts_spec (cf : string) (get_recursive_info : nat → exn + list item)
    (remaining attempt : nat) :
  match scan_attempts cf get_recursive_info attempt remaining with
  | inr None => remaining = 0%nat
  | inr (Some snapshot) =>
      ∃ k items, (k < remaining)%nat
        ∧ get_recursive_info (attempt + k)%nat = inr items
        ∧ snapshot = collect_files cf items
        ∧ ∀ j, (j < k)%nat → ∃ e, get_recursive_info (attempt + j)%nat = inl e
  | inl e =>
      (0 < remaining)%nat
      ∧ get_recursive_info (attempt + (remaining - 1))%nat = inl e
      ∧ ∀ j, (j < remaining)%nat → ∃ e', get_recursive_info (attempt + j)%nat = inl e'
  end.
Proof.
  revert attempt. induction remaining as [|n IH]; intros attempt; simpl; [done|].
  destruct (get_recursive_info attempt) as [e|items] eqn:Hhere.
  - destruct n as [|n'].
    + split_and!; [lia|by rewrite Nat.add_0_r|].
      intros j Hj. replace j with 0%nat by lia. rewrite Nat.add_0_r. eauto.
    + specialize (IH (S attempt)).
      destruct (scan_attempts cf get_recursive_info (S attempt) (S n')) as [e'|[snap|]].
      * destruct IH as (_ & Hlast & Hall). split_and!; [lia| |].
        -- rewrite <- Hlast. f_equal. lia.
        -- intros [|j] Hj; [rewrite Nat.add_0_r; eauto|].
           destruct (Hall j) as [e'' He'']; [lia|]. exists e''. rewrite <- He''. f_equal. lia.
      * destruct IH as (k & items & Hk & Hg & -> & Hearlier).
        exists (S k), items. split_and!; [lia| |done|].
        -- rewrite <- Hg. f_equal. lia.
        -- intros [|j] Hj; [rewrite Nat.add_0_r; eauto|].
           destruct (Hearlier j) as [e'' He'']; [lia|]. exists e''. rewrite <- He''.
           f_equal. lia.
      * done.
  - exists 0%nat, items. split_and!; [lia|by rewrite Nat.add_0_r|done|intros; lia].
Qed.

(** X8. The scan of the cloud asks for the listing at most [max_retries] times.
    It returns the snapshot of the first listing that arrives, all earlier
    attempts having failed; when none arrives it raises the exception of the
    last attempt; with no attempt allowed it returns [None]. *)
Theorem scan_retries_until_first_listing (cf : string)
    (get_recursive_info : nat → exn + list item) (max_retries : nat) :
  match scan_cloud_files_with_retry cf get_recursive_info max_retries with
  | inr None => max_retries = 0%nat
  | inr (Some snapshot) =>
      ∃ k items, (k < max_retries)%nat
        ∧ get_recursive_info k = inr items
        ∧ snapshot = collect_files cf items
        ∧ ∀ j, (j < k)%nat → ∃ e, get_recursive_info j = inl e
  | inl e =>
      (0 < max_retries)%nat
      ∧ get_recursive_info (max_retries - 1)%nat = inl e
      ∧ ∀ j, (j < max_retries)%nat → ∃ e', get_recursive_info j = inl e'
  end.
Proof. apply (scan_attempts_spec cf get_recursive_info max_retries 0). Qed.

(** * Properties of the scanner and of CloudOperations *)

(** ** Maps built by a fold of inserts *)

Section FoldInsert.

Context {A V : Type} (entry : A → option (string * V)).

Lemma fold_put_lookup (l : list A) (acc : gmap string V) k v :
  foldl (put entry) acc l !! k = Some v →
  acc !! k = Some v ∨ ∃ x, x ∈ l ∧ entry x = Some (k, v).
Proof.
  revert acc. induction l as [|x l IH]; intros acc; simpl; [by left|].
  intros [Hacc|(y & Hy & He)]%IH; [|right; exists y; split; [by right|done]].
  unfold put in Hacc. destruct (entry x) as [[k' v']|] eqn:Hx; [|by left].
  destruct (decide (k' = k)) as [->|Hne].
  - rewrite lookup_insert_eq in Hacc. injection Hacc as ->.
    right. exists x. split; [by left|done].
  - rewrite lookup_insert_ne in Hacc by done. by left.
Qed.

Lemma fold_put_untouched (l : list A) (acc : gmap string V) k :
  (∀ x v, x ∈ l → entry x ≠ Some (k, v)) →
  foldl (put entry) acc l !! k = acc !! k.
Proof.
  revert acc. induction l as [|x l IH]; intros acc Hk; simpl; [done|].
  rewrite IH by (intros y v Hy; apply Hk; by right).
  unfold put. destruct (entry x) as [[k' v']|] eqn:Hx; [|done].
  apply lookup_insert_ne. intros ->. by apply (Hk x v'); [left|].
Qed.

Lemma fold_put_mono (l : list A) (acc : gmap string V) k :
  is_Some (acc !! k) → is_Some (foldl (put entry) acc l !! k).
Proof.
  revert acc. induction l as [|x l IH]; intros acc Hk; simpl; [done|].
  apply IH. unfold put. destruct (entry x) as [[k' v']|]; [|done].
  apply lookup_insert_is_Some. destruct (decide (k' = k)); auto.
Qed.

Lemma fold_put_has_key (l : list A) (acc : gmap string V) x k v :
  x ∈ l → entry x = Some (k, v) → is_Some (foldl (put entry) acc l !! k).
Proof.
  intros Hin Hx. revert acc.
  induction l as [|y l IH]; intros acc; [by apply elem_of_nil in Hin|].
  simpl. apply elem_of_cons in Hin as [<-|Hin]; [|by apply IH].
  apply fold_put_mono. unfold put. rewrite Hx, lookup_insert_eq. eauto.
Qed.

Lemma fold_put_last (l1 l2 : list A) (acc : gmap string V) x k v :
  entry x = Some (k, v) →
  (∀ y v', y ∈ l2 → entry y ≠ Some (k, v')) →
  foldl (put entry) acc (l1 ++ x :: l2) !! k = Some v.
Proof.
  intros Hx Hl2. rewrite foldl_app. simpl.
  rewrite fold_put_untouched by done. unfold put at 1. rewrite Hx.
  apply lookup_insert_eq.
Qed.

End FoldInsert.

(** ** The local scan *)

Lemma scan_entries_returns (walk : list fs_entry) (files : local_state) :
  (∀ e, e ∈ walk → is_Some (entry_is_file e)) →
  scan_entries files walk = inr (foldl (put readable_file) files walk).
Proof.
  revert files. induction walk as [|e walk IH]; intros files Hall; [done|].
  cbn [scan_entries foldl]. unfold put at 2, readable_file.
  destruct (Hall e) as [b Hb]; [by left|]. rewrite Hb.
  assert (Hrest : ∀ e', e' ∈ walk → is_Some (entry_is_file e')).
  { intros e' He'. apply Hall. by right. }
  destruct b; [|by apply IH].
  destruct (entry_stat e); by apply IH.
Qed.

Lemma scan_entries_cases (walk : list fs_entry) (files : local_state) :
  ((∀ e, e ∈ walk → is_Some (entry_is_file e))
   ∧ scan_entries files walk = inr (foldl (put readable_file) files walk))
  ∨ ∃ l1 e l2,
      walk = l1 ++ e :: l2
      ∧ (∀ e', e' ∈ l1 → is_Some (entry_is_file e'))
      ∧ entry_is_file e = None
      ∧ scan_entries files walk = inl (OSError (entry_path e)).
Proof.
  revert files. induction walk as [|e walk IH]; intros files.
  { left. split; [by intros ? ?%elem_of_nil|done]. }
  destruct (entry_is_file e) as [b|] eqn:Hb.
  2:{ right. exists [], e, walk. split_and!; [done|by intros ? ?%elem_of_nil|done|].
      cbn [scan_entries]. by rewrite Hb. }
  assert (Hstep : ∃ files', scan_entries files (e :: walk) = scan_entries files' walk
                            ∧ foldl (put readable_file) files (e :: walk)
                              = foldl (put readable_file) files' walk).
  { cbn [scan_entries foldl]. unfold put at 2, readable_file. rewrite Hb.
    destruct b; [|by exists files]. destruct (entry_stat e); eauto. }
  destruct Hstep as (files' & -> & ->).
  destruct (IH files') as [[Hall Hrun]|(l1 & e' & l2 & -> & Hl1 & He' & Hrun)].
  - left. split; [|done]. intros e' [->|?]%elem_of_cons; [by rewrite Hb|by apply Hall].
  - right. exists (e :: l1), e', l2. split_and!; [done| |done|done].
    intros e'' [->|?]%elem_of_cons; [by rewrite Hb|by apply Hl1].
Qed.

Lemma readable_file_Some (e : fs_entry) k st :
  readable_file e = Some (k, st) ↔
    entry_is_file e = Some true ∧ entry_stat e = Some st ∧ k = to_posix (entry_path e).
Proof.
  unfold readable_file. destruct (entry_is_file e) as [[]|].
  - destruct (entry_stat e) as [st'|]; simpl.
    + split; [by intros [= <- <-]|by intros (_ & [= <-] & ->)].
    + split; [done|by intros (_ & ? & _)].
  - split; [done|by intros (? & _)].
  - split; [done|by intros (? & _)].
Qed.

Lemma to_posix_no_backslash (s : string) : count_char backslash (to_posix s) = 0%nat.
Proof.
  induction s as [|a s IH]; simpl; [done|].
  destruct (decide (a = backslash)) as [->|Ha].
  - rewrite decide_False by done. exact IH.
  - rewrite decide_False by done. exact IH.
Qed.

Lemma to_posix_fixed (s : string) : count_char backslash s = 0%nat → to_posix s = s.
Proof.
  induction s as [|a s IH]; simpl; [done|].
  destruct (decide (a = backslash)); [done|]. intros Hs. f_equal. by apply IH.
Qed.

(** X9. The local scan raises exactly when [is_file()] raises for some entry
    of the walk, the exception being that of the first such entry: one
    entry that cannot be probed loses the whole snapshot.  Otherwise it
    returns a snapshot that has an entry only for a regular file whose
    [stat] succeeded, under its path with every backslash turned into a
    slash and with the [(mtime, size)] of that [stat]; directories and
    files whose [stat] fails leave no entry; every regular file whose
    [stat] succeeded has its key in the snapshot, and is the entry there
    unless a later one has the same key.  No key contains a backslash, and
    a path without backslash is its own key. *)
Theorem scan_local_files_regular_readable (walk : list fs_entry) :
  match scan_local_files walk with
  | inr files =>
      (∀ e, e ∈ walk → is_Some (entry_is_file e))
      ∧ (∀ k st, files !! k = Some st →
           count_char backslash k = 0%nat
           ∧ ∃ e, e ∈ walk ∧ entry_is_file e = Some true ∧ entry_stat e = Some st
                  ∧ k = to_posix (entry_path e))
      ∧ (∀ e st, e ∈ walk → entry_is_file e = Some true → entry_stat e = Some st →
           to_posix (entry_path e) ∈ dom files)
      ∧ (∀ l1 e l2 st, walk = l1 ++ e :: l2 →
           entry_is_file e = Some true → entry_stat e = Some st →
           (∀ e', e' ∈ l2 → entry_is_file e' = Some true → is_Some (entry_stat e') →
                  to_posix (entry_path e') ≠ to_posix (entry_path e)) →
           files !! to_posix (entry_path e) = Some st)
  | inl err =>
      ∃ l1 e l2,
        walk = l1 ++ e :: l2
        ∧ (∀ e', e' ∈ l1 → is_Some (entry_is_file e'))
        ∧ entry_is_file e = None
        ∧ err = OSError (entry_path e)
  end
  ∧ (∀ p, count_char backslash p = 0%nat → to_posix p = p).
Proof.
  split; [|apply to_posix_fixed]. unfold scan_local_files.
  destruct (scan_entries_cases walk ∅) as [[Hall ->]|(l1 & e & l2 & Hw & Hl1 & He & ->)].
  2:{ by exists l1, e, l2. }
  split_and!; [done|..].
  - intros k st [Hacc|(e & He & Hr)]%fold_put_lookup; [by rewrite lookup_empty in Hacc|].
    apply readable_file_Some in Hr as (Hf & Hs & ->).
    split; [apply to_posix_no_backslash|]. by exists e.
  - intros e st Hin Hf Hs. apply elem_of_dom.
    eapply fold_put_has_key; [done|]. by apply readable_file_Some.
  - intros l1 e l2 st -> Hf Hs Hlater.
    apply fold_put_last; [by apply readable_file_Some|].
    intros e' st' He' (Hf' & Hs' & Hk)%readable_file_Some.
    by apply (Hlater e').
Qed.

(** ** Computations of CloudOperations *)

Lemma eff_bind_run {C X A B} (m : Eff C X A) (f : A → Eff C X B) (h : list C) :
  (m ≫= f) h =
    match m h with
    | (t1, inl e) => (t1, inl e)
    | (t1, inr a) => match f a (h ++ t1) with (t2, r) => (t1 ++ t2, r) end
    end.
Proof. reflexivity. Qed.

Lemma eff_for_each_cons {C X A} (x : A) (l : list A) (body : A → Eff C X unit) h :
  eff_for_each (x :: l) body h =
    match body x h with
    | (t1, inl e) => (t1, inl e)
    | (t1, inr _) => match eff_for_each l body (h ++ t1) with (t2, r) => (t1 ++ t2, r) end
    end.
Proof. reflexivity. Qed.

Lemma eff_for_each_ext {C X A} (l : list A) (body body' : A → Eff C X unit) h :
  (∀ x h', body x h' = body' x h') → eff_for_each l body h = eff_for_each l body' h.
Proof.
  intros Hext. revert h. induction l as [|x l IH]; intros h; [done|].
  rewrite !eff_for_each_cons, Hext. destruct (body' x h) as [t1 [e|[]]]; [done|].
  by rewrite IH.
Qed.

(** ** The scan as a computation *)

Lemma scan_cloud_spec (cl : ops_client) (max_retries attempt : nat) (h : list ops_call) :
  ∃ k, (k ≤ max_retries)%nat
    ∧ (0 < max_retries → 0 < k)%nat
    ∧ scan_cloud cl max_retries (h ++ replicate attempt GetRecursiveInfo)
      = (replicate k GetRecursiveInfo,
         match scan_attempts (ops_cloud_folder cl) (listing_attempt cl h) attempt max_retries
         with
         | inl _ => inl (OpsCloudStorageError GetRecursiveInfo)
         | inr scanned => inr scanned
         end).
Proof.
  revert attempt. induction max_retries as [|n IH]; intros attempt.
  { exists 0%nat. split_and!; [lia|lia|reflexivity]. }
  cbn [scan_cloud scan_attempts]. unfold eff_try, listing_attempt at 1.
  rewrite eff_bind_run. unfold get_recursive_info at 1.
  destruct (ops_accepts cl (h ++ replicate attempt GetRecursiveInfo) GetRecursiveInfo).
  { exists 1%nat. split_and!; [lia|lia|reflexivity]. }
  destruct n as [|n'].
  { exists 1%nat. split_and!; [lia|lia|reflexivity]. }
  destruct (IH (S attempt)) as (k & Hk & _ & Hrun).
  rewrite replicate_S_end, app_assoc in Hrun. rewrite Hrun.
  exists (S k). split_and!; [lia|lia|reflexivity].
Qed.

Lemma scan_cloud_run (cl : ops_client) (max_retries : nat) (h : list ops_call) :
  ∃ k, (k ≤ max_retries)%nat
    ∧ (0 < max_retries → 0 < k)%nat
    ∧ scan_cloud cl max_retries h
      = (replicate k GetRecursiveInfo,
         match scan_cloud_files_with_retry (ops_cloud_folder cl) (listing_attempt cl h)
                 max_retries with
         | inl _ => inl (OpsCloudStorageError GetRecursiveInfo)
         | inr scanned => inr scanned
         end).
Proof.
  destruct (scan_cloud_spec cl max_retries 0 h) as (k & ? & ? & Hrun).
  simpl in Hrun. rewrite app_nil_r in Hrun. by exists k.
Qed.

(** X10. The scan only asks for listings, at most [max_retries] of them and at
    least one when that is positive, and its result is that of the retry
    rule applied to the answers of the client, a refused listing raising the
    client's [CloudStorageError]. *)
Theorem scan_cloud_only_lists (cl : ops_client) (max_retries : nat) (h : list ops_call) :
  ∃ k, (k ≤ max_retries)%nat
    ∧ (0 < max_retries → 0 < k)%nat
    ∧ scan_cloud cl max_retries h
      = (replicate k GetRecursiveInfo,
         match scan_cloud_files_with_retry (ops_cloud_folder cl) (listing_attempt cl h)
                 max_retries with
         | inl _ => inl (OpsCloudStorageError GetRecursiveInfo)
         | inr scanned => inr scanned
         end).
Proof. apply scan_cloud_run. Qed.

(** ** Loops of guarded calls *)

Section GuardedLoop.

Context {A : Type} (cl : ops_client) (c : A → ops_call) (err : A → ops_exn).

Abbreviation guarded := (λ x, eff_try (ops_invoke cl (c x)) (λ e, eff_raise (err x))).

(** Such a loop calls for each element in turn and stops at the first call
    that is refused, raising the error of that element. *)
Lemma guarded_loop_spec (l : list A) (h : list ops_call) :
  (eff_for_each l guarded h = (c <$> l, inr ())
   ∧ ∀ l1 x l2, l = l1 ++ x :: l2 → ops_accepts cl (h ++ (c <$> l1)) (c x) = true)
  ∨ ∃ l1 x l2,
      l = l1 ++ x :: l2
      ∧ eff_for_each l guarded h = (c <$> (l1 ++ [x]), inl (err x))
      ∧ ops_accepts cl (h ++ (c <$> l1)) (c x) = false
      ∧ ∀ l1' y l2', l1 = l1' ++ y :: l2' → ops_accepts cl (h ++ (c <$> l1')) (c y) = true.
Proof.
  revert h. induction l as [|x l IH]; intros h.
  { left. split; [done|]. intros l1 ? ? Heq. by destruct l1. }
  rewrite eff_for_each_cons.
  assert (guarded x h = ([c x], if ops_accepts cl h (c x) then inr () else inl (err x)))
    as ->.
  { unfold eff_try, ops_invoke, eff_raise. by destruct (ops_accepts cl h (c x)). }
  destruct (ops_accepts cl h (c x)) eqn:Hx.
  - destruct (IH (h ++ [c x])) as [[-> Hall]|(l1 & y & l2 & -> & -> & Hy & Hbefore)].
    + left. split; [done|]. intros l1 y l2 Heq.
      destruct l1 as [|z l1]; simpl in Heq; injection Heq as -> ->.
      * by rewrite app_nil_r.
      * rewrite fmap_cons, cons_middle, app_assoc. by eapply Hall.
    + right. exists (x :: l1), y, l2. split_and!; [done|done| |].
      * by rewrite fmap_cons, cons_middle, app_assoc.
      * intros l1' z l2' Heq. destruct l1' as [|w l1']; simpl in Heq; injection Heq as -> ->.
        -- by rewrite app_nil_r.
        -- rewrite fmap_cons, cons_middle, app_assoc. by eapply Hbefore.
  - right. exists [], x, l. split_and!; [done|done|by rewrite app_nil_r|].
    intros l1' ? ? Heq. by destruct l1'.
Qed.

End GuardedLoop.

(** ** clean_cloud_storage *)

Section Clean.

Variable iter : gset string → list string.
Hypothesis iter_elements : ∀ X : gset string, iter X ≡ₚ elements X.
Variable cl : ops_client.

Lemma clean_cloud_storage_loop (cloud_files : cloud_state) h :
  clean_cloud_storage iter cl cloud_files h
  = eff_for_each (dict_items iter cloud_files)
      (λ x, eff_try (ops_invoke cl (DeleteFile (item_path x.2)))
                    (λ e, eff_raise (OpsSyncError (CleanFailed x.1)))) h.
Proof. unfold clean_cloud_storage. apply eff_for_each_ext. by intros [k it] h'. Qed.

Lemma clean_cloud_storage_spec (cloud_files : cloud_state) h t r :
  clean_cloud_storage iter cl cloud_files h = (t, r) →
  (∀ c, c ∈ t → ∃ k it, cloud_files !! k = Some it ∧ c = DeleteFile (item_path it))
  ∧ (length t ≤ size cloud_files)%nat
  ∧ (r = inr () →
     ∀ k it, cloud_files !! k = Some it →
       ∃ t1 t2, t = t1 ++ DeleteFile (item_path it) :: t2
                ∧ ops_accepts cl (h ++ t1) (DeleteFile (item_path it)) = true)
  ∧ (∀ e, r = inl e →
       ∃ k it t1, cloud_files !! k = Some it
                  ∧ e = OpsSyncError (CleanFailed k)
                  ∧ t = t1 ++ [DeleteFile (item_path it)]
                  ∧ ops_accepts cl (h ++ t1) (DeleteFile (item_path it)) = false).
Proof.
  rewrite clean_cloud_storage_loop.
  pose proof (guarded_loop_spec cl (λ x : string * item, DeleteFile (item_path x.2))
                (λ x : string * item, OpsSyncError (CleanFailed x.1))
                (dict_items iter cloud_files) h) as Hloop.
  cbv beta in Hloop.
  set (c := λ x : string * item, DeleteFile (item_path x.2)) in *.
  destruct Hloop as [[-> Hall]|(l1 & [k it] & l2 & Hl & -> & Hk & _)]; intros [= <- <-].
  - split_and!.
    + intros x [[k it] [-> Hin]]%list_elem_of_fmap.
      apply (elem_of_dict_items iter iter_elements) in Hin. by exists k, it.
    + by rewrite length_fmap, (length_dict_items iter iter_elements).
    + intros _ k it Hit%(elem_of_dict_items iter iter_elements).
      apply list_elem_of_split in Hit as (l1 & l2 & Hl).
      exists (c <$> l1), (c <$> l2). split.
      * by rewrite Hl, fmap_app, fmap_cons.
      * by apply (Hall l1 (k, it) l2).
    + done.
  - assert (Hin : ∀ x, x ∈ l1 ++ [(k, it)] → ∃ k' it', cloud_files !! k' = Some it'
                                                      ∧ c x = DeleteFile (item_path it')).
    { intros [k' it'] Hx. exists k', it'. split; [|done].
      apply (elem_of_dict_items iter iter_elements). rewrite Hl.
      apply elem_of_app in Hx as [Hx|Hx%list_elem_of_singleton].
      - apply elem_of_app. by left.
      - rewrite Hx. apply elem_of_app. right. by left. }
    split_and!.
    + intros x [y [-> Hy]]%list_elem_of_fmap. by apply Hin.
    + rewrite length_fmap, <- (length_dict_items iter iter_elements), Hl, !length_app. simpl. lia.
    + done.
    + intros e [= <-]. exists k, it, (c <$> l1). split_and!; [|done| |done].
      * apply (elem_of_dict_items iter iter_elements). rewrite Hl. apply elem_of_app. right. by left.
      * by rewrite fmap_app.
Qed.


End Clean.

(** ** create_folder_structure *)

Lemma concat_merge (cur a : string) (ys : list string) :
  String.concat "/" ((cur +:+ "/" +:+ a) :: ys) = String.concat "/" (cur :: a :: ys).
Proof.
  destruct ys as [|y ys]; [done|].
  change (((cur +:+ "/" +:+ a) +:+ "/" +:+ String.concat "/" (y :: ys))
          = cur +:+ "/" +:+ (a +:+ "/" +:+ String.concat "/" (y :: ys))).
  by rewrite !str_app_assoc.
Qed.

Lemma folder_chain_from (cur : string) (l : list string) :
  cur ≠ "" →
  folder_chain cur l = (λ i, String.concat "/" (cur :: take (S i) l)) <$> seq 0 (length l).
Proof.
  revert cur. induction l as [|a l IH]; intros cur Hcur; [done|].
  cbn [folder_chain length]. destruct cur as [|c cur]; [done|].
  change (seq 0 (S (length l))) with (0%nat :: seq 1 (length l)).
  rewrite fmap_cons. f_equal.
  rewrite IH by (by destruct cur).
  rewrite <- fmap_S_seq, <- list_fmap_compose.
  apply list_fmap_ext. intros i j _. simpl. apply concat_merge.
Qed.

Lemma split_on_relative (p : string) :
  relative p → p ≠ "" → ∃ part rest, split_on slash p = part :: rest ∧ part ≠ "".
Proof.
  destruct p as [|a p]; [done|]. intros Hrel _.
  assert (a ≠ slash) as Ha.
  { intros ->. unfold relative, startswith in Hrel. by destruct p. }
  simpl. rewrite decide_False by done.
  destruct (split_on_cons slash p) as (part & parts & ->). eauto.
Qed.

Lemma length_removelast {A} (l : list A) : length (removelast l) = (length l - 1)%nat.
Proof.
  induction l as [|x l IH]; [done|]. destruct l as [|y l]; [done|].
  change (removelast (x :: y :: l)) with (x :: removelast (y :: l)).
  cbn [length] in *. lia.
Qed.

Lemma folder_chain_parent_folders (p : string) :
  relative p → folder_chain "" (removelast (split_on slash p)) = parent_folders p.
Proof.
  intros Hrel. destruct (decide (p = "")) as [->|Hp]; [done|].
  destruct (split_on_relative p Hrel Hp) as (part & rest & Hsplit & Hpart).
  unfold parent_folders. rewrite Hsplit.
  destruct rest as [|r rest]; [done|].
  change (removelast (part :: r :: rest)) with (part :: removelast (r :: rest)).
  cbn [folder_chain]. rewrite folder_chain_from by done.
  rewrite length_removelast. cbn [length]. rewrite !Nat.sub_succ, !Nat.sub_0_r.
  change (seq 0 (S (length rest))) with (0%nat :: seq 1 (length rest)).
  rewrite fmap_cons. f_equal.
  rewrite <- fmap_S_seq, <- list_fmap_compose.
  apply list_fmap_ext. intros i j Hj. unfold compose.
  apply lookup_seq in Hj as [-> Hi]. cbv beta.
  replace (take (S (0 + i)) (removelast (r :: rest))) with (take (S i) (r :: rest)); [done|].
  symmetry. apply firstn_removelast. simpl. lia.
Qed.

Lemma parent_folders_no_slash (p : string) :
  count_char slash p = 0%nat → parent_folders p = [].
Proof.
  intros Hp. destruct (parent_folders p) as [|f fs] eqn:Hpf; [done|].
  assert (Hin : f ∈ parent_folders p) by (rewrite Hpf; by left).
  apply elem_of_parent_folders in Hin as [rest ->].
  rewrite !count_char_app in Hp. simpl in Hp. lia.
Qed.

Lemma elem_of_folders_to_create (file_paths : list string) (folder : string) :
  Forall relative file_paths →
  folder ∈ folders_to_create file_paths ↔
    ∃ p rest, p ∈ file_paths ∧ p = folder +:+ "/" +:+ rest.
Proof.
  intros Hrel. unfold folders_to_create.
  rewrite elem_of_list_to_set, list_elem_of_In, in_flat_map.
  assert (Hchain : ∀ p, p ∈ file_paths →
            (if decide (count_char slash p = 0%nat) then []
             else folder_chain "" (removelast (split_on slash p))) = parent_folders p).
  { intros p Hp. rewrite Forall_forall in Hrel. case_decide.
    - by rewrite parent_folders_no_slash.
    - apply folder_chain_parent_folders. by apply Hrel. }
  split.
  - intros (p & Hp%list_elem_of_In & Hf%list_elem_of_In).
    rewrite Hchain in Hf by done. apply elem_of_parent_folders in Hf as [rest ->]. eauto.
  - intros (p & rest & Hp & ->). exists (folder +:+ "/" +:+ rest). split.
    + by apply list_elem_of_In.
    + apply list_elem_of_In. rewrite Hchain by done. apply elem_of_parent_folders. eauto.
Qed.

Section Folders.

Variable iter : gset string → list string.
Hypothesis iter_elements : ∀ X : gset string, iter X ≡ₚ elements X.
Variable cl : ops_client.

Lemma elem_of_sorted_folders (file_paths : list string) (folder : string) :
  folder ∈ sorted_folders iter file_paths ↔ folder ∈ folders_to_create file_paths.
Proof.
  unfold sorted_folders. rewrite sort_by_key_Permutation.
  apply (elem_of_iter iter iter_elements).
Qed.

Lemma NoDup_sorted_folders (file_paths : list string) : NoDup (sorted_folders iter file_paths).
Proof.
  unfold sorted_folders. rewrite sort_by_key_Permutation.
  apply (NoDup_iter iter iter_elements).
Qed.

(** What the loop of [create_folder_structure] leaves in the history: the
    calls for a first part of the sorted folders, all of them when it
    returns, up to the refused one when it raises. *)
Lemma create_folder_structure_run (file_paths : list string) h t r :
  create_folder_structure iter cl file_paths h = (t, r) →
  ∃ made rest,
    sorted_folders iter file_paths = made ++ rest
    ∧ t = CreateFolder <$> made
    ∧ (r = inr () → rest = []
                    ∧ ∀ l1 folder l2, made = l1 ++ folder :: l2 →
                        ops_accepts cl (h ++ (CreateFolder <$> l1)) (CreateFolder folder) = true)
    ∧ (∀ e, r = inl e →
         ∃ l1 folder, made = l1 ++ [folder]
           ∧ e = OpsSyncError (FolderFailed folder)
           ∧ ops_accepts cl (h ++ (CreateFolder <$> l1)) (CreateFolder folder) = false).
Proof.
  unfold create_folder_structure.
  pose proof (guarded_loop_spec cl CreateFolder (λ folder, OpsSyncError (FolderFailed folder))
                (sorted_folders iter file_paths) h) as Hloop.
  cbv beta in Hloop.
  destruct Hloop as [[-> Hall]|(l1 & folder & l2 & Hl & -> & Hk & _)]; intros [= <- <-].
  - exists (sorted_folders iter file_paths), []. split_and!; [by rewrite app_nil_r|done| |done].
    intros _. split; [done|]. intros l1 folder l2 Hl. by eapply Hall.
  - exists (l1 ++ [folder]), l2. split_and!; [by rewrite <- app_assoc|done|done|].
    intros e [= <-]. by exists l1, folder.
Qed.

(** X12. For paths that do not start with ['/'], [create_folder_structure] only
    creates folders that some given path goes through, each at most once and
    a folder always after the folder it lies in.  When it returns, every such
    folder was created by an accepted call; when it raises, it is a
    [SyncError] naming the folder whose creation, the last call made, was
    refused. *)
Theorem create_folder_structure_parents_first (file_paths : list string) h t r :
  Forall relative file_paths →
  create_folder_structure iter cl file_paths h = (t, r) →
  (∀ c, c ∈ t →
     ∃ folder p rest, c = CreateFolder folder ∧ p ∈ file_paths ∧ p = folder +:+ "/" +:+ rest)
  ∧ NoDup t
  ∧ (∀ t1 t2 parent rest,
       t = t1 ++ CreateFolder (parent +:+ "/" +:+ rest) :: t2 → CreateFolder parent ∈ t1)
  ∧ (r = inr () →
     ∀ p folder rest, p ∈ file_paths → p = folder +:+ "/" +:+ rest →
       ∃ t1 t2, t = t1 ++ CreateFolder folder :: t2
                ∧ ops_accepts cl (h ++ t1) (CreateFolder folder) = true)
  ∧ (∀ e, r = inl e →
       ∃ folder t1, e = OpsSyncError (FolderFailed folder)
                    ∧ t = t1 ++ [CreateFolder folder]
                    ∧ ops_accepts cl (h ++ t1) (CreateFolder folder) = false).
Proof.
  intros Hrel (made & rest & Hsorted & -> & Hret & Hexn)%create_folder_structure_run.
  assert (Hmade : ∀ folder, folder ∈ made → folder ∈ folders_to_create file_paths).
  { intros folder Hin. apply elem_of_sorted_folders. rewrite Hsorted.
    apply elem_of_app. by left. }
  pose proof (NoDup_sorted_folders file_paths) as Hnodup.
  pose proof (sort_by_key_sorted depth (iter (folders_to_create file_paths))) as Hord.
  fold (sorted_folders iter file_paths) in Hord.
  rewrite Hsorted in Hnodup, Hord.
  split_and!.
  - intros c (folder & -> & Hin)%list_elem_of_fmap.
    apply Hmade, elem_of_folders_to_create in Hin as (p & rest' & Hp & ->); [|done].
    by exists folder, (folder +:+ "/" +:+ rest'), rest'.
  - apply NoDup_fmap_2; [by intros ?? [= ->]|]. by apply NoDup_app in Hnodup as (? & _).
  - intros t1 t2 parent rest' Ht.
    apply fmap_app_inv in Ht as (l1 & l2' & -> & Ht2 & ->). symmetry in Ht2.
    apply fmap_cons_inv in Ht2 as (child & l2 & [= <-] & -> & ->).
    apply list_elem_of_fmap. exists parent. split; [done|].
    assert (Hchild : parent +:+ "/" +:+ rest' ∈ folders_to_create file_paths).
    { apply Hmade. apply elem_of_app. right. by left. }
    apply elem_of_folders_to_create in Hchild as (p & rest'' & Hp & Hpath); [|done].
    assert (Hparent : parent ∈ folders_to_create file_paths).
    { apply elem_of_folders_to_create; [done|].
      exists p, (rest' +:+ "/" +:+ rest''). split; [done|].
      rewrite Hpath. by rewrite !str_app_assoc. }
    apply elem_of_sorted_folders in Hparent. rewrite Hsorted, <- app_assoc in Hparent.
    apply elem_of_app in Hparent as [?|Hlater]; [done|].
    rewrite <- app_assoc in Hord. apply StronglySorted_app_1_r in Hord.
    pose proof (depth_child parent rest') as Hdepth.
    apply elem_of_cons in Hlater as [Heq|Hlater].
    + rewrite <- Heq in Hdepth. lia.
    + simpl in Hord. apply StronglySorted_inv in Hord as [_ Hle].
      rewrite Forall_forall in Hle. apply Hle in Hlater. unfold key_le in Hlater. lia.
  - intros Hr p folder rest' Hp ->. destruct (Hret Hr) as [-> Hall].
    assert (Hin : folder ∈ made).
    { rewrite app_nil_r in Hsorted. rewrite <- Hsorted.
      apply elem_of_sorted_folders, elem_of_folders_to_create; [done|]. eauto. }
    apply list_elem_of_split in Hin as (l1 & l2 & ->).
    exists (CreateFolder <$> l1), (CreateFolder <$> l2). split.
    + by rewrite fmap_app, fmap_cons.
    + by eapply Hall.
  - intros e (l1 & folder & -> & -> & Hk)%Hexn.
    exists folder, (CreateFolder <$> l1). split_and!; [done| |done].
    by rewrite fmap_app.
Qed.

End Folders.

Section Uploading.

Variable iter : gset string → list string.
Hypothesis iter_elements : ∀ X : gset string, iter X ≡ₚ elements X.
Variable fs : disk.
Variable cl : ops_client.

Lemma upload_attempts_spec (rel_path : string) (is_update : bool) (remaining done : nat)
    (h : list ops_call) :
  let c := upload_call rel_path is_update in
  (0 < remaining)%nat →
  ∃ k, (0 < k ≤ remaining)%nat
    ∧ (∀ j, (j < k - 1)%nat → ops_accepts cl (h ++ replicate (done + j) c) c = false)
    ∧ ((upload_attempts cl rel_path is_update remaining (h ++ replicate done c)
          = (replicate k c, inr ())
        ∧ ops_accepts cl (h ++ replicate (done + (k - 1)) c) c = true)
       ∨ (upload_attempts cl rel_path is_update remaining (h ++ replicate done c)
            = (replicate k c, inl (OpsSyncError (UploadFailed rel_path (OpsCloudStorageError c))))
          ∧ k = remaining
          ∧ ops_accepts cl (h ++ replicate (done + (k - 1)) c) c = false)).
Proof.
  intros c. revert done. induction remaining as [|n IH]; intros done Hpos; [lia|].
  cbn [upload_attempts]. fold c. unfold eff_try.
  assert (ops_invoke cl c (h ++ replicate done c)
          = ([c], if ops_accepts cl (h ++ replicate done c) c then inr ()
                  else inl (OpsCloudStorageError c))) as -> by reflexivity.
  destruct (ops_accepts cl (h ++ replicate done c) c) eqn:Hhere.
  { exists 1%nat. split; [lia|]. split; [intros; lia|].
    left. split; [done|]. by rewrite Nat.add_0_r. }
  destruct n as [|n'].
  { exists 1%nat. split; [lia|]. split; [intros; lia|].
    right. split_and!; [done|done|]. by rewrite Nat.add_0_r. }
  destruct (IH (S done)) as (k & Hk & Hbefore & Hrun); [lia|].
  rewrite replicate_S_end, app_assoc in Hrun.
  exists (S k). split; [lia|]. split.
  - intros [|j] Hj; [by rewrite Nat.add_0_r|].
    replace (done + S j)%nat with (S done + j)%nat by lia. apply Hbefore. lia.
  - replace (done + (S k - 1))%nat with (S done + (k - 1))%nat by lia.
    destruct Hrun as [[-> Hok]|(-> & -> & Hno)]; [left|right]; by split_and!.
Qed.

Lemma upload_file_retries_spec (rel_path : string) (is_update : bool) (max_retries : nat)
    h t r :
  upload_file fs cl rel_path is_update max_retries h = (t, r) →
  let c := upload_call rel_path is_update in
  ∃ k, t = replicate k c
    ∧ (k ≤ max_retries)%nat
    ∧ (∀ j, (j < k - 1)%nat → ops_accepts cl (h ++ replicate j c) c = false)
    ∧ ((0 < k)%nat → disk_exists fs rel_path = Some true ∧ is_Some (disk_stat fs rel_path))
    ∧ (r = inr () →
       disk_exists fs rel_path = Some false ∨ max_retries = 0%nat
       ∨ ((0 < k)%nat ∧ ops_accepts cl (h ++ replicate (k - 1) c) c = true))
    ∧ (∀ e, r = inl e →
         (e = OpsOSError (OSError rel_path) ∧ k = 0%nat
          ∧ disk_exists fs rel_path = None)
         ∨ (e = OpsSyncError (ReadFailed rel_path) ∧ k = 0%nat
            ∧ disk_exists fs rel_path = Some true ∧ disk_stat fs rel_path = None)
         ∨ (e = OpsSyncError (UploadFailed rel_path (OpsCloudStorageError c))
            ∧ k = max_retries ∧ (0 < k)%nat
            ∧ ops_accepts cl (h ++ replicate (k - 1) c) c = false)).
Proof.
  intros Hrun c. unfold upload_file in Hrun.
  destruct (disk_exists fs rel_path) as [[]|] eqn:Hexists.
  3:{ injection Hrun as <- <-. exists 0%nat.
      split_and!; [done|lia|intros; lia|intros; lia|done|].
      intros e [= <-]. by left. }
  2:{ injection Hrun as <- <-. exists 0%nat.
      split_and!; [done|lia|intros; lia|intros; lia|by left|done]. }
  destruct (disk_stat fs rel_path) as [st|] eqn:Hstat.
  2:{ injection Hrun as <- <-. exists 0%nat.
      split_and!; [done|lia|intros; lia|intros; lia|done|].
      intros e [= <-]. by right; left. }
  destruct max_retries as [|n].
  { injection Hrun as <- <-. exists 0%nat.
    split_and!; [done|lia|intros; lia|intros; lia|by right; left|done]. }
  destruct (upload_attempts_spec rel_path is_update (S n) 0 h) as (k & Hk & Hbefore & Hcase);
    [lia|].
  fold c in Hbefore, Hcase. cbn [replicate Nat.add] in Hbefore, Hcase.
  rewrite app_nil_r in Hcase.
  exists k. destruct Hcase as [[Heq Hok]|(Heq & -> & Hno)];
    rewrite Heq in Hrun; injection Hrun as <- <-.
  - split_and!; [done|lia|exact Hbefore|by eauto| |done].
    intros _. right; right. split; [lia|done].
  - split_and!; [done|lia|exact Hbefore|by eauto|done|].
    intros e [= <-]. right; right. split_and!; [done|done|lia|done].
Qed.

(** The loop of [upload_all_files] over any list of paths. *)
Lemma upload_all_loop (l : list string) h t r :
  eff_for_each l (λ rel_path, upload_file fs cl rel_path false 3) h = (t, r) →
  (∀ c, c ∈ t → ∃ p, c = LoadFile p ∧ p ∈ l ∧ disk_exists fs p = Some true
                     ∧ is_Some (disk_stat fs p))
  ∧ (length t ≤ 3 * length l)%nat
  ∧ (r = inr () →
     ∀ p, p ∈ l → disk_exists fs p = Some true →
       ∃ t1 t2, t = t1 ++ LoadFile p :: t2 ∧ ops_accepts cl (h ++ t1) (LoadFile p) = true)
  ∧ (∀ e, r = inl e →
       ∃ p, p ∈ l
            ∧ ((e = OpsOSError (OSError p) ∧ disk_exists fs p = None)
               ∨ (e = OpsSyncError (ReadFailed p)
                  ∧ disk_exists fs p = Some true ∧ disk_stat fs p = None)
               ∨ (e = OpsSyncError (UploadFailed p (OpsCloudStorageError (LoadFile p)))
                  ∧ disk_exists fs p = Some true
                  ∧ ∃ t1, t = t1 ++ replicate 3 (LoadFile p)))).
Proof.
  revert h t r. induction l as [|x l IH]; intros h t r.
  { intros [= <- <-]. split_and!; [by intros ? ?%elem_of_nil|simpl; lia| |done].
    by intros _ ? ?%elem_of_nil. }
  rewrite eff_for_each_cons.
  destruct (upload_file fs cl x false 3 h) as [tx rx] eqn:Hx.
  apply upload_file_retries_spec in Hx as (k & -> & Hk & Hbefore & Hfile & Hret & Hexn).
  change (upload_call x false) with (LoadFile x) in *. cbv zeta in Hbefore, Hret, Hexn.
  assert (Hcalls : ∀ c, c ∈ replicate k (LoadFile x) →
            ∃ p, c = LoadFile p ∧ p ∈ x :: l ∧ disk_exists fs p = Some true
                 ∧ is_Some (disk_stat fs p)).
  { intros c [-> Hpos]%elem_of_replicate. exists x.
    destruct Hfile as [? ?]; [lia|]. split_and!; [done|by left|done|done]. }
  destruct rx as [e|[]].
  { intros [= <- <-]. split_and!; [done|rewrite length_replicate; simpl; lia|done|].
    intros e' [= <-]. exists x. split; [by left|].
    destruct (Hexn e eq_refl) as [(-> & _ & ?)|[(-> & _ & ? & ?)|(-> & -> & _ & _)]].
    - by left.
    - right; left. by split_and!.
    - destruct Hfile as [? _]; [lia|]. right; right. split_and!; [done|done|by exists []]. }
  destruct (eff_for_each l (λ rel_path, upload_file fs cl rel_path false 3)
              (h ++ replicate k (LoadFile x))) as [t2 r2] eqn:Hrest.
  apply IH in Hrest as (Hin & Hlen & Hall & Hfail).
  cbv beta iota. intros [= <- <-]. split_and!.
  - intros c [?|(p & -> & ? & ? & ?)%Hin]%elem_of_app; [by apply Hcalls|].
    exists p. split_and!; [done|by right|done|done].
  - rewrite length_app, length_replicate. simpl. lia.
  - intros Hr p [->|Hp]%elem_of_cons Hexists.
    + destruct (Hret eq_refl) as [?|[?|[Hpos Hok]]]; [congruence|lia|].
      exists (replicate (k - 1) (LoadFile x)), t2. split; [|done].
      assert (replicate k (LoadFile x) = replicate (k - 1) (LoadFile x) ++ [LoadFile x])
        as ->; [|by rewrite <- app_assoc].
      rewrite <- replicate_S_end. f_equal. lia.
    + destruct (Hall Hr p Hp Hexists) as (t1 & t2' & -> & Hok).
      exists (replicate k (LoadFile x) ++ t1), t2'. split; [by rewrite app_assoc|].
      by rewrite app_assoc.
  - intros e (p & Hp & [?|[?|(-> & ? & t1 & ->)]])%Hfail; exists p.
    + split; [by right|by left].
    + split; [by right|by right; left].
    + split; [by right|]. right; right. split_and!; [done|done|].
      exists (replicate k (LoadFile x) ++ t1). by rewrite app_assoc.
Qed.

(** X13. [upload_file] makes at most [max_retries] calls, all the same [load] (or
    [reload] for an update), a new one only after the one before was refused,
    and none at all unless [exists()] answers [True] and [stat] succeeds.
    It returns without uploading when [exists()] answers [False]; it
    returns after a call that was accepted.  It raises in three cases and
    no other: the bare [OSError] of an [exists()] that raises, which no
    handler of [upload_file] catches; a [SyncError] for a failed [stat];
    and a [SyncError] for the refusal of the last allowed attempt. *)
Theorem upload_file_retries (rel_path : string) (is_update : bool) (max_retries : nat)
    h t r :
  upload_file fs cl rel_path is_update max_retries h = (t, r) →
  let c := upload_call rel_path is_update in
  ∃ k, t = replicate k c
    ∧ (k ≤ max_retries)%nat
    ∧ (∀ j, (j < k - 1)%nat → ops_accepts cl (h ++ replicate j c) c = false)
    ∧ ((0 < k)%nat → disk_exists fs rel_path = Some true ∧ is_Some (disk_stat fs rel_path))
    ∧ (r = inr () →
       disk_exists fs rel_path = Some false ∨ max_retries = 0%nat
       ∨ ((0 < k)%nat ∧ ops_accepts cl (h ++ replicate (k - 1) c) c = true))
    ∧ (∀ e, r = inl e →
         (e = OpsOSError (OSError rel_path) ∧ k = 0%nat
          ∧ disk_exists fs rel_path = None)
         ∨ (e = OpsSyncError (ReadFailed rel_path) ∧ k = 0%nat
            ∧ disk_exists fs rel_path = Some true ∧ disk_stat fs rel_path = None)
         ∨ (e = OpsSyncError (UploadFailed rel_path (OpsCloudStorageError c))
            ∧ k = max_retries ∧ (0 < k)%nat
            ∧ ops_accepts cl (h ++ replicate (k - 1) c) c = false)).
Proof. apply upload_file_retries_spec. Qed.

Lemma length_iter_dom {V} (m : gmap string V) : length (iter (dom m)) = size m.
Proof.
  rewrite <- size_dom. unfold size, set_size. simpl.
  by rewrite (Permutation_length (iter_elements (dom m))).
Qed.

Lemma upload_all_files_spec (local_files : local_state) h t r :
  upload_all_files iter fs cl local_files h = (t, r) →
  (∀ c, c ∈ t → ∃ p, c = LoadFile p ∧ p ∈ dom local_files ∧ disk_exists fs p = Some true
                     ∧ is_Some (disk_stat fs p))
  ∧ (length t ≤ 3 * size local_files)%nat
  ∧ (r = inr () →
     ∀ p, p ∈ dom local_files → disk_exists fs p = Some true →
       ∃ t1 t2, t = t1 ++ LoadFile p :: t2 ∧ ops_accepts cl (h ++ t1) (LoadFile p) = true)
  ∧ (∀ e, r = inl e →
       ∃ p, p ∈ dom local_files
            ∧ ((e = OpsOSError (OSError p) ∧ disk_exists fs p = None)
               ∨ (e = OpsSyncError (ReadFailed p)
                  ∧ disk_exists fs p = Some true ∧ disk_stat fs p = None)
               ∨ (e = OpsSyncError (UploadFailed p (OpsCloudStorageError (LoadFile p)))
                  ∧ disk_exists fs p = Some true
                  ∧ ∃ t1, t = t1 ++ replicate 3 (LoadFile p)))).
Proof.
  unfold upload_all_files. intros (Hin & Hlen & Hall & Hfail)%upload_all_loop.
  rewrite length_iter_dom in Hlen. split_and!; [|done| |].
  - intros c (p & ? & ?%(elem_of_iter iter iter_elements) & ?)%Hin. by exists p.
  - intros Hr p Hp%(elem_of_iter iter iter_elements). by apply Hall.
  - intros e (p & ?%(elem_of_iter iter iter_elements) & ?)%Hfail. by exists p.
Qed.


End Uploading.

(** ** Inverting a sequence of computations *)

Lemma eff_bind_inv {C X A B} (m : Eff C X A) (f : A → Eff C X B) h t r :
  (m ≫= f) h = (t, r) →
  (∃ e, m h = (t, inl e) ∧ r = inl e)
  ∨ (∃ a t1 t2, m h = (t1, inr a) ∧ f a (h ++ t1) = (t2, r) ∧ t = t1 ++ t2).
Proof.
  rewrite eff_bind_run. destruct (m h) as [t1 [e|a]].
  - intros [= <- <-]. left. eauto.
  - destruct (f a (h ++ t1)) as [t2 r2] eqn:Hf. intros [= <- <-]. right. eauto 10.
Qed.

Lemma scan_cloud_cases (cl : ops_client) (max_retries : nat) (h t : list ops_call) r :
  scan_cloud cl max_retries h = (t, r) →
  match r with
  | inr (Some snapshot) =>
      ∃ k, t = replicate (S k) GetRecursiveInfo ∧ (k < max_retries)%nat
        ∧ ops_accepts cl (h ++ replicate k GetRecursiveInfo) GetRecursiveInfo = true
        ∧ snapshot = collect_files (ops_cloud_folder cl)
                       (ops_listing cl (h ++ replicate k GetRecursiveInfo))
        ∧ ∀ j, (j < k)%nat →
            ops_accepts cl (h ++ replicate j GetRecursiveInfo) GetRecursiveInfo = false
  | inr None => max_retries = 0%nat ∧ t = []
  | inl e =>
      e = OpsCloudStorageError GetRecursiveInfo
      ∧ t = replicate max_retries GetRecursiveInfo ∧ (0 < max_retries)%nat
      ∧ ∀ j, (j < max_retries)%nat →
          ops_accepts cl (h ++ replicate j GetRecursiveInfo) GetRecursiveInfo = false
  end.
Proof.
  revert h t r. induction max_retries as [|n IH]; intros h t r.
  { by intros [= <- <-]. }
  cbn [scan_cloud]. unfold eff_try. rewrite eff_bind_run.
  assert (get_recursive_info cl h
          = ([GetRecursiveInfo],
             if ops_accepts cl h GetRecursiveInfo then inr (ops_listing cl h)
             else inl (OpsCloudStorageError GetRecursiveInfo))) as -> by reflexivity.
  destruct (ops_accepts cl h GetRecursiveInfo) eqn:Hhere.
  { intros [= <- <-]. exists 0%nat. simpl. rewrite app_nil_r.
    split_and!; [done|lia|done|done|intros; lia]. }
  destruct n as [|n'].
  { intros [= <- <-]. split_and!; [done|done|lia|].
    intros j Hj. replace j with 0%nat by lia. simpl. by rewrite app_nil_r. }
  destruct (scan_cloud cl (S n') (h ++ [GetRecursiveInfo])) as [t2 r2] eqn:Hrest.
  apply IH in Hrest. intros [= <- <-].
  assert (Hshift : ∀ j, (h ++ [GetRecursiveInfo]) ++ replicate j GetRecursiveInfo
                        = h ++ replicate (S j) GetRecursiveInfo).
  { intros j. by rewrite <- app_assoc. }
  destruct r2 as [e|[snapshot|]].
  - destruct Hrest as (-> & -> & _ & Hall). split_and!; [done|done|lia|].
    intros [|j] Hj; [simpl; by rewrite app_nil_r|]. rewrite <- Hshift. apply Hall. lia.
  - destruct Hrest as (k & -> & Hk & Hok & -> & Hbefore).
    exists (S k). rewrite <- Hshift. split_and!; [done|lia|done|done|].
    intros [|j] Hj; [simpl; by rewrite app_nil_r|]. rewrite <- Hshift. apply Hbefore. lia.
  - by destruct Hrest.
Qed.

Lemma validate_sync_cases (cl : ops_client) (local_files : local_state) h t r :
  validate_sync cl local_files h = (t, r) →
  (∃ k, (k ≤ 5)%nat ∧ t = replicate k GetRecursiveInfo)
  ∧ (r = inr () →
     ∃ k, t = replicate (S k) GetRecursiveInfo
       ∧ ops_accepts cl (h ++ replicate k GetRecursiveInfo) GetRecursiveInfo = true
       ∧ dom local_files
           ⊆ dom (collect_files (ops_cloud_folder cl)
                    (ops_listing cl (h ++ replicate k GetRecursiveInfo)))).
Proof.
  unfold validate_sync.
  intros [(e & Hscan & ->)|(scanned & t1 & t2 & Hscan & Hrest & ->)]%eff_bind_inv;
    apply scan_cloud_cases in Hscan.
  { destruct Hscan as (_ & -> & _). split; [exists 5%nat; split; [lia|done]|done]. }
  destruct scanned as [snapshot|]; [|destruct Hscan; lia].
  destruct Hscan as (k & -> & Hk & Hok & -> & _).
  case_bool_decide as Hmissing; injection Hrest as <- <-; rewrite app_nil_r.
  { split; [exists (S k); split; [lia|done]|done]. }
  split; [exists (S k); split; [lia|done]|]. intros _. exists k. split_and!; [done|done|].
  intros x Hx. match goal with |- x ∈ dom ?s => destruct (decide (x ∈ dom s)) as [|Hno] end;
    [done|].
  exfalso. eapply (not_elem_of_empty (C:=gset string) x). rewrite <- Hmissing.
  by apply elem_of_difference.
Qed.

(** ** validate_sync *)

Section Validate.

Variable cl : ops_client.

(** X15. [validate_sync] only asks for listings, between one and five.  It
    returns exactly when the scan gave a snapshot that holds every local
    path; otherwise it raises the scan's own exception when no listing
    arrived, or a [SyncError] counting the local paths the snapshot lacks.
    The [None] of a scan without attempts never occurs. *)
Theorem validate_sync_checks_one_listing (local_files : local_state) h t r :
  validate_sync cl local_files h = (t, r) →
  let scanned := scan_cloud_files_with_retry (ops_cloud_folder cl) (listing_attempt cl h) 5 in
  (∃ k, (0 < k ≤ 5)%nat ∧ t = replicate k GetRecursiveInfo)
  ∧ (r = inr () ↔ ∃ snapshot, scanned = inr (Some snapshot) ∧ dom local_files ⊆ dom snapshot)
  ∧ (∀ e, r = inl e →
       (e = OpsCloudStorageError GetRecursiveInfo ∧ ∃ e', scanned = inl e')
       ∨ ∃ snapshot,
           scanned = inr (Some snapshot)
           ∧ e = OpsSyncError (FilesMissing (size (dom local_files ∖ dom snapshot)))
           ∧ (0 < size (dom local_files ∖ dom snapshot))%nat).
Proof.
  intros Hrun scanned. unfold validate_sync in Hrun. rewrite eff_bind_run in Hrun.
  destruct (scan_cloud_run cl 5 h) as (k & Hk & Hpos & Hscan).
  pose proof (scan_attempts_spec (ops_cloud_folder cl) (listing_attempt cl h) 5 0) as Hspec.
  fold (scan_cloud_files_with_retry (ops_cloud_folder cl) (listing_attempt cl h) 5)
    in Hspec.
  fold scanned in Hscan, Hspec. rewrite Hscan in Hrun.
  split; [exists k; split; [lia|]|].
  - destruct scanned as [e|[snapshot|]]; [by injection Hrun as <- _|..].
    + destruct (bool_decide _) in Hrun; injection Hrun as <- _; by rewrite app_nil_r.
    + injection Hrun as <- _. by rewrite app_nil_r.
  - destruct scanned as [e|[snapshot|]]; [| |lia].
    + injection Hrun as _ <-. split.
      * split; [done|]. by intros (? & ? & _).
      * intros e' [= <-]. left. eauto.
    + case_bool_decide as Hmissing; injection Hrun as _ <-.
      * split.
        -- split; [done|]. intros (snapshot' & [= <-] & Hsub).
           exfalso. apply Hmissing. apply set_eq. intros x. rewrite elem_of_difference.
           split; [|by intros ?%elem_of_empty]. intros [? ?]. exfalso. auto.
        -- intros e [= <-]. right. exists snapshot. split_and!; [done|done|].
           destruct (decide (size (dom local_files ∖ dom snapshot) = 0%nat)) as [H0|]; [|lia].
           apply size_empty_iff in H0. exfalso. apply Hmissing. by apply leibniz_equiv.
      * split; [|done]. split; [|done]. intros _. exists snapshot. split; [done|].
        intros x Hx. destruct (decide (x ∈ dom snapshot)) as [|Hno]; [done|].
        exfalso.
        assert (x ∈ dom local_files ∖ dom snapshot) as Hin by (by apply elem_of_difference).
        rewrite Hmissing in Hin. by apply elem_of_empty in Hin.
Qed.

End Validate.

(** ** FileSynchronizer.initial_sync *)

Section InitialSync.

Variable iter : gset string → list string.
Hypothesis iter_elements : ∀ X : gset string, iter X ≡ₚ elements X.
Variable fs : disk.
Variable cl : ops_client.

Lemma initial_sync_stages_spec (local_files : local_state) h t r :
  initial_sync_stages iter fs cl local_files h = (t, r) →
  ∃ t_scan t_clean t_folders t_upload t_check scanned,
    t = t_scan ++ t_clean ++ t_folders ++ t_upload ++ t_check
    ∧ scan_cloud cl 5 h = (t_scan, scanned)
    ∧ (∀ c, c ∈ t_clean →
         ∃ snapshot key it, scanned = inr (Some snapshot) ∧ snapshot !! key = Some it
                            ∧ c = DeleteFile (item_path it))
    ∧ (∀ c, c ∈ t_folders →
         ∃ folder, c = CreateFolder folder
                   ∧ folder ∈ folders_to_create (iter (dom local_files)))
    ∧ (∀ c, c ∈ t_upload →
         ∃ p, c = LoadFile p ∧ p ∈ dom local_files ∧ disk_exists fs p = Some true)
    ∧ (∃ k, (k ≤ 5)%nat ∧ t_check = replicate k GetRecursiveInfo)
    ∧ (t_folders ++ t_upload ++ t_check ≠ [] ∨ r = inr () →
       ∀ snapshot key it, scanned = inr (Some snapshot) → snapshot !! key = Some it →
         DeleteFile (item_path it) ∈ t_clean)
    ∧ (r = inr () →
       (∀ folder, folder ∈ folders_to_create (iter (dom local_files)) →
          CreateFolder folder ∈ t_folders)
       ∧ (∀ p, p ∈ dom local_files → disk_exists fs p = Some true → LoadFile p ∈ t_upload)
       ∧ ∃ k, t_check = replicate (S k) GetRecursiveInfo
           ∧ ops_accepts cl
               (h ++ t_scan ++ t_clean ++ t_folders ++ t_upload
                  ++ replicate k GetRecursiveInfo) GetRecursiveInfo = true
           ∧ dom local_files
               ⊆ dom (collect_files (ops_cloud_folder cl)
                        (ops_listing cl
                           (h ++ t_scan ++ t_clean ++ t_folders ++ t_upload
                              ++ replicate k GetRecursiveInfo)))).
Proof.
  unfold initial_sync_stages.
  intros [(e & Hscan & ->)|(scanned & t1 & ta & Hscan & Hrun & ->)]%eff_bind_inv.
  { exists t, [], [], [], [], (inl e). rewrite !app_nil_r.
    split_and!; [done|done|by intros ? ?%elem_of_nil..|exists 0%nat; split; [lia|done]| |done].
    intros [Hne|?]; [by destruct Hne|done]. }
  assert (Hdeletes : ∀ t2 r2,
            match scanned with
            | Some cloud_files =>
                if bool_decide (cloud_files ≠ ∅)
                then clean_cloud_storage iter cl cloud_files else mret ()
            | None => mret ()
            end (h ++ t1) = (t2, r2) →
            (∀ c, c ∈ t2 →
               ∃ snapshot key it,
                 inr (A:=ops_exn) scanned = inr (Some snapshot)
                 ∧ snapshot !! key = Some it ∧ c = DeleteFile (item_path it))
            ∧ (r2 = inr () →
               ∀ snapshot key it,
                 inr (A:=ops_exn) scanned = inr (Some snapshot) →
                 snapshot !! key = Some it → DeleteFile (item_path it) ∈ t2)).
  { intros t2 r2 Hclean. destruct scanned as [snapshot|].
    2:{ injection Hclean as <- <-. split; [by intros ? ?%elem_of_nil|done]. }
    case_bool_decide as Hne.
    - apply (clean_cloud_storage_spec iter iter_elements) in Hclean as (Hin & _ & Hall & _).
      split.
      + intros c Hc. destruct (Hin c Hc) as (key & it & ? & ?). by exists snapshot, key, it.
      + intros Hr ? key it [= <-] Hit.
        destruct (Hall Hr key it Hit) as (l1 & l2 & -> & _).
        apply elem_of_app. right. by left.
    - injection Hclean as <- <-. split; [by intros ? ?%elem_of_nil|].
      intros _ ? key it [= <-] Hit. rewrite Hne in Hit. by rewrite lookup_empty in Hit. }
  apply eff_bind_inv in Hrun as [(e & Hclean & ->)|([] & t2 & tb & Hclean & Hrun & ->)];
    apply Hdeletes in Hclean as [Hin Hwiped]; clear Hdeletes.
  { exists t1, ta, [], [], [], (inr scanned). rewrite !app_nil_r.
    split_and!; [done|done|done|by intros ? ?%elem_of_nil..|
                 exists 0%nat; split; [lia|done]| |done].
    intros [Hne|?]; [by destruct Hne|done]. }
  specialize (Hwiped eq_refl).
  assert (Hfolders : ∀ t3 r3,
            create_folder_structure iter cl (iter (dom local_files)) ((h ++ t1) ++ t2)
            = (t3, r3) →
            (∀ c, c ∈ t3 →
               ∃ folder, c = CreateFolder folder
                         ∧ folder ∈ folders_to_create (iter (dom local_files)))
            ∧ (r3 = inr () →
               ∀ folder, folder ∈ folders_to_create (iter (dom local_files)) →
                 CreateFolder folder ∈ t3)).
  { intros t3 r3 (made & rest & Hsorted & -> & Hret & _)%create_folder_structure_run. split.
    - intros c (folder & -> & Hin')%list_elem_of_fmap. exists folder. split; [done|].
      apply (elem_of_sorted_folders iter iter_elements). rewrite Hsorted.
      apply elem_of_app. by left.
    - intros Hr folder Hf. destruct (Hret Hr) as [-> _]. rewrite app_nil_r in Hsorted.
      apply list_elem_of_fmap. exists folder. split; [done|].
      rewrite <- Hsorted. by apply (elem_of_sorted_folders iter iter_elements). }
  apply eff_bind_inv in Hrun as [(e & Hfold & ->)|([] & t3 & tc & Hfold & Hrun & ->)];
    apply Hfolders in Hfold as [Hmade Hcreated]; clear Hfolders.
  { exists t1, t2, tb, [], [], (inr scanned). rewrite !app_nil_r.
    split_and!; [done|done|done|done|by intros ? ?%elem_of_nil|
                 exists 0%nat; split; [lia|done]| |done].
    intros _. exact Hwiped. }
  specialize (Hcreated eq_refl).
  assert (Huploads : ∀ t4 r4,
            upload_all_files iter fs cl local_files (((h ++ t1) ++ t2) ++ t3) = (t4, r4) →
            (∀ c, c ∈ t4 → ∃ p, c = LoadFile p ∧ p ∈ dom local_files
                                ∧ disk_exists fs p = Some true)
            ∧ (r4 = inr () →
               ∀ p, p ∈ dom local_files → disk_exists fs p = Some true → LoadFile p ∈ t4)).
  { intros t4 r4 (Hloads & _ & Hall & _)%(upload_all_files_spec iter iter_elements). split.
    - intros c (p & ? & ? & ? & _)%Hloads. by exists p.
    - intros Hr p Hp Hexists. destruct (Hall Hr p Hp Hexists) as (l1 & l2 & -> & _).
      apply elem_of_app. right. by left. }
  apply eff_bind_inv in Hrun as [(e & Hup & ->)|([] & t4 & t5 & Hup & Hval & ->)];
    apply Huploads in Hup as [Hloads Hloaded]; clear Huploads.
  { exists t1, t2, t3, tc, [], (inr scanned). rewrite !app_nil_r.
    split_and!; [done|done|done|done|done|exists 0%nat; split; [lia|done]| |done].
    intros _. exact Hwiped. }
  specialize (Hloaded eq_refl).
  apply validate_sync_cases in Hval as [Hk Hvalid].
  exists t1, t2, t3, t4, t5, (inr scanned).
  split_and!; [done|done|done|done|done|done|by intros _|].
  intros Hr. split_and!; [done|done|].
  destruct (Hvalid Hr) as (k & -> & Hok & Hsub). exists k.
  rewrite <- !app_assoc in Hok, Hsub. by split_and!.
Qed.

Lemma initial_sync_cases (self : FileSynchronizer) (local_files : local_state) h t r self' :
  initial_sync iter fs cl self local_files h = (t, r, self') →
  (local_files = ∅ ∧ t = [] ∧ r = inr () ∧ self' = self)
  ∨ (local_files ≠ ∅
     ∧ ((∃ e, initial_sync_stages iter fs cl local_files h = (t, inl e)
              ∧ r = inl (OpsSyncError (InitialSyncFailed e)) ∧ self' = self)
        ∨ (∃ t1 t2 r2,
             initial_sync_stages iter fs cl local_files h = (t1, inr ())
             ∧ scan_cloud cl 3 (h ++ t1) = (t2, r2) ∧ t = t1 ++ t2
             ∧ match r2 with
               | inl e => r = inl (OpsSyncError (InitialSyncFailed e))
                          ∧ self' = commit self local_files (_last_cloud_state self)
               | inr (Some cloud_files) =>
                   r = inr () ∧ self' = commit self local_files cloud_files
               | inr None => False
               end))).
Proof.
  unfold initial_sync. intros Hrun. case_bool_decide as Hempty.
  { injection Hrun as <- <- <-. by left. }
  right. split; [done|].
  destruct (initial_sync_stages iter fs cl local_files h) as [t1 [e|[]]] eqn:Hstages.
  { injection Hrun as <- <- <-. left. by exists e. }
  destruct (scan_cloud cl 3 (h ++ t1)) as [t2 r2] eqn:Hscan.
  right. exists t1, t2, r2. pose proof (scan_cloud_cases _ _ _ _ _ Hscan) as Hr2.
  destruct r2 as [e|[cloud_files|]].
  - injection Hrun as <- <- <-. by split_and!.
  - injection Hrun as <- <- <-. by split_and!.
  - destruct Hr2; lia.
Qed.

(** X16. With a local folder that is not empty, the calls of [initial_sync] come
    in five blocks: at most five listings; deletes, only of entries of the
    snapshot that first scan returned; folder creations, only of folders of
    the local paths; uploads, only of local paths that exist on disk; and at
    most eight listings.  Once anything at all follows the deletes, every
    entry of that first snapshot has been deleted: the remote is wiped
    before anything is created or uploaded. *)
Theorem initial_sync_wipes_before_uploading
    (self : FileSynchronizer) (local_files : local_state) h t r self' :
  local_files ≠ ∅ →
  initial_sync iter fs cl self local_files h = (t, r, self') →
  ∃ t_scan t_clean t_folders t_upload t_check scanned,
    t = t_scan ++ t_clean ++ t_folders ++ t_upload ++ t_check
    ∧ scan_cloud cl 5 h = (t_scan, scanned)
    ∧ (∀ c, c ∈ t_clean →
         ∃ snapshot key it, scanned = inr (Some snapshot) ∧ snapshot !! key = Some it
                            ∧ c = DeleteFile (item_path it))
    ∧ (∀ c, c ∈ t_folders →
         ∃ folder, c = CreateFolder folder
                   ∧ folder ∈ folders_to_create (iter (dom local_files)))
    ∧ (∀ c, c ∈ t_upload →
         ∃ p, c = LoadFile p ∧ p ∈ dom local_files ∧ disk_exists fs p = Some true)
    ∧ (∃ k, (k ≤ 8)%nat ∧ t_check = replicate k GetRecursiveInfo)
    ∧ (t_folders ++ t_upload ++ t_check ≠ [] →
       ∀ snapshot key it, scanned = inr (Some snapshot) → snapshot !! key = Some it →
         DeleteFile (item_path it) ∈ t_clean).
Proof.
  intros Hne [(? & _)|(_ & [(e & Hstages & _)|(t1 & t2 & r2 & Hstages & Hscan & -> & _)])]
    %initial_sync_cases; [done|..];
    apply initial_sync_stages_spec in Hstages
      as (t_scan & t_clean & t_folders & t_upload & t_check & scanned
          & -> & Hfirst & Hdel & Hfold & Hup & (k & Hk & ->) & Hwiped & _).
  - exists t_scan, t_clean, t_folders, t_upload, (replicate k GetRecursiveInfo), scanned.
    split_and!; [done..|exists k; split; [lia|done]|]. intros ?. apply Hwiped. by left.
  - assert (∃ k2, (k2 ≤ 3)%nat ∧ t2 = replicate k2 GetRecursiveInfo) as (k2 & Hk2 & ->).
    { apply scan_cloud_cases in Hscan. destruct r2 as [e|[snapshot|]].
      - destruct Hscan as (_ & -> & _). by exists 3%nat.
      - destruct Hscan as (k2 & -> & ? & _). exists (S k2). split; [lia|done].
      - destruct Hscan; lia. }
    exists t_scan, t_clean, t_folders, t_upload,
      (replicate k GetRecursiveInfo ++ replicate k2 GetRecursiveInfo), scanned.
    split_and!; [by rewrite <- !app_assoc|done..| |].
    + exists (k + k2)%nat. split; [lia|]. by rewrite replicate_add.
    + intros _. apply Hwiped. by right.
Qed.

(** X17. The baselines after [initial_sync].  The client is never replaced.
    With an empty local folder nothing is called and nothing changes.  Every
    exception comes out wrapped in one [SyncError]; the remote baseline is
    then untouched, and the local baseline is untouched too unless the
    failure is the very last scan, all three attempts refused, in which
    case the local baseline has already been written.  On success the local
    baseline is the local snapshot, the remote baseline is the snapshot of
    the last listing made, every local path that exists on disk was
    uploaded, and some listing showed every local path. *)
Theorem initial_sync_baselines
    (self : FileSynchronizer) (local_files : local_state) h t r self' :
  initial_sync iter fs cl self local_files h = (t, r, self') →
  cloud_client self' = cloud_client self
  ∧ (local_files = ∅ → t = [] ∧ r = inr () ∧ self' = self)
  ∧ (∀ e, r = inl e →
       ∃ cause, e = OpsSyncError (InitialSyncFailed cause)
         ∧ _last_cloud_state self' = _last_cloud_state self
         ∧ (_last_local_state self' = _last_local_state self
            ∨ (_last_local_state self' = local_files
               ∧ cause = OpsCloudStorageError GetRecursiveInfo
               ∧ ∃ t1, t = t1 ++ replicate 3 GetRecursiveInfo)))
  ∧ (r = inr () → local_files ≠ ∅ →
     _last_local_state self' = local_files
     ∧ (∃ t1, t = t1 ++ [GetRecursiveInfo]
          ∧ ops_accepts cl (h ++ t1) GetRecursiveInfo = true
          ∧ _last_cloud_state self'
            = collect_files (ops_cloud_folder cl) (ops_listing cl (h ++ t1)))
     ∧ (∀ p, p ∈ dom local_files → disk_exists fs p = Some true → LoadFile p ∈ t)
     ∧ (∃ t1 t2, t = t1 ++ GetRecursiveInfo :: t2
          ∧ ops_accepts cl (h ++ t1) GetRecursiveInfo = true
          ∧ dom local_files
              ⊆ dom (collect_files (ops_cloud_folder cl) (ops_listing cl (h ++ t1))))).
Proof.
  intros [(-> & -> & -> & ->)
         |(Hne & [(e & Hstages & -> & ->)
                 |(t1 & t2 & r2 & Hstages & Hscan & -> & Hr2)])]%initial_sync_cases.
  - split_and!; [done|done|done|done].
  - split_and!; [done|done| |done].
    intros ? [= <-]. exists e. split_and!; [done|done|by left].
  - apply scan_cloud_cases in Hscan. destruct r2 as [e|[cloud_files|]]; [| |done].
    + destruct Hr2 as [-> ->]. destruct Hscan as (-> & -> & _).
      split_and!; [done|done| |done].
      intros ? [= <-]. exists (OpsCloudStorageError GetRecursiveInfo).
      split_and!; [done|done|]. right. split_and!; [done|done|by exists t1].
    + destruct Hr2 as [-> ->]. destruct Hscan as (k & -> & _ & Hok & -> & _).
      split_and!; [done|done|done|]. intros _ _.
      apply initial_sync_stages_spec in Hstages
        as (t_scan & t_clean & t_folders & t_upload & t_check & scanned
            & -> & _ & _ & _ & _ & _ & _ & Hdone).
      destruct (Hdone eq_refl) as (_ & Hloaded & kv & -> & Hvalid & Hsub).
      split_and!; [done| | |].
      * set (T := t_scan ++ t_clean ++ t_folders ++ t_upload
                    ++ replicate (S kv) GetRecursiveInfo) in *.
        exists (T ++ replicate k GetRecursiveInfo). split_and!.
        -- by rewrite replicate_S_end, app_assoc.
        -- by rewrite app_assoc.
        -- simpl. by rewrite app_assoc.
      * intros p Hp Hexists. rewrite !elem_of_app. left. right. right. right. left.
        by apply Hloaded.
      * exists (t_scan ++ t_clean ++ t_folders ++ t_upload ++ replicate kv GetRecursiveInfo),
          (replicate (S k) GetRecursiveInfo).
        split_and!; [|done|done].
        rewrite replicate_S_end, <- !app_assoc. done.
Qed.

End InitialSync.

(** ** YandexDiskClient.get_recursive_info *)

Section Walk.

Variable fetch : string → option (list item).

Lemma elem_of_dir_paths (items : list item) (p : string) :
  p ∈ YandexDiskClient.dir_paths items ↔ ∃ d, d ∈ items ∧ is_dir d ∧ item_path d = p.
Proof.
  unfold YandexDiskClient.dir_paths. rewrite list_elem_of_fmap. split.
  - intros (d & -> & [? ?]%list_elem_of_filter). by exists d.
  - intros (d & ? & ? & <-). exists d. split; [done|]. by apply list_elem_of_filter.
Qed.

Lemma walk_returns (fuel : nat) (stack : list string) (acc out : list item) :
  YandexDiskClient.walk fetch fuel stack acc = Some (inr out) →
  ∃ more, out = acc ++ more
    ∧ (∀ p, p ∈ stack → ∃ items, fetch p = Some items ∧ items ⊆ more)
    ∧ (∀ d, d ∈ more → is_dir d → ∃ items, fetch (item_path d) = Some items ∧ items ⊆ more)
    ∧ (∀ it, it ∈ more →
         ∃ folder items, fetch folder = Some items ∧ it ∈ items
           ∧ (folder ∈ stack ∨ ∃ d, d ∈ more ∧ is_dir d ∧ item_path d = folder)).
Proof.
  revert stack acc out.
  induction fuel as [|fuel IH]; intros [|current_path stack] acc out; simpl.
  - intros [= <-]. exists []. rewrite app_nil_r.
    split_and!; [done|by intros ? ?%elem_of_nil..].
  - done.
  - intros [= <-]. exists []. rewrite app_nil_r.
    split_and!; [done|by intros ? ?%elem_of_nil..].
  - destruct (fetch current_path) as [items|] eqn:Hfetch; [|done].
    intros (more & -> & Hstack & Hdirs & Hsound)%IH.
    exists (items ++ more). split_and!.
    + by rewrite app_assoc.
    + intros p [->|Hp]%elem_of_cons.
      * exists items. split; [done|]. intros x ?. apply elem_of_app. by left.
      * destruct (Hstack p) as (its & ? & Hsub); [apply elem_of_app; by right|].
        exists its. split; [done|]. intros x ?%Hsub. apply elem_of_app. by right.
    + intros d [Hd|Hd]%elem_of_app Hdir.
      * destruct (Hstack (item_path d)) as (its & ? & Hsub).
        { apply elem_of_app. left. apply elem_of_reverse, elem_of_dir_paths. by exists d. }
        exists its. split; [done|]. intros x ?%Hsub. apply elem_of_app. by right.
      * destruct (Hdirs d Hd Hdir) as (its & ? & Hsub).
        exists its. split; [done|]. intros x ?%Hsub. apply elem_of_app. by right.
    + intros it [Hit|Hit]%elem_of_app.
      * exists current_path, items. split_and!; [done|done|]. left. by left.
      * destruct (Hsound it Hit) as (folder & its & ? & ? & Hfrom).
        exists folder, its. split_and!; [done|done|].
        destruct Hfrom as [[Hpushed|?]%elem_of_app|(d & ? & ? & ?)].
        -- apply elem_of_reverse, elem_of_dir_paths in Hpushed as (d & ? & ? & ?).
           right. exists d. split_and!; [|done|done]. apply elem_of_app. by left.
        -- left. by right.
        -- right. exists d. split_and!; [|done|done]. apply elem_of_app. by right.
Qed.

Lemma walk_raises (fuel : nat) (stack : list string) (acc : list item) e :
  YandexDiskClient.walk fetch fuel stack acc = Some (inl e) →
  e = OpsCloudStorageError GetRecursiveInfo ∧ ∃ folder, fetch folder = None.
Proof.
  revert stack acc. induction fuel as [|fuel IH]; intros [|current_path stack] acc; simpl;
    [done..|].
  destruct (fetch current_path) as [items|] eqn:Hfetch; [by apply IH|].
  intros [= <-]. eauto.
Qed.

Lemma walk_total (weight : string → nat) (fuel : nat) (stack : list string)
    (acc : list item) :
  weights_decrease fetch weight →
  (sum_list_with weight stack < fuel)%nat →
  is_Some (YandexDiskClient.walk fetch fuel stack acc).
Proof.
  intros Hw. revert stack acc.
  induction fuel as [|fuel IH]; intros [|current_path stack] acc; simpl; [eauto|lia|eauto|].
  intros Hfuel. destruct (fetch current_path) as [items|] eqn:Hfetch; [|eauto].
  apply IH. rewrite sum_list_with_app, sum_list_with_reverse.
  specialize (Hw current_path items Hfetch). lia.
Qed.

End Walk.

Section Listing.

(** X18. On a remote tree that is finite (its folders can be weighed so that the
    folders listed in a folder weigh less than it) the walk of
    [get_recursive_info] ends.  When it returns, the result holds the whole
    listing of the root and of every folder item in the result, and nothing
    else: every item comes from the listing of the root or of a folder item
    of the result.  It raises, a [CloudStorageError], only when the listing
    of some folder failed. *)
Theorem get_recursive_info_lists_every_folder
    (fetch : string → option (list item)) (cloud_folder : string)
    (weight : string → nat) (fuel : nat) :
  weights_decrease fetch weight →
  (weight ("/" +:+ cloud_folder) < fuel)%nat →
  match YandexDiskClient.get_recursive_info fetch cloud_folder fuel with
  | None => False
  | Some (inr all_items) =>
      (∃ items, fetch ("/" +:+ cloud_folder) = Some items ∧ items ⊆ all_items)
      ∧ (∀ d, d ∈ all_items → is_dir d →
           ∃ items, fetch (item_path d) = Some items ∧ items ⊆ all_items)
      ∧ (∀ it, it ∈ all_items →
           ∃ folder items, fetch folder = Some items ∧ it ∈ items
             ∧ (folder = "/" +:+ cloud_folder
                ∨ ∃ d, d ∈ all_items ∧ is_dir d ∧ item_path d = folder))
  | Some (inl e) =>
      e = OpsCloudStorageError GetRecursiveInfo ∧ ∃ folder, fetch folder = None
  end.
Proof.
  intros Hw Hfuel. unfold YandexDiskClient.get_recursive_info.
  destruct (walk_total fetch weight fuel ["/" +:+ cloud_folder] [] Hw) as [res Hres].
  { simpl. lia. }
  rewrite Hres. destruct res as [e|all_items].
  - by apply walk_raises in Hres.
  - apply walk_returns in Hres as (more & -> & Hstack & Hdirs & Hsound). simpl.
    split_and!; [|done|].
    + apply Hstack. by left.
    + intros it Hit. destruct (Hsound it Hit) as (folder & items & ? & ? & Hfrom).
      exists folder, items. split_and!; [done|done|].
      destruct Hfrom as [->%list_elem_of_singleton|?]; [by left|by right].
Qed.

End Listing.

(** ** A tick with nothing new on disk *)

Section QuietTick.

Variable iter : gset string → list string.
Variable strptime_timestamp : string → option Z.

Lemma sync_unchanged_local self fs get_recursive_info h :
  _last_local_state self ≠ ∅ →
  ∃ t r, sync iter strptime_timestamp self (_last_local_state self) fs get_recursive_info h
         = (t, r)
    ∧ calls_of t = []
    ∧ (∀ self', r = inr self' →
         _last_local_state self' = _last_local_state self
         ∧ ∃ current_cloud,
             scan_cloud_files_with_retry (cloud_folder (cloud_client self))
               get_recursive_info 3 = inr (Some current_cloud)
             ∧ (check_cloud_changes current_cloud (_last_cloud_state self) = true →
                _last_cloud_state self' = current_cloud)
             ∧ (check_cloud_changes current_cloud (_last_cloud_state self) = false →
                self' = self)).
Proof.
  intros Hne.
  destruct (scan_cloud_files_with_retry (cloud_folder (cloud_client self))
              get_recursive_info 3) as [e|[current_cloud|]] eqn:Hscan.
  - unfold sync, try_except. rewrite Hscan. eexists _, _. split; [reflexivity|].
    split; [done|]. intros self' Heq. simpl in Heq. done.
  - rewrite (sync_after_scan _ _ _ _ _ _ _ _ Hscan). cbv zeta.
    rewrite (check_local_changes_same _ Hne). cbn [negb andb].
    destruct (check_cloud_changes current_cloud (_last_cloud_state self)) eqn:Hcloud; simpl.
    + eexists _, _. split; [reflexivity|]. split; [done|].
      intros self' [= <-]. split; [done|]. exists current_cloud. split_and!; first [done|intros; congruence].
    + eexists _, _. split; [reflexivity|]. split; [done|].
      intros self' [= <-]. split; [done|]. exists current_cloud. split_and!; first [done|intros; congruence].
  - unfold sync, try_except. rewrite Hscan. eexists _, _. split; [reflexivity|].
    split; [done|]. intros self' Heq. simpl in Heq. done.
Qed.

(** X19. A tick that finds the local snapshot equal to a baseline that is not
    empty issues no upload, no delete and no move, whatever the remote
    listing shows and whether or not it arrives: a remote change is never
    reconciled.  (The requests for the listing are the scan's, and are not
    among the calls counted here.)  When the tick returns, the local
    baseline is as it was; the remote baseline becomes the observed snapshot
    if the cloud signal fired, and otherwise the synchronizer is
    unchanged. *)
Theorem unchanged_local_side_mutates_nothing self fs get_recursive_info h :
  _last_local_state self ≠ ∅ →
  ∃ t r, sync iter strptime_timestamp self (_last_local_state self) fs get_recursive_info h
         = (t, r)
    ∧ calls_of t = []
    ∧ (∀ self', r = inr self' →
         _last_local_state self' = _last_local_state self
         ∧ ∃ current_cloud,
             scan_cloud_files_with_retry (cloud_folder (cloud_client self))
               get_recursive_info 3 = inr (Some current_cloud)
             ∧ (check_cloud_changes current_cloud (_last_cloud_state self) = true →
                _last_cloud_state self' = current_cloud)
             ∧ (check_cloud_changes current_cloud (_last_cloud_state self) = false →
                self' = self)).
Proof. apply sync_unchanged_local. Qed.

End QuietTick.

Section AfterInitialSync.

Variable iter : gset string → list string.
Variable strptime_timestamp : string → option Z.
Variable fs : disk.
Variable cl : ops_client.

(** X20. After an [initial_sync] that succeeded on a local folder that is not
    empty, the local baseline is that folder's snapshot, and a tick that
    finds the same local snapshot issues no upload, no delete and no move,
    whatever the remote shows. *)
Theorem no_mutation_after_initial_sync
    (self : FileSynchronizer) (local_files : local_state) h t self' :
  initial_sync iter fs cl self local_files h = (t, inr (), self') →
  local_files ≠ ∅ →
  _last_local_state self' = local_files
  ∧ ∀ fs' get_recursive_info h',
      ∃ t' r', sync iter strptime_timestamp self' local_files fs' get_recursive_info h'
               = (t', r')
        ∧ calls_of t' = [].
Proof.
  intros [(? & _)|(_ & [(e & _ & ? & _)|(t1 & t2 & r2 & _ & _ & _ & Hr2)])]%initial_sync_cases
    Hne; [done|done|].
  destruct r2 as [e|[cloud_files|]]; [by destruct Hr2|destruct Hr2 as [_ ->]|done].
  split; [done|]. intros fs' get_recursive_info h'.
  destruct (sync_unchanged_local iter strptime_timestamp
              (commit self local_files cloud_files) fs' get_recursive_info h' Hne)
    as (t' & r' & Hrun & Hcalls & _).
  exists t', r'. split; [exact Hrun|exact Hcalls].
Qed.

End AfterInitialSync.

(** * Scenarios *)

Lemma elements_walk (X : gset string) : elements X ≡ₚ elements X.
Proof. reflexivity. Defined.

Example split_path : split_on slash "a/b/c.txt" = ["a"; "b"; "c.txt"].
Proof. reflexivity. Qed.

Example parent_folders_nested : parent_folders "a/b/c.txt" = ["a"; "a/b"].
Proof. reflexivity. Qed.

Example parent_folders_top : parent_folders "c.txt" = [].
Proof. reflexivity. Qed.

Example cloud_key_strips_prefix : cloud_key "backup" "disk:/backup/docs/a.txt" = "docs/a.txt".
Proof. reflexivity. Qed.

Example cloud_key_inner_occurrence :
  cloud_key "backup" "disk:/backup/x/disk:/backup/y" = "x/y".
Proof. reflexivity. Qed.

Example parse_known_stamp :
  _parse_cloud_time iso_table (PyStr "2023-04-27T19:41:25+00:00") = 1682624485.
Proof. reflexivity. Qed.

Example scan_succeeds_on_third_attempt :
  scan_cloud_files_with_retry "backup" flaky_listing 3
  = inr (Some {["docs/a.txt" := remote_file "docs/a.txt" 10 stamp]}).
Proof. vm_compute. reflexivity. Qed.

Example scan_gives_up :
  scan_cloud_files_with_retry "backup" dead_listing 3 = inl ScanError.
Proof. reflexivity. Qed.

Example tick_without_listing :
  sync elements iso_table first_tick_state two_new_files empty_fs dead_listing []
  = ([], inl (SyncError ScanError)).
Proof. reflexivity. Qed.

Example sort_is_stable :
  sort_by_key (λ x : string * string, - depth x.1)
    [("a", "x"); ("b/c", "y"); ("d", "z"); ("e/f", "w")]
  = [("b/c", "y"); ("e/f", "w"); ("a", "x"); ("d", "z")].
Proof. reflexivity. Qed.

(** *** C1: a failed upload or delete leaves the reconciliation *)

(** C1 (the code at the failing inputs). With a client that refuses every
    call: two new local files and an empty remote, the first [load] fails, the
    exception leaves [process_local_changes], no line is logged by the
    detector and the second file is not attempted; two remote files and an
    empty local side, the same for [delete]; and the tick turns the exception
    into a [SyncError]. *)
Theorem failed_upload_or_delete_escalates :
  process_local_changes elements empty_fs iso_table two_new_files ∅ ∅ offline_client []
  = ([Called (Load "a.txt")], inl (CloudStorageError (Load "a.txt")))
  ∧ process_local_changes elements empty_fs iso_table ∅ two_remote_files ∅ offline_client []
    = ([Called (Delete "disk:/backup/a.txt")],
       inl (CloudStorageError (Delete "disk:/backup/a.txt")))
  ∧ sync elements iso_table
         {| cloud_client := offline_client; _last_local_state := ∅; _last_cloud_state := ∅ |}
         two_new_files empty_fs (λ _, inr []) []
    = ([Logged ChangesDetected; Called (Load "a.txt")],
       inl (SyncError (CloudStorageError (Load "a.txt")))).
Proof. split_and!; vm_compute; reflexivity. Qed.

(** By contrast the rename items are guarded: steps 1 and 2 never raise. *)
Lemma rename_files_never_raises renamed_pairs (current_cloud : cloud_state) cl h :
  ∃ t, rename_files renamed_pairs current_cloud cl h = (t, inr ()).
Proof.
  unfold rename_files.
  set (body := λ '(old_name, new_name), try_except _ _).
  assert (Hbody : ∀ o n h', ∃ t, body (o, n) h' = (t, inr ())).
  { intros o n h'.
    cbv [body _try_rename_cloud_file try_except invoke log mbind M_bind mret M_ret].
    destruct (has_rename cl);
      repeat (match goal with
              | |- context [responds cl ?h0 ?c] => destruct (responds cl h0 c)
              | |- context [current_cloud !! o] => destruct (current_cloud !! o)
              end);
      eauto. }
  revert h. induction renamed_pairs as [|[o n] rest IH]; intros h; [by exists []|].
  rewrite for_each_cons.
  destruct (Hbody o n h) as (t1 & ->). destruct (IH (h ++ t1)) as (t2 & ->). eauto.
Qed.

(** Closing a decidable proposition by evaluation. *)
Ltac by_evaluation := apply (bool_decide_unpack _); vm_compute; exact I.

(** *** C2: the cloud signal compares ['modified'] only *)

(** The remote file changed size and kept its ['modified'] value: a signal
    that looked at size or at a newer time would be true, the cloud signal is
    false. *)
Lemma cloud_signal_ignores_size :
  ¬ (check_cloud_changes cloud_now cloud_before = true ↔
       cloud_before = ∅
       ∨ dom cloud_now ≠ dom cloud_before
       ∨ ∃ p it last_it timestr last_timestr,
           cloud_now !! p = Some it ∧ cloud_before !! p = Some last_it
           ∧ item_modified it = Some timestr ∧ item_modified last_it = Some last_timestr
           ∧ (item_size it ≠ item_size last_it
              ∨ _parse_cloud_time iso_table last_timestr
                < _parse_cloud_time iso_table timestr)).
Proof.
  intros [_ Hclaim].
  assert (Hfalse : check_cloud_changes cloud_now cloud_before = false)
    by (vm_compute; reflexivity).
  rewrite Hclaim in Hfalse; [done|].
  right; right.
  exists "a.txt", (remote_file "a.txt" 20 stamp), (remote_file "a.txt" 10 stamp).
  eexists _, _. split_and!; [reflexivity..|]. left. by intros [=].
Qed.

Lemma change_signals_and_gate_witness :
  ∃ t r, sync elements iso_table first_tick_state two_new_files empty_fs (λ _, inr []) []
         = (Logged ChangesDetected :: t, r).
Proof.
  destruct (change_signals_and_gate elements iso_table first_tick_state two_new_files
              empty_fs (λ _, inr []) ∅ []) as (_ & _ & Hgate).
  destruct Hgate as [_ Hgo]; [vm_compute; reflexivity|].
  apply Hgo. left. vm_compute; reflexivity.
Defined.

(** *** C3: a tick whose rename item failed still commits *)

Example rename_is_detected :
  _find_renamed_files elements renamed_fs renamed_local_now renamed_cloud renamed_local_before
  = [("old.txt", "new.txt")].
Proof. vm_compute. reflexivity. Qed.

Lemma sync_commits_after_reconciliation_witness :
  ∃ self',
    sync elements iso_table offline_after_initial renamed_local_now renamed_fs
         renamed_listing []
    = (Logged ChangesDetected
         :: [Called (Rename "/backup/old.txt" "/backup/new.txt");
             Called (Load "new.txt");
             Logged (FileRenameError "old.txt" "new.txt")],
       inr self')
    ∧ _last_local_state self' = renamed_local_now
    ∧ _last_cloud_state self' = renamed_cloud.
Proof.
  apply (sync_commits_after_reconciliation elements iso_table offline_after_initial
           renamed_local_now renamed_fs renamed_listing renamed_cloud []).
  - vm_compute; reflexivity.
  - left. vm_compute; reflexivity.
  - vm_compute; reflexivity.
Defined.

(** *** C4: same size, another modification time *)

Lemma find_renamed_files_greedy_signature_match_witness :
  ("old.txt", "b.txt")
    ∉ _find_renamed_files elements unrelated_fs unrelated_local_now renamed_cloud
        renamed_local_before.
Proof.
  destruct (find_renamed_files_greedy_signature_match elements unrelated_fs elements_walk
              unrelated_local_now renamed_cloud renamed_local_before)
    as (_ & _ & _ & _ & _ & Hboundary).
  apply (Hboundary "old.txt" "b.txt" 5 9).
  - vm_compute; reflexivity.
  - vm_compute; reflexivity.
  - lia.
Defined.

Example unrelated_file_is_not_a_rename :
  _find_renamed_files elements unrelated_fs unrelated_local_now renamed_cloud
    renamed_local_before = [].
Proof. vm_compute. reflexivity. Qed.

(** *** C5 and C7: one run with something of everything *)

Example mixed_run :
  process_local_changes elements empty_fs iso_table mixed_local mixed_cloud mixed_last
    reliable_client []
  = ([Called (Load "a.txt"); Called (Load "b.txt");
      Called (Delete "disk:/backup/gone.txt")], inr ()).
Proof. vm_compute. reflexivity. Qed.

Lemma upload_changed_rule_witness :
  (Load "c.txt" ∈ [Load "a.txt"; Load "b.txt"]
   ↔ needs_upload iso_table mixed_local mixed_cloud mixed_last "c.txt")
  ∧ (Load "b.txt" ∈ [Load "a.txt"; Load "b.txt"]
     ↔ needs_upload iso_table mixed_local mixed_cloud mixed_last "b.txt").
Proof.
  destruct (upload_changed_rule elements iso_table elements_walk mixed_local mixed_cloud
              mixed_last reliable_client ∅ []
              [Called (Load "a.txt"); Called (Load "b.txt")] (inr ())) as (_ & Hrule & _).
  { vm_compute; reflexivity. }
  split; apply Hrule; try reflexivity; by_evaluation.
Defined.


(** The upload rule as the specification states it, at a local file that
    changed since the baseline and whose remote entry has no ['modified']:
    rule (a) asks for the upload, and step 3, on a client that accepts
    every call, raises [KeyError] while reading the remote time and uploads
    nothing. *)
Lemma changed_file_without_modified_not_uploaded :
  ¬ (∀ p, p ∈ dom stale_local → p ∉ (∅ : gset string) →
       (Load p ∈ calls_of (upload_changed elements iso_table stale_local stale_cloud
                             stale_last reliable_client ∅ []).1
        ↔ needs_upload iso_table stale_local stale_cloud stale_last p)).
Proof.
  intros Hclaim.
  destruct (Hclaim "a.txt") as [_ Hupload]; [by_evaluation|by_evaluation|].
  assert (Hrun : upload_changed elements iso_table stale_local stale_cloud stale_last
                   reliable_client ∅ [] = ([], inl (KeyError "modified")))
    by (vm_compute; reflexivity).
  rewrite Hrun in Hupload. apply (elem_of_nil (Load "a.txt")). apply Hupload.
  right. exists (remote_file "a.txt" 10 None), 9, 10.
  split_and!; [vm_compute; reflexivity..|].
  left. exists 5, 10. split; [vm_compute; reflexivity|left; lia].
Qed.


(** *** C6: a folder and a folder below it *)

Lemma rename_folders_deepest_first_witness :
  ∃ i j : nat, (i < j)%nat
    ∧ sort_by_key (λ x : string * string, - depth x.1)
        [("docs", "papers"); ("docs/old", "docs/archive")] !! i
      = Some ("docs/old", "docs/archive")
    ∧ sort_by_key (λ x : string * string, - depth x.1)
        [("docs", "papers"); ("docs/old", "docs/archive")] !! j
      = Some ("docs", "papers").
Proof.
  destruct (rename_folders_deepest_first reliable_client
              [("docs", "papers"); ("docs/old", "docs/archive")] [])
    as (_ & _ & _ & Hnested).
  apply (Hnested "docs" "old" "papers" "docs/archive"); by_evaluation.
Defined.

Example nested_renames_issued :
  rename_folders [("docs", "papers"); ("docs/old", "docs/archive")] reliable_client []
  = ([Called (Rename "/backup/docs/old" "/backup/docs/archive");
      Called (Rename "/backup/docs" "/backup/papers")], inr ()).
Proof. vm_compute. reflexivity. Qed.

Example nested_renames_attempted_when_failing :
  rename_folders [("docs", "papers"); ("docs/old", "docs/archive")] offline_client []
  = ([Called (Rename "/backup/docs/old" "/backup/docs/archive");
      Logged (FolderRenameError "docs/old" "docs/archive");
      Logged (FolderRenameError "docs/old" "docs/archive");
      Called (Rename "/backup/docs" "/backup/papers");
      Logged (FolderRenameError "docs" "papers");
      Logged (FolderRenameError "docs" "papers")], inr ()).
Proof. vm_compute. reflexivity. Qed.

(** *** C8: a second tick on the committed baselines *)


(** Why the second observation has to reflect the deletes.  A first tick
    with an empty local side deletes the remote file it sees, the client
    accepting, and commits the snapshot taken before the delete.  A listing
    that goes on showing that file does not reflect the delete; against it
    the second tick deletes again. *)
Example repeated_listing_is_deleted_again :
  sync elements iso_table first_tick_state ∅ empty_fs lonely_listing []
  = ([Logged ChangesDetected; Called (Delete "disk:/backup/a.txt")], inr after_first_tick)
  ∧ ¬ reflects_deletes reliable_client []
        [Logged ChangesDetected; Called (Delete "disk:/backup/a.txt")]
        (_last_cloud_state after_first_tick)
  ∧ ∃ t r,
      sync elements iso_table after_first_tick (_last_local_state after_first_tick)
           empty_fs lonely_listing [] = (t, r)
      ∧ calls_of t = [Delete "disk:/backup/a.txt"].
Proof.
  split_and!; [vm_compute; reflexivity|by_evaluation|].
  eexists _, _. split; vm_compute; reflexivity.
Qed.

(** *** C9: directories do not reach the snapshot *)

Lemma collect_files_only_files_witness :
  collect_files "backup" listing_with_more_dirs = collect_files "backup" listing_with_dirs
  ∧ check_cloud_changes (collect_files "backup" listing_with_more_dirs)
                        (collect_files "backup" listing_with_dirs) = false.
Proof.
  destruct (collect_files_only_files "backup" listing_with_dirs)
    as (_ & _ & _ & _ & Hdirs).
  destruct (Hdirs listing_with_more_dirs ∅) as (Hsame & _ & Hquiet).
  { vm_compute; reflexivity. }
  split; [exact Hsame|]. apply Hquiet. by_evaluation.
Defined.

Example snapshot_of_listing :
  collect_files "backup" listing_with_more_dirs
  = {["docs/a.txt" := remote_file "docs/a.txt" 10 stamp]}.
Proof. vm_compute. reflexivity. Qed.

(** *** C10: a remote entry without ['modified'] *)

(** The local file has a positive modification time, the remote entry has no
    ['modified'] key: the subscript raises, nothing is uploaded. *)
Lemma missing_modified_raises_key_error :
  two_new_files !! "a.txt" = Some (5, 10)
  ∧ (∃ it, undated_cloud !! "a.txt" = Some it ∧ item_modified it = None)
  ∧ upload_item iso_table two_new_files undated_cloud ∅ reliable_client "a.txt" []
    = ([], inl (KeyError "modified"))
  ∧ process_local_changes elements empty_fs iso_table two_new_files undated_cloud ∅
      reliable_client []
    = ([], inl (KeyError "modified")).
Proof.
  split_and!; [vm_compute; reflexivity| |vm_compute; reflexivity..].
  eexists. split; vm_compute; reflexivity.
Qed.

Lemma unparsable_cloud_time_forces_upload_witness :
  upload_item iso_table two_new_files garbled_cloud two_new_files reliable_client "a.txt" []
  = ([Called (Load "a.txt")], inr ()).
Proof.
  destruct (unparsable_cloud_time_forces_upload iso_table) as (_ & _ & Hupload).
  apply (Hupload two_new_files garbled_cloud two_new_files reliable_client "a.txt"
           (remote_file "a.txt" 10 (Some (PyStr "yesterday"))) (PyStr "yesterday") 5 10 []).
  - vm_compute; reflexivity.
  - reflexivity.
  - vm_compute; reflexivity.
  - vm_compute; reflexivity.
  - lia.
Defined.

(** *** X1 to X3: a folder renamed on disk *)

Lemma compare_folder_structures_same_paths_and_sizes_witness :
  _compare_folder_structures elements "docs" "papers" folder_local_now folder_cloud []
  = ([], inr true).
Proof.
  destruct (compare_folder_structures_same_paths_and_sizes elements elements_walk
              "docs" "papers" folder_local_now folder_cloud []) as (r & Hrun & _).
  rewrite Hrun. vm_compute in Hrun. by injection Hrun as <-.
Defined.

Lemma folders_of_are_slash_prefixes_witness : "docs" ∈ folders_of nested_local.
Proof.
  destruct (folders_of_are_slash_prefixes nested_local "docs") as [[_ Hin] _].
  apply Hin. exists "docs/a.txt", "a.txt". split; [by_evaluation|reflexivity].
Defined.

Lemma find_renamed_folders_sound_witness :
  same_structure folder_local_now folder_cloud "docs" "papers".
Proof.
  destruct (find_renamed_folders_sound elements elements_walk folder_local_now folder_cloud
              folder_local_before []) as (r & Hrun & Hpairs & _).
  vm_compute in Hrun. injection Hrun as <-.
  destruct (Hpairs [("docs", "papers")] eq_refl) as (_ & _ & Hin).
  apply (Hin "docs" "papers"). by_evaluation.
Defined.

(** *** X4 and X5: one file rename, moved or not *)

Lemma rename_files_moves_once_witness :
  rename_files renaming_pairs renamed_cloud reliable_client []
  = ([Called (Rename "/backup/old.txt" "/backup/new.txt")], inr ()).
Proof.
  apply (rename_files_moves_once renamed_cloud reliable_client renaming_pairs []).
  - reflexivity.
  - reflexivity.
Defined.

Lemma rename_files_deletes_only_after_upload_witness :
  ∃ t, rename_files renaming_pairs renamed_cloud offline_client [] = (t, inr ()).
Proof.
  destruct (rename_files_deletes_only_after_upload renamed_cloud offline_client
              renaming_pairs []) as (t & Hrun & _).
  by exists t.
Defined.

(** *** X6 and X7: the mixed run again *)

Lemma process_local_changes_touches_only_what_changed_witness :
  Forall (safe_call reliable_client mixed_local mixed_cloud)
    [Load "a.txt"; Load "b.txt"; Delete "disk:/backup/gone.txt"].
Proof.
  assert (calls_of (process_local_changes elements empty_fs iso_table mixed_local mixed_cloud
                      mixed_last reliable_client []).1
          = [Load "a.txt"; Load "b.txt"; Delete "disk:/backup/gone.txt"]) as <-.
  { vm_compute. reflexivity. }
  apply (process_local_changes_touches_only_what_changed elements empty_fs iso_table
           elements_walk mixed_local mixed_cloud mixed_last reliable_client []).
Defined.

Lemma process_local_changes_returns_witness :
  ∃ t, process_local_changes elements empty_fs iso_table mixed_local mixed_cloud mixed_last
         reliable_client [] = (t, inr ()).
Proof.
  apply (process_local_changes_returns elements empty_fs iso_table elements_walk
           mixed_local mixed_cloud mixed_last reliable_client []).
  - reflexivity.
  - change (map_Forall (λ _ it, is_Some (item_size it) ∧ is_Some (item_modified it))
              mixed_cloud).
    by_evaluation.
Defined.

(** *** X8 to X10: scanning both sides *)

Lemma scan_retries_until_first_listing_witness :
  ∃ k items, (k < 3)%nat ∧ flaky_listing k = inr items
    ∧ collect_files "backup" listing_with_dirs = collect_files "backup" items
    ∧ ∀ j, (j < k)%nat → ∃ e, flaky_listing j = inl e.
Proof.
  pose proof (scan_retries_until_first_listing "backup" flaky_listing 3) as Hscan.
  assert (scan_cloud_files_with_retry "backup" flaky_listing 3
          = inr (Some (collect_files "backup" listing_with_dirs))) as Heval.
  { vm_compute. reflexivity. }
  rewrite Heval in Hscan. exact Hscan.
Defined.

Lemma scan_local_files_regular_readable_witness :
  ∃ files, scan_local_files scanned_walk = inr files ∧ "docs/a.txt" ∈ dom files.
Proof.
  pose proof (scan_local_files_regular_readable scanned_walk) as [Hscan _].
  destruct (scan_local_files scanned_walk) as [err|files] eqn:Hrun.
  - vm_compute in Hrun. discriminate Hrun.
  - exists files. split; [reflexivity|]. destruct Hscan as (_ & _ & Hkept & _).
    apply (Hkept {| entry_path := "docs\a.txt"; entry_is_file := Some true;
                    entry_stat := Some (5, 3) |} (5, 3)).
    + constructor. constructor.
    + reflexivity.
    + reflexivity.
Defined.

Lemma scan_cloud_only_lists_witness :
  ∃ k, (k ≤ 3)%nat ∧ scan_cloud slow_ops 3 [] = (replicate k GetRecursiveInfo,
                                                  inr (Some (collect_files "backup" listing_with_dirs))).
Proof.
  destruct (scan_cloud_only_lists slow_ops 3 []) as (k & Hk & _ & Hrun).
  exists k. split; [exact Hk|]. rewrite Hrun. f_equal.
Defined.

(** *** X11 to X15: the stages of the initial synchronisation *)


Lemma create_folder_structure_parents_first_witness :
  CreateFolder "docs" ∈ [CreateFolder "docs"].
Proof.
  destruct (create_folder_structure_parents_first elements elements_walk accepting_ops
              ["docs/drafts/a.txt"; "b.txt"] []
              [CreateFolder "docs"; CreateFolder "docs/drafts"] (inr ()))
    as (_ & _ & Hparent & _).
  - by_evaluation.
  - vm_compute. reflexivity.
  - apply (Hparent [CreateFolder "docs"] [] "docs" "drafts"). reflexivity.
Defined.

Lemma upload_file_retries_witness :
  ∃ k, replicate 3 (LoadFile "docs/a.txt") = replicate k (LoadFile "docs/a.txt")
       ∧ (k ≤ 3)%nat.
Proof.
  destruct (upload_file_retries nested_disk slow_ops "docs/a.txt" false 3 []
              (replicate 3 (LoadFile "docs/a.txt")) (inr ())) as (k & Ht & Hk & _).
  - vm_compute. reflexivity.
  - exists k. split; [exact Ht|exact Hk].
Defined.


Lemma validate_sync_checks_one_listing_witness :
  ∃ snapshot,
    scan_cloud_files_with_retry "backup" (listing_attempt accepting_ops [LoadFile "docs/a.txt"]) 5
    = inr (Some snapshot)
    ∧ dom nested_local ⊆ dom snapshot.
Proof.
  destruct (validate_sync_checks_one_listing accepting_ops nested_local
              [LoadFile "docs/a.txt"] [GetRecursiveInfo] (inr ())) as (_ & [Hok _] & _).
  - vm_compute. reflexivity.
  - apply Hok. reflexivity.
Defined.

(** *** X16 and X17: one initial synchronisation *)

Lemma initial_sync_wipes_before_uploading_witness :
  ∃ t_scan t_clean t_folders t_upload t_check scanned,
    initial_sync_calls = t_scan ++ t_clean ++ t_folders ++ t_upload ++ t_check
    ∧ scan_cloud accepting_ops 5 [] = (t_scan, scanned).
Proof.
  destruct (initial_sync_wipes_before_uploading elements elements_walk nested_disk accepting_ops
              first_tick_state nested_local [] initial_sync_calls (inr ()) synced_state)
    as (t_scan & t_clean & t_folders & t_upload & t_check & scanned & Hcalls & Hscan & _).
  - by_evaluation.
  - vm_compute. reflexivity.
  - exists t_scan, t_clean, t_folders, t_upload, t_check, scanned.
    split; [exact Hcalls|exact Hscan].
Defined.

Lemma initial_sync_baselines_witness : _last_local_state synced_state = nested_local.
Proof.
  destruct (initial_sync_baselines elements elements_walk nested_disk accepting_ops
              first_tick_state nested_local [] initial_sync_calls (inr ()) synced_state)
    as (_ & _ & _ & Hdone).
  - vm_compute. reflexivity.
  - destruct Hdone as [Hlocal _]; [reflexivity|by_evaluation|exact Hlocal].
Defined.

(** *** X18: a small remote tree *)

Lemma get_recursive_info_lists_every_folder_witness :
  ∃ items, small_tree "/backup" = Some items
    ∧ items ⊆ [remote_dir "docs"; remote_file "b.txt" 3 stamp;
               remote_file "docs/a.txt" 10 stamp].
Proof.
  assert (weights_decrease small_tree small_tree_weight) as Hweights.
  { intros folder items. unfold small_tree, small_tree_weight.
    destruct (decide (folder = "/backup")) as [->|_].
    { intros [= <-]. vm_compute. lia. }
    destruct (decide (folder = "disk:/backup/docs")) as [->|_]; [|done].
    intros [= <-]. vm_compute. lia. }
  pose proof (get_recursive_info_lists_every_folder small_tree "backup" small_tree_weight 3
                Hweights) as Hwalk.
  assert (YandexDiskClient.get_recursive_info small_tree "backup" 3
          = Some (inr [remote_dir "docs"; remote_file "b.txt" 3 stamp;
                       remote_file "docs/a.txt" 10 stamp])) as Heval.
  { vm_compute. reflexivity. }
  rewrite Heval in Hwalk. destruct Hwalk as [Hroot _]; [vm_compute; lia|exact Hroot].
Defined.

(** *** X19 and X20: ticks with nothing new on disk *)

Lemma unchanged_local_side_mutates_nothing_witness :
  ∃ t r, sync elements iso_table settled mixed_last empty_fs dead_listing [] = (t, r)
         ∧ calls_of t = [].
Proof.
  destruct (unchanged_local_side_mutates_nothing elements iso_table settled empty_fs
              dead_listing []) as (t & r & Hrun & Hcalls & _).
  - by_evaluation.
  - exists t, r. split; [exact Hrun|exact Hcalls].
Defined.

Lemma no_mutation_after_initial_sync_witness :
  ∃ t r, sync elements iso_table synced_state nested_local empty_fs dead_listing [] = (t, r)
         ∧ calls_of t = [].
Proof.
  destruct (no_mutation_after_initial_sync elements iso_table nested_disk accepting_ops
              first_tick_state nested_local [] initial_sync_calls synced_state)
    as [_ Hquiet].
  - vm_compute. reflexivity.
  - by_evaluation.
  - apply (Hquiet empty_fs dead_listing []).
Defined.
